(** * Verification of [src/strategy.py]: the [TradingStrategy] pipeline

    The development embeds the indicator, signal and backtest stages of
    [TradingStrategy] and states the properties of the specification over
    that embedding.

    Numbers.  The program computes on IEEE-754 doubles through pandas and
    numpy.  Here a double is idealised as an extended rational [fval]: a
    finite value is an exact rational, and the three special values NaN,
    +inf and -inf keep their IEEE arithmetic (x/0, inf-inf, 0*inf, NaN
    propagation, comparisons with NaN being false).  Rounding, overflow and
    the sign of zero are not modelled by [fval]: a statement over [fval]
    says which formula the program computes.  Where a property depends on
    a rounded value, the module [Binary64] evaluates the rolling mean and
    the RSI on the doubles themselves.  "Undefined" in the specification
    is the NaN of the program.

    Tables.  A [DataFrame] lives in a store of tables addressed by
    references, so that copying, column assignment and the caching of a
    table inside the strategy object are the effects the program has. *)

From Stdlib Require Import QArith Qcanon Qround ZArith Lia.
From Stdlib Require PrimFloat FloatOps SpecFloat Uint63.
From stdpp Require Import gmap strings list fin_maps.

Set Warnings "-inexact-float".

(* ===================================================================== *)
(** ** Idealised floating-point values *)
(* ===================================================================== *)

Inductive fval : Type :=
  | NaN
  | PInf
  | NInf
  | Fin (q : Qc).

#[global] Instance fval_eq_dec : EqDecision fval.
Proof. solve_decision. Defined.

#[global] Instance fval_inhabited : Inhabited fval := populate NaN.

Module Float.

Local Open Scope Qc_scope.

(** Integers and integer ratios as literals. *)
Definition of_Z (z : Z) : Qc := Q2Qc (inject_Z z).
Definition ratio (n : Z) (d : positive) : Qc := Q2Qc (n # d).
Definition of_nat (n : nat) : Qc := of_Z (Z.of_nat n).

(** [x == x] of the program: false exactly on NaN. *)
Definition notnan (x : fval) : bool :=
  match x with NaN => false | _ => true end.

Definition isinf (x : fval) : bool :=
  match x with PInf | NInf => true | _ => false end.

(** The infinity carrying the sign of a rational; 0 has none. *)
Definition signed_inf (q : Qc) : fval :=
  if bool_decide (0 < q) then PInf
  else if bool_decide (q < 0) then NInf
  else NaN.

Definition fneg (x : fval) : fval :=
  match x with
  | NaN => NaN
  | PInf => NInf
  | NInf => PInf
  | Fin q => Fin (- q)
  end.

Definition fadd (x y : fval) : fval :=
  match x, y with
  | NaN, _ | _, NaN => NaN
  | PInf, NInf | NInf, PInf => NaN
  | PInf, _ | _, PInf => PInf
  | NInf, _ | _, NInf => NInf
  | Fin a, Fin b => Fin (a + b)
  end.

Definition fsub (x y : fval) : fval := fadd x (fneg y).

Definition fmul (x y : fval) : fval :=
  match x, y with
  | NaN, _ | _, NaN => NaN
  | Fin a, Fin b => Fin (a * b)
  | PInf, PInf | NInf, NInf => PInf
  | PInf, NInf | NInf, PInf => NInf
  | PInf, Fin b | Fin b, PInf => signed_inf b
  | NInf, Fin b | Fin b, NInf => signed_inf (- b)
  end.

(** Division never raises on a series: a finite nonzero value over zero
    is an infinity, zero over zero and inf over inf are NaN. *)
Definition fdiv (x y : fval) : fval :=
  match x, y with
  | NaN, _ | _, NaN => NaN
  | Fin a, Fin b => if bool_decide (b = 0) then signed_inf a else Fin (a / b)
  | Fin _, (PInf | NInf) => Fin 0
  | PInf, Fin b => if bool_decide (b < 0) then NInf else PInf
  | NInf, Fin b => if bool_decide (b < 0) then PInf else NInf
  | (PInf | NInf), (PInf | NInf) => NaN
  end.

(** Comparisons: every comparison with NaN is false. *)
Definition flt (x y : fval) : bool :=
  match x, y with
  | NaN, _ | _, NaN => false
  | Fin a, Fin b => bool_decide (a < b)
  | NInf, (Fin _ | PInf) => true
  | Fin _, PInf => true
  | _, _ => false
  end.

Definition fgt (x y : fval) : bool := flt y x.

Definition fle (x y : fval) : bool :=
  match x, y with
  | NaN, _ | _, NaN => false
  | Fin a, Fin b => bool_decide (a <= b)
  | NInf, _ => true
  | _, PInf => true
  | _, _ => false
  end.

Definition fmax (x y : fval) : fval := if flt x y then y else x.
Definition fmin (x y : fval) : fval := if flt y x then y else x.

End Float.

Export Float.

Declare Scope fval_scope.
Delimit Scope fval_scope with F.
Bind Scope fval_scope with fval.
Infix "+" := fadd : fval_scope.
Infix "-" := fsub : fval_scope.
Infix "*" := fmul : fval_scope.
Infix "/" := fdiv : fval_scope.
Notation "- x" := (fneg x) : fval_scope.

(* ===================================================================== *)
(** ** Series: the column operations of pandas the program calls *)
(* ===================================================================== *)

(** A column of a table.  Integer columns ([Signal]) are embedded in the
    same type through [Fin]. *)
Abbreviation column := (list fval).

(** The exceptions the program can raise.  [OverflowError] carries no
    message: its text differs between the versions of numpy.
    [DanglingReference] stands for the use of a reference the store does
    not hold, which no program does; it only makes the operations of the
    store total. *)
Inductive exn : Type :=
  | KeyError (key : string)
  | ValueError (msg : string)
  | IndexError (msg : string)
  | OverflowError
  | DanglingReference.

#[global] Instance exn_eq_dec : EqDecision exn.
Proof. solve_decision. Defined.

Module Series.

Local Open Scope Qc_scope.

(** *** Element-wise arithmetic and comparisons *)

Definition add (xs ys : column) : column := zip_with fadd xs ys.
Definition sub (xs ys : column) : column := zip_with fsub xs ys.
Definition mul (xs ys : column) : column := zip_with fmul xs ys.
Definition div (xs ys : column) : column := zip_with fdiv xs ys.
Definition neg (xs : column) : column := fneg <$> xs.

Definition scalar_add (c : fval) (xs : column) : column := fadd c <$> xs.
Definition scalar_sub (c : fval) (xs : column) : column := fsub c <$> xs.
Definition scalar_mul (c : fval) (xs : column) : column := fmul c <$> xs.
Definition scalar_div (c : fval) (xs : column) : column := fdiv c <$> xs.
Definition mul_scalar (xs : column) (c : fval) : column := (λ x, fmul x c) <$> xs.

Definition gt (xs ys : column) : list bool := zip_with fgt xs ys.
Definition le (xs ys : column) : list bool := zip_with fle xs ys.
Definition gt_scalar (xs : column) (c : fval) : list bool := (λ x, fgt x c) <$> xs.
Definition lt_scalar (xs : column) (c : fval) : list bool := (λ x, flt x c) <$> xs.

(** [xs.where(cond, other)]: keep [xs] where [cond] holds, [other]
    elsewhere. *)
Definition where_ (xs : column) (cond : list bool) (other : fval) : column :=
  zip_with (λ x (c : bool), if c then x else other) xs cond.

(** *** Shifts and differences *)

(** [xs.shift(1)]: every value moves one bar later; bar 0 is NaN. *)
Definition shift1 (xs : column) : column := take (length xs) (NaN :: xs).

(** [xs.diff()] is [xs - xs.shift(1)]. *)
Definition diff (xs : column) : column := sub xs (shift1 xs).

(** [xs.pct_change()] is [xs / xs.shift(1) - 1].  (Some versions of
    pandas first fill missing values forward; a column without missing
    values, such as the closes of a price series, is the same either
    way.) *)
Definition pct_change (xs : column) : column :=
  (λ r, fsub r (Fin 1)) <$> div xs (shift1 xs).

(** *** Rolling windows *)

(** The windowed aggregations see infinities as missing values. *)
Definition prep_values (xs : column) : column :=
  (λ x, if isinf x then NaN else x) <$> xs.

(** Bounds of the fixed window ending at bar [i]:
    [start = max 0 (i + 1 - window)], [end = i + 1]. *)
Definition window_start (window i : nat) : nat := S i - window.

Definition slice (xs : column) (lo hi : nat) : column :=
  take (hi - lo) (drop lo xs).

(** Running state of the windowed mean: number of observations and
    their sum.  The compensated summation and the sign and constant-run
    corrections of the implementation only undo rounding; on exact values
    they change nothing and are left to [Binary64.add_mean],
    [Binary64.remove_mean] and [Binary64.calc_mean]. *)
Definition add_mean (val : fval) (st : nat * Qc) : nat * Qc :=
  match val with
  | Fin q => (S st.1, st.2 + q)
  | _ => st
  end.

Definition remove_mean (val : fval) (st : nat * Qc) : nat * Qc :=
  match val with
  | Fin q => (Nat.pred st.1, st.2 - q)
  | _ => st
  end.

Definition calc_mean (minp : nat) (st : nat * Qc) : fval :=
  if bool_decide (minp ≤ st.1 ∧ 0 < st.1)%nat
  then Fin (st.2 / of_nat st.1)
  else NaN.

(** One bar of the sliding computation.  The window is summed afresh at
    bar 0 and whenever it does not overlap the previous one; otherwise
    the values that left the window are removed and the new ones
    added. *)
Definition roll_mean_step (window : nat) (values : column) (i : nat)
    (st : nat * Qc) : nat * Qc :=
  let s := window_start window i in
  let e := S i in
  if bool_decide (i = 0 ∨ i ≤ s)%nat then
    foldl (λ acc v, add_mean v acc) (0%nat, 0) (slice values s e)
  else
    let st1 := foldl (λ acc v, remove_mean v acc) st
                 (slice values (window_start window (Nat.pred i)) s) in
    foldl (λ acc v, add_mean v acc) st1 (slice values i e).

Fixpoint roll_mean_upto (window minp : nat) (values : column) (n : nat)
    : (nat * Qc) * column :=
  match n with
  | O => ((0%nat, 0), [])
  | S i =>
      let '(st, out) := roll_mean_upto window minp values i in
      let st' := roll_mean_step window values i st in
      (st', out ++ [calc_mean minp st'])
  end.

(** The windowed aggregations hand the window and [min_periods] to
    compiled code as signed 64-bit integers. *)
Definition int64_limit : Z := Eval cbv in (2 ^ 63)%Z.

(** [xs.rolling(window=window).mean()]; [min_periods] defaults to the
    window size.  A negative window is refused when the window is
    validated, a window that does not fit 64 bits when the aggregation
    is called. *)
Definition rolling_mean (window : Z) (xs : column) : exn + column :=
  if (window <? 0)%Z then inl (ValueError "window must be an integer 0 or greater")
  else if (int64_limit <=? window)%Z then inl OverflowError
  else
    let w := Z.to_nat window in
    inr (roll_mean_upto w w (prep_values xs) (length xs)).2.

(** *** Exponentially weighted mean, [adjust=True] *)

Definition ewm_com (span : Z) : Qc := (of_Z span - 1) / 2.
Definition ewm_alpha (span : Z) : Qc := 1 / (1 + ewm_com span).

(** State: the current weighted mean, the total weight of the past, and
    the number of observations seen. *)
Definition ewm_step (old_wt_factor : Qc) (st : fval * Qc * nat) (cur : fval)
    : fval * Qc * nat :=
  let '(weighted, old_wt, nobs) := st in
  let is_observation := notnan cur in
  let nobs := (nobs + (if is_observation then 1 else 0))%nat in
  if notnan weighted then
    let old_wt := old_wt * old_wt_factor in
    if is_observation then
      let weighted' :=
        if bool_decide (weighted ≠ cur)
        then fdiv (fadd (fmul (Fin old_wt) weighted) (fmul (Fin 1) cur))
                  (Fin (old_wt + 1))
        else weighted in
      (weighted', old_wt + 1, nobs)
    else (weighted, old_wt, nobs)
  else if is_observation then (cur, old_wt, nobs)
  else (weighted, old_wt, nobs).

Definition ewm_output (st : fval * Qc * nat) : fval :=
  if bool_decide (1 ≤ st.2)%nat then st.1.1 else NaN.

Fixpoint ewm_loop (old_wt_factor : Qc) (st : fval * Qc * nat) (xs : column)
    : column :=
  match xs with
  | [] => []
  | cur :: rest =>
      let st' := ewm_step old_wt_factor st cur in
      ewm_output st' :: ewm_loop old_wt_factor st' rest
  end.

(** [xs.ewm(span=span).mean()]. *)
Definition ewm_mean (span : Z) (xs : column) : exn + column :=
  if (span <? 1)%Z then inl (ValueError "span must satisfy: span >= 1")
  else
    match prep_values xs with
    | [] => inr []
    | x0 :: rest =>
        let st0 := (x0, 1, if notnan x0 then 1%nat else 0%nat) in
        inr (ewm_output st0 :: ewm_loop (1 - ewm_alpha span) st0 rest)
    end.

(** *** Cumulative and expanding aggregations *)

(** [xs.cumprod()]: NaN bars are skipped by the running product and stay
    NaN in the output. *)
Fixpoint cumprod_from (acc : fval) (xs : column) : column :=
  match xs with
  | [] => []
  | x :: rest =>
      if notnan x
      then fmul acc x :: cumprod_from (fmul acc x) rest
      else NaN :: cumprod_from acc rest
  end.

Definition cumprod (xs : column) : column := cumprod_from (Fin 1) xs.

(** [xs.expanding().max()]: the largest observation so far, NaN until
    the first observation. *)
Fixpoint expanding_max_from (cur : fval) (xs : column) : column :=
  match xs with
  | [] => []
  | x :: rest =>
      let cur' := if notnan x then (if notnan cur then fmax cur x else x)
                  else cur in
      cur' :: expanding_max_from cur' rest
  end.

Definition expanding_max (xs : column) : column :=
  expanding_max_from NaN (prep_values xs).

(** *** Reductions, all skipping NaN *)

Definition observations (xs : column) : column := filter (λ x, notnan x = true) xs.

(** [xs.min()]. *)
Definition min (xs : column) : fval :=
  match observations xs with
  | [] => NaN
  | x :: rest => foldl fmin x rest
  end.

Definition sum_obs (xs : column) : fval := foldl fadd (Fin 0) (observations xs).

(** [xs.mean()]. *)
Definition mean (xs : column) : fval :=
  fdiv (sum_obs xs) (Fin (of_nat (length (observations xs)))).

(** [xs.iloc[-1]]. *)
Definition iloc_last (xs : column) : exn + fval :=
  match last xs with
  | Some x => inr x
  | None => inl (IndexError "single positional indexer is out-of-bounds")
  end.

Section Sqrt.

(** The square root of a nonnegative finite value is not a rational
    function; it is left abstract.  On the other values numpy's square
    root is fixed: NaN for NaN and for negative values, +inf for +inf. *)
Variable qsqrt : Qc → fval.

Definition sqrt (x : fval) : fval :=
  match x with
  | NaN | NInf => NaN
  | PInf => PInf
  | Fin q => if bool_decide (q < 0) then NaN else qsqrt q
  end.

(** Sample variance ([ddof=1]) of the observations. *)
Definition var (xs : column) : fval :=
  let obs := observations xs in
  let count := length obs in
  if bool_decide (count ≤ 1)%nat then NaN
  else
    let avg := fdiv (foldl fadd (Fin 0) obs) (Fin (of_nat count)) in
    let sqr := (λ x, fmul (fsub avg x) (fsub avg x)) <$> obs in
    fdiv (foldl fadd (Fin 0) sqr) (Fin (of_nat (count - 1))).

(** [xs.std()]. *)
Definition std (xs : column) : fval := sqrt (var xs).

(** [xs.rolling(window=window).std()]: the sample standard deviation of
    each window that holds [window] observations, and more than one. *)
Definition rolling_std (window : Z) (xs : column) : exn + column :=
  if (window <? 0)%Z then inl (ValueError "window must be an integer 0 or greater")
  else if (int64_limit <=? window)%Z then inl OverflowError
  else
    let w := Z.to_nat window in
    let values := prep_values xs in
    inr (imap (λ i _,
           let win := slice values (window_start w i) (S i) in
           let nobs := length (observations win) in
           if bool_decide (w ≤ nobs ∧ 1 < nobs)%nat
           then std win else NaN) xs).

End Sqrt.

End Series.

(* ===================================================================== *)
(** ** Binary64: the rolling mean and the RSI on IEEE-754 doubles *)
(* ===================================================================== *)

(** The rounding the idealised values leave out.  The operations of
    [Series] that [calculate_moving_averages] and [calculate_rsi] call
    are repeated here on the binary64 numbers of the program.  The
    sliding mean keeps what the implementation keeps: a compensated
    running sum, the number of negative values of the window and the
    length of the current run of equal values (the latter since pandas
    1.5).  A decimal literal denotes the double nearest to it. *)
Module Binary64.

Import PrimFloat.
Local Open Scope float_scope.

(** *** Element-wise arithmetic and comparisons *)

Definition notnan (x : float) : bool := (x =? x).

Definition sub (xs ys : list float) : list float := zip_with PrimFloat.sub xs ys.
Definition div (xs ys : list float) : list float := zip_with PrimFloat.div xs ys.
Definition neg (xs : list float) : list float := PrimFloat.opp <$> xs.
Definition scalar_add (c : float) (xs : list float) : list float :=
  PrimFloat.add c <$> xs.
Definition scalar_sub (c : float) (xs : list float) : list float :=
  PrimFloat.sub c <$> xs.
Definition scalar_div (c : float) (xs : list float) : list float :=
  PrimFloat.div c <$> xs.
Definition gt_scalar (xs : list float) (c : float) : list bool :=
  (λ x, c <? x) <$> xs.
Definition lt_scalar (xs : list float) (c : float) : list bool :=
  (λ x, x <? c) <$> xs.
Definition where_ (xs : list float) (cond : list bool) (other : float)
    : list float :=
  zip_with (λ x (c : bool), if c then x else other) xs cond.

Definition shift1 (xs : list float) : list float :=
  take (length xs) (nan :: xs).
Definition diff (xs : list float) : list float := sub xs (shift1 xs).

(** *** The sliding mean *)

(** The windowed aggregations see infinities as missing values. *)
Definition prep_values (xs : list float) : list float :=
  (λ x, if is_infinity x then nan else x) <$> xs.

Definition slice (xs : list float) (lo hi : nat) : list float :=
  take (hi - lo) (drop lo xs).

(** The integer count of a window as a double. *)
Definition of_count (n : Z) : float := of_uint63 (Uint63.of_Z n).

(** The running state of the sliding mean. *)
Record mean_state : Type := MeanState {
  nobs : Z;
  sum_x : float;
  neg_ct : Z;
  compensation_add : float;
  compensation_remove : float;
  num_consecutive_same_value : Z;
  prev_value : float
}.

(** A value enters the window: compensated (Kahan) addition to the
    running sum. *)
Definition add_mean (val : float) (st : mean_state) : mean_state :=
  if notnan val then
    let y := val - compensation_add st in
    let t := sum_x st + y in
    {| nobs := nobs st + 1;
       sum_x := t;
       neg_ct := if get_sign val then neg_ct st + 1 else neg_ct st;
       compensation_add := t - sum_x st - y;
       compensation_remove := compensation_remove st;
       num_consecutive_same_value :=
         if val =? prev_value st
         then num_consecutive_same_value st + 1 else 1;
       prev_value := val |}
  else st.

(** A value leaves the window: compensated addition of its opposite. *)
Definition remove_mean (val : float) (st : mean_state) : mean_state :=
  if notnan val then
    let y := - val - compensation_remove st in
    let t := sum_x st + y in
    {| nobs := nobs st - 1;
       sum_x := t;
       neg_ct := if get_sign val then neg_ct st - 1 else neg_ct st;
       compensation_add := compensation_add st;
       compensation_remove := t - sum_x st - y;
       num_consecutive_same_value := num_consecutive_same_value st;
       prev_value := prev_value st |}
  else st.

(** The mean of the window: the running sum over the count, replaced by
    the repeated value when the window holds one value only, and by 0
    when its sign contradicts the signs of the values. *)
Definition calc_mean (minp : Z) (st : mean_state) : float :=
  if ((minp <=? nobs st)%Z && (0 <? nobs st)%Z)%bool then
    let result := sum_x st / of_count (nobs st) in
    if (nobs st <=? num_consecutive_same_value st)%Z then prev_value st
    else if ((neg_ct st =? 0)%Z && (result <? 0))%bool then 0
    else if ((neg_ct st =? nobs st)%Z && (0 <? result))%bool then 0
    else result
  else nan.

(** The state a window that is summed afresh starts from. *)
Definition fresh_window (first : float) : mean_state :=
  {| nobs := 0; sum_x := 0; neg_ct := 0;
     compensation_add := 0; compensation_remove := 0;
     num_consecutive_same_value := 0; prev_value := first |}.

(** One bar of the sliding computation, as [Series.roll_mean_step]. *)
Definition roll_mean_step (window : nat) (values : list float) (i : nat)
    (st : mean_state) : mean_state :=
  let s := (S i - window)%nat in
  let e := S i in
  if bool_decide (i = 0 ∨ i ≤ s)%nat then
    foldl (λ acc v, add_mean v acc) (fresh_window (nth s values nan))
      (slice values s e)
  else
    let st1 := foldl (λ acc v, remove_mean v acc) st
                 (slice values (S (Nat.pred i) - window) s) in
    foldl (λ acc v, add_mean v acc) st1 (slice values i e).

Fixpoint roll_mean_upto (window : nat) (minp : Z) (values : list float)
    (n : nat) : mean_state * list float :=
  match n with
  | O => (fresh_window nan, [])
  | S i =>
      let '(st, out) := roll_mean_upto window minp values i in
      let st' := roll_mean_step window values i st in
      (st', out ++ [calc_mean minp st'])
  end.

(** [xs.rolling(window=window).mean()]. *)
Definition rolling_mean (window : Z) (xs : list float) : exn + list float :=
  if (window <? 0)%Z then inl (ValueError "window must be an integer 0 or greater")
  else if (Series.int64_limit <=? window)%Z then inl OverflowError
  else
    inr (roll_mean_upto (Z.to_nat window) window (prep_values xs) (length xs)).2.

(** *** The two indicators *)

(** The columns [SMA_short] and [SMA_long] of
    [calculate_moving_averages], and the column [RSI] of [calculate_rsi],
    from the closes. *)
Definition calculate_moving_averages (short_window long_window : Z)
    (close : list float) : exn + list float * list float :=
  match rolling_mean short_window close with
  | inl e => inl e
  | inr sma_short =>
      match rolling_mean long_window close with
      | inl e => inl e
      | inr sma_long => inr (sma_short, sma_long)
      end
  end.

Definition rsi_gain (period : Z) (delta : list float) : exn + list float :=
  rolling_mean period (where_ delta (gt_scalar delta 0) 0).

Definition rsi_loss (period : Z) (delta : list float) : exn + list float :=
  rolling_mean period (neg (where_ delta (lt_scalar delta 0) 0)).

Definition calculate_rsi (period : Z) (close : list float)
    : exn + list float :=
  let delta := diff close in
  match rsi_gain period delta with
  | inl e => inl e
  | inr gain =>
      match rsi_loss period delta with
      | inl e => inl e
      | inr loss =>
          let rs := div gain loss in
          inr (scalar_sub 100 (scalar_div 100 (scalar_add 1 rs)))
      end
  end.

(** *** The rational a finite double stands for *)



End Binary64.

(* ===================================================================== *)
(** ** Tables, the store and the strategy object *)
(* ===================================================================== *)

(** A reference to a table. *)
Abbreviation loc := positive.

(** A table: its number of rows and its named columns. *)
Record DataFrame : Type := mkFrame {
  nrows : nat;
  cols : gmap string column
}.

(** The fields of a [TradingStrategy] instance.  [signals] aliases the
    table returned by [generate_signals]. *)
Record TradingStrategy : Type := mkStrategy {
  short_window : Z;
  long_window : Z;
  signals : option loc;
  portfolio_value : option column
}.

Record world : Type := mkWorld {
  heap : gmap loc DataFrame;
  self : TradingStrategy
}.

Inductive outcome (A : Type) : Type :=
  | Ok (a : A) (w : world)
  | Raise (e : exn) (w : world).

Arguments Ok {A} a w.
Arguments Raise {A} e w.

(** Computations of the program: they read and update the world and may
    raise. *)
Definition M (A : Type) : Type := world → outcome A.

#[global] Instance M_ret : MRet M := λ A a w, Ok a w.

#[global] Instance M_bind : MBind M := λ A B k m w,
  match m w with
  | Ok a w' => k a w'
  | Raise e w' => Raise e w'
  end.

Definition raise {A} (e : exn) : M A := λ w, Raise e w.

Definition lift {A} (r : exn + A) : M A :=
  match r with
  | inl e => raise e
  | inr a => mret a
  end.

Definition final_world {A} (o : outcome A) : world :=
  match o with
  | Ok _ w => w
  | Raise _ w => w
  end.

Module Frame.

Definition set_column (key : string) (c : column) (df : DataFrame) : DataFrame :=
  mkFrame (nrows df) (<[key := c]> (cols df)).

Definition get_frame (l : loc) : M DataFrame := λ w,
  match heap w !! l with
  | Some df => Ok df w
  | None => Raise DanglingReference w
  end.

Definition put_frame (l : loc) (df : DataFrame) : M unit := λ w,
  Ok () (mkWorld (<[l := df]> (heap w)) (self w)).

(** A new table is stored under a reference the store does not use. *)
Definition alloc (df : DataFrame) : M loc := λ w,
  let l' := fresh (dom (heap w)) in
  Ok l' (mkWorld (<[l' := df]> (heap w)) (self w)).

(** [data.copy()]: a new table with the same contents. *)
Definition copy (l : loc) : M loc :=
  df ← get_frame l;
  alloc df.

(** [data[key]]. *)
Definition getitem (l : loc) (key : string) : M column :=
  df ← get_frame l;
  match cols df !! key with
  | Some c => mret c
  | None => raise (KeyError key)
  end.

(** [data[key] = c] for a series [c]. *)
Definition setitem (l : loc) (key : string) (c : column) : M unit :=
  df ← get_frame l;
  put_frame l (set_column key c df).

(** [data[key] = v] for a scalar [v], broadcast to every row. *)
Definition setitem_scalar (l : loc) (key : string) (v : fval) : M unit :=
  df ← get_frame l;
  put_frame l (set_column key (replicate (nrows df) v) df).

(** [data.loc[mask, key] = v]: the rows selected by [mask] get [v]. *)
Definition loc_setitem (l : loc) (mask : list bool) (key : string) (v : fval)
    : M unit :=
  c ← getitem l key;
  setitem l key (zip_with (λ x (m : bool), if m then v else x) c mask).

End Frame.

Definition get_self : M TradingStrategy := λ w, Ok (self w) w.

Definition set_signals (l : loc) : M unit := λ w,
  let s := self w in
  Ok () (mkWorld (heap w)
           (mkStrategy (short_window s) (long_window s) (Some l) (portfolio_value s))).

Definition set_portfolio_value (c : column) : M unit := λ w,
  let s := self w in
  Ok () (mkWorld (heap w)
           (mkStrategy (short_window s) (long_window s) (signals s) (Some c))).

(** The column [key] of the table an outcome returns. *)
Definition result_column (o : outcome loc) (key : string) : option column :=
  match o with
  | Ok l w => df ← heap w !! l; cols df !! key
  | Raise _ _ => None
  end.

(* ===================================================================== *)
(** ** The methods of [TradingStrategy] *)
(* ===================================================================== *)

(** The dictionary [backtest] returns. *)
Record results : Type := mkResults {
  total_return : fval;
  annual_return : fval;
  annual_volatility : fval;
  sharpe_ratio : fval;
  max_drawdown : fval;
  final_portfolio_value : fval
}.

Module Strategy.

Local Open Scope Qc_scope.

(** [__init__]: the windows are stored as given. *)
Definition init (short_window long_window : Z) : TradingStrategy :=
  mkStrategy short_window long_window None None.

Definition calculate_moving_averages (data : loc) : M loc :=
  data ← Frame.copy data;
  close ← Frame.getitem data "Close";
  this ← get_self;
  sma ← lift (Series.rolling_mean (short_window this) close);
  Frame.setitem data "SMA_short" sma;;
  close ← Frame.getitem data "Close";
  this ← get_self;
  sma ← lift (Series.rolling_mean (long_window this) close);
  Frame.setitem data "SMA_long" sma;;
  mret data.

(** The two trailing averages of [calculate_rsi]. *)
Definition rsi_gain (period : Z) (delta : column) : exn + column :=
  Series.rolling_mean period
    (Series.where_ delta (Series.gt_scalar delta (Fin 0)) (Fin 0)).

Definition rsi_loss (period : Z) (delta : column) : exn + column :=
  Series.rolling_mean period
    (Series.neg (Series.where_ delta (Series.lt_scalar delta (Fin 0)) (Fin 0))).

Definition calculate_rsi (data : loc) (period : Z) : M loc :=
  data ← Frame.copy data;
  close ← Frame.getitem data "Close";
  let delta := Series.diff close in
  gain ← lift (rsi_gain period delta);
  loss ← lift (rsi_loss period delta);
  let rs := Series.div gain loss in
  Frame.setitem data "RSI"
    (Series.scalar_sub (Fin (of_Z 100))
       (Series.scalar_div (Fin (of_Z 100)) (Series.scalar_add (Fin 1) rs)));;
  mret data.

Definition calculate_macd (data : loc) (fast slow signal : Z) : M loc :=
  data ← Frame.copy data;
  close ← Frame.getitem data "Close";
  ema ← lift (Series.ewm_mean fast close);
  Frame.setitem data "EMA_fast" ema;;
  close ← Frame.getitem data "Close";
  ema ← lift (Series.ewm_mean slow close);
  Frame.setitem data "EMA_slow" ema;;
  ema_fast ← Frame.getitem data "EMA_fast";
  ema_slow ← Frame.getitem data "EMA_slow";
  Frame.setitem data "MACD" (Series.sub ema_fast ema_slow);;
  macd ← Frame.getitem data "MACD";
  line ← lift (Series.ewm_mean signal macd);
  Frame.setitem data "Signal_line" line;;
  macd ← Frame.getitem data "MACD";
  line ← Frame.getitem data "Signal_line";
  Frame.setitem data "MACD_hist" (Series.sub macd line);;
  mret data.

Definition generate_signals (data : loc) : M loc :=
  data ← Frame.copy data;
  Frame.setitem_scalar data "Signal" (Fin 0);;
  Frame.setitem_scalar data "Position" (Fin 0);;
  sma_short ← Frame.getitem data "SMA_short";
  sma_long ← Frame.getitem data "SMA_long";
  Frame.loc_setitem data (Series.gt sma_short sma_long) "Signal" (Fin 1);;
  sma_short ← Frame.getitem data "SMA_short";
  sma_long ← Frame.getitem data "SMA_long";
  Frame.loc_setitem data (Series.le sma_short sma_long) "Signal" (Fin (- (1)));;
  signal ← Frame.getitem data "Signal";
  Frame.setitem data "Position" (Series.diff signal);;
  set_signals data;;
  mret data.

Section Sqrt.

Variable qsqrt : Qc → fval.

Definition calculate_bollinger_bands (data : loc) (period : Z) (std_dev : Qc)
    : M loc :=
  data ← Frame.copy data;
  close ← Frame.getitem data "Close";
  middle ← lift (Series.rolling_mean period close);
  Frame.setitem data "BB_middle" middle;;
  close ← Frame.getitem data "Close";
  bb_std ← lift (Series.rolling_std qsqrt period close);
  middle ← Frame.getitem data "BB_middle";
  Frame.setitem data "BB_upper"
    (Series.add middle (Series.mul_scalar bb_std (Fin std_dev)));;
  middle ← Frame.getitem data "BB_middle";
  Frame.setitem data "BB_lower"
    (Series.sub middle (Series.mul_scalar bb_std (Fin std_dev)));;
  mret data.

Definition backtest (data : loc) (initial_capital : Qc) : M results :=
  data ← Frame.copy data;
  Frame.setitem_scalar data "Portfolio_value" (Fin initial_capital);;
  close ← Frame.getitem data "Close";
  Frame.setitem data "Returns" (Series.pct_change close);;
  signal ← Frame.getitem data "Signal";
  returns ← Frame.getitem data "Returns";
  Frame.setitem data "Strategy_returns"
    (Series.mul (Series.shift1 signal) returns);;
  strategy_returns ← Frame.getitem data "Strategy_returns";
  Frame.setitem data "Cumulative_returns"
    (Series.cumprod (Series.scalar_add (Fin 1) strategy_returns));;
  cumulative ← Frame.getitem data "Cumulative_returns";
  Frame.setitem data "Portfolio_value"
    (Series.scalar_mul (Fin initial_capital) cumulative);;
  pv ← Frame.getitem data "Portfolio_value";
  set_portfolio_value pv;;
  pv ← Frame.getitem data "Portfolio_value";
  pv_last ← lift (Series.iloc_last pv);
  let total_return :=
    fdiv (fsub pv_last (Fin initial_capital)) (Fin initial_capital) in
  strategy_returns ← Frame.getitem data "Strategy_returns";
  let annual_return := fmul (Series.mean strategy_returns) (Fin (of_Z 252)) in
  strategy_returns ← Frame.getitem data "Strategy_returns";
  let annual_volatility :=
    fmul (Series.std qsqrt strategy_returns) (Series.sqrt qsqrt (Fin (of_Z 252))) in
  let sharpe_ratio :=
    if fgt annual_volatility (Fin 0)
    then fdiv annual_return annual_volatility
    else Fin 0 in
  pv ← Frame.getitem data "Portfolio_value";
  let cummax := Series.expanding_max pv in
  pv ← Frame.getitem data "Portfolio_value";
  let drawdown := Series.div (Series.sub pv cummax) cummax in
  let max_drawdown := Series.min drawdown in
  pv ← Frame.getitem data "Portfolio_value";
  pv_last ← lift (Series.iloc_last pv);
  mret (mkResults total_return annual_return annual_volatility
          sharpe_ratio max_drawdown pv_last).

End Sqrt.

Definition get_trading_signals : M (option loc) :=
  this ← get_self; mret (signals this).

(** [get_performance_metrics]: the cached path and its last value. *)
Definition get_performance_metrics : M (column * fval) :=
  this ← get_self;
  match portfolio_value this with
  | None => raise (ValueError "Backtest not run yet. Call backtest() first.")
  | Some pv =>
      last_value ← lift (Series.iloc_last pv);
      mret (pv, last_value)
  end.

End Strategy.

(* ===================================================================== *)
(** ** Vocabulary of the statements *)
(* ===================================================================== *)

(** A triple over the computations: from a world satisfying [P], a normal
    return satisfies [Q] and a raise leaves a world satisfying [E]. *)
Definition triple {A} (P : world → Prop) (m : M A)
    (Q : A → world → Prop) (E : world → Prop) : Prop :=
  ∀ w, P w →
    match m w with
    | Ok a w' => Q a w'
    | Raise _ w' => E w'
    end.

(** Every table of the snapshot [h0] is still stored, unchanged. *)
Definition kept (h0 : gmap loc DataFrame) (w : world) : Prop :=
  h0 ⊆ heap w.

(** As [kept], and [l] is a table allocated since the snapshot. *)
Definition working_on (h0 : gmap loc DataFrame) (l : loc) (w : world) : Prop :=
  h0 ⊆ heap w ∧ h0 !! l = None ∧ is_Some (heap w !! l).

(** The stage leaves every table of the caller as it was, whether it
    returns or raises. *)
Definition leaves_tables_unchanged {A} (m : M A) : Prop :=
  ∀ w l df, heap w !! l = Some df → heap (final_world (m w)) !! l = Some df.

(** The table the stage returns did not exist before the call. *)
Definition returns_new_table (m : M loc) : Prop :=
  ∀ w l' w', m w = Ok l' w' → heap w !! l' = None ∧ is_Some (heap w' !! l').

(** Every column of a table has one value per row. *)
Definition wf_frame (df : DataFrame) : Prop :=
  map_Forall (λ _ (c : column), length c = nrows df) (cols df).

(** The [Signal] column the two masked assignments of [generate_signals]
    build from the initial zeros. *)
Definition crossover_signal (n : nat) (sma_short sma_long : column) : column :=
  zip_with (λ x (m : bool), if m then Fin (- (1))%Qc else x)
    (zip_with (λ x (m : bool), if m then Fin 1%Qc else x)
       (replicate n (Fin 0%Qc)) (Series.gt sma_short sma_long))
    (Series.le sma_short sma_long).

(** Its value on one bar. *)
Definition signal_value (a b : fval) : fval :=
  if fle a b then Fin (- (1))%Qc
  else if fgt a b then Fin 1%Qc
  else Fin 0%Qc.

(** Number and sum of the finite values of a window. *)
Fixpoint count_fin (xs : column) : nat :=
  match xs with
  | [] => 0
  | Fin _ :: rest => S (count_fin rest)
  | _ :: rest => count_fin rest
  end.

Fixpoint sum_fin (xs : column) : Qc :=
  match xs with
  | [] => 0%Qc
  | Fin q :: rest => (q + sum_fin rest)%Qc
  | _ :: rest => sum_fin rest
  end.

(** The naive reference for the moving average: the arithmetic mean of the
    [window] prices ending at bar [t] inclusive. *)
Definition qsum (qs : list Qc) : Qc := foldr Qcplus 0%Qc qs.

Definition arithmetic_mean (qs : list Qc) : Qc :=
  (qsum qs / of_nat (length qs))%Qc.

Definition trailing_window (prices : list Qc) (window t : nat) : list Qc :=
  take window (drop (S t - window) prices).

(** A price series: one finite close per bar. *)
Definition close_column (prices : list Qc) : column := Fin <$> prices.

(** [sma] is the moving average of [prices] over [window] bars: undefined
    on the first [window - 1] bars, the arithmetic mean of the trailing
    window afterwards. *)
Definition is_trailing_mean (prices : list Qc) (window : nat) (sma : column) : Prop :=
  length sma = length prices ∧
  ∀ t, t < length prices →
    sma !! t = Some (if bool_decide (t < window - 1) then NaN
                     else Fin (arithmetic_mean (trailing_window prices window t))).

(** [sum_upto f n] is the sum of [f 0 .. f (n - 1)]. *)
Fixpoint sum_upto (f : nat → Qc) (n : nat) : Qc :=
  match n with
  | O => 0%Qc
  | S k => (sum_upto f k + f k)%Qc
  end.

(** The exponentially weighted mean in closed form: the average of
    [xs[0..t]] with weight [(1 - alpha)^i] on the value [i] bars back. *)
Definition ewm_weight_sum (beta : Qc) (t : nat) : Qc :=
  sum_upto (λ i, beta ^ i)%Qc (S t).

Definition ewm_weighted_sum (beta : Qc) (xs : list Qc) (t : nat) : Qc :=
  sum_upto (λ i, beta ^ i * nth (t - i) xs 0)%Qc (S t).

Definition adjusted_ema (alpha : Qc) (xs : list Qc) (t : nat) : Qc :=
  (ewm_weighted_sum (1 - alpha) xs t / ewm_weight_sum (1 - alpha) t)%Qc.

(** The smoothing factor of the specification. *)
Definition smoothing_factor (span : Z) : Qc := (2 / (of_Z span + 1))%Qc.

(** [ema] is the weighted mean of [xs] for [span], bar by bar, and starts
    at the first value. *)
Definition is_adjusted_ema (span : Z) (xs ema : list Qc) : Prop :=
  length ema = length xs ∧
  ema !! 0 = xs !! 0 ∧
  ∀ t, t < length xs →
    ema !! t = Some (adjusted_ema (smoothing_factor span) xs t).

(** The recursion of the specification: [EMA[t] = alpha * x[t] +
    (1 - alpha) * EMA[t-1]]. *)
Definition recursive_ema_step (alpha x previous : Qc) : Qc :=
  (alpha * x + (1 - alpha) * previous)%Qc.

(** The RSI of one bar from its two trailing averages, as the program
    computes it: [100 - 100 / (1 + gain / loss)]. *)
Definition rsi_value (gain loss : fval) : fval :=
  fsub (Fin (of_Z 100)) (fdiv (Fin (of_Z 100)) (fadd (Fin 1%Qc) (fdiv gain loss))).


(** The columns [backtest] derives, as functions of its inputs. *)
Definition strategy_returns (signal close : column) : column :=
  Series.mul (Series.shift1 signal) (Series.pct_change close).

Definition portfolio_path (initial_capital : Qc) (signal close : column) : column :=
  Series.scalar_mul (Fin initial_capital)
    (Series.cumprod (Series.scalar_add (Fin 1%Qc) (strategy_returns signal close))).

Definition drawdown (pv : column) : column :=
  Series.div (Series.sub pv (Series.expanding_max pv)) (Series.expanding_max pv).

(** The compounded growth up to bar [t]: the product of [1 + sr[k]] over
    the bars [k = 1 .. t]. *)
Definition compounded (sr : column) (t : nat) : fval :=
  foldl fmul (Fin 1%Qc) (fadd (Fin 1%Qc) <$> take t (drop 1 sr)).

(** Running maxima of a path of finite values. *)
Definition qmax (a b : Qc) : Qc := if bool_decide (a < b)%Qc then b else a.
Definition qmin (a b : Qc) : Qc := if bool_decide (b < a)%Qc then b else a.

Fixpoint scan_max (cur : Qc) (qs : list Qc) : list Qc :=
  match qs with
  | [] => []
  | q :: rest => qmax cur q :: scan_max (qmax cur q) rest
  end.

Definition running_maxima (qs : list Qc) : list Qc :=
  match qs with
  | [] => []
  | q :: rest => q :: scan_max q rest
  end.

(** The relative distance of each value to the running maximum. *)
Definition relative_drawdowns (qs : list Qc) : list Qc :=
  zip_with (λ q m, (q - m) / m)%Qc qs (running_maxima qs).

(** The path never falls: every value is at most its successor. *)
Definition nondecreasing (qs : list Qc) : Prop :=
  ∀ t a b, qs !! t = Some a → qs !! S t = Some b → (a <= b)%Qc.

(** The first value of the path is positive. *)
Definition starts_positive (qs : list Qc) : Prop :=
  match qs with
  | q :: _ => (0 < q)%Qc
  | [] => False
  end.

(** The value, if any, is one of the listed integers. *)
Definition takes_value_in (ks : list Z) (v : option fval) : Prop :=
  ∃ k, k ∈ ks ∧ v = Some (Fin (of_Z k)).

(** A table holding only the closes of a price series, a world holding
    only that table, and the series of the end-to-end scenario. *)
Definition table_of_prices (prices : list Qc) : DataFrame :=
  mkFrame (length prices) {["Close" := close_column prices]}.

Definition world_of_prices (short_window long_window : Z) (prices : list Qc) : world :=
  mkWorld {[1%positive := table_of_prices prices]}
    (Strategy.init short_window long_window).

Definition example_prices : list Qc := of_Z <$> [100; 102; 101; 105; 107]%Z.

Definition example_world : world := world_of_prices 2 3 example_prices.

(** The table of the scenario once its two averages (windows 2 and 3) are
    computed, and a world holding it. *)
Definition example_averages : DataFrame :=
  mkFrame 5
    (<["SMA_long" := [NaN; NaN; Fin (of_Z 101); Fin (ratio 308 3); Fin (ratio 313 3)]]>
       (<["SMA_short" := [NaN; Fin (of_Z 101); Fin (ratio 203 2); Fin (of_Z 103);
                          Fin (of_Z 106)]]>
          {["Close" := close_column example_prices]})).

Definition example_averages_world : world :=
  mkWorld {[1%positive := example_averages]} (Strategy.init 2 3).

(** The table of the scenario with the signal the pipeline gives it, and
    a world holding it. *)
Definition example_signals : DataFrame :=
  mkFrame 5
    (<["Signal" := [Fin 0; Fin 0; Fin 1; Fin 1; Fin 1]%Qc]>
       {["Close" := close_column example_prices]}).

Definition example_signals_world : world :=
  mkWorld {[1%positive := example_signals]} (Strategy.init 2 3).

(** The same table under a strategy with other windows. *)
Definition signals_world_with (short_window long_window : Z) : world :=
  mkWorld {[1%positive := example_signals]}
    (Strategy.init short_window long_window).

(** A table with closes and signals, and a world holding it. *)
Definition table_of_signals (prices signal : list Qc) : DataFrame :=
  mkFrame (length prices)
    (<["Signal" := close_column signal]> {["Close" := close_column prices]}).

Definition world_of_signals (prices signal : list Qc) : world :=
  mkWorld {[1%positive := table_of_signals prices signal]} (Strategy.init 1 1).

(** Short on both bars while the price doubles. *)
Definition short_doubling_world : world :=
  world_of_signals [of_Z 1; of_Z 2] [of_Z (-1); of_Z (-1)].

(** Long while the price rises from 2 to 3, then short while it triples:
    the portfolio goes from 1000 to 1500 and then to -1500. *)
Definition swing_world : world :=
  world_of_signals [of_Z 2; of_Z 3; of_Z 9] [of_Z 1; of_Z (-1); of_Z (-1)].

(** Short on all bars while the price triples and then halves. *)
Definition short_spike_world : world :=
  world_of_signals [of_Z 2; of_Z 6; of_Z 3] [of_Z (-1); of_Z (-1); of_Z (-1)].

(** The square root rounded down to an integer, for the closed examples:
    it is exact on 0, the only value whose root an example examines. *)
Definition integer_sqrt (q : Qc) : fval :=
  Fin (of_Z (Z.sqrt (Qround.Qfloor (this q)))).

(** The indicator stage followed by the signal stage. *)
Definition signals_pipeline (data : loc) : M loc :=
  data ← Strategy.calculate_moving_averages data;
  Strategy.generate_signals data.

(** *** Vocabulary of the properties beyond the specification *)

(** The computation leaves the field [f] of the strategy object as it
    was, whether it returns or raises. *)
Definition keeps_field {X A} (f : TradingStrategy → X) (m : M A) : Prop :=
  ∀ w, f (self (final_world (m w))) = f (self w).

(** A table after a sequence of column assignments. *)
Definition with_columns (assigned : list (string * column)) (df : DataFrame)
    : DataFrame :=
  foldl (λ d kc, Frame.set_column kc.1 kc.2 d) df assigned.

(** The call raises [e] and leaves the strategy object as it was. *)
Definition fails_with {A} (m : M A) (w : world) (e : exn) : Prop :=
  ∃ w', m w = Raise e w' ∧ self w' = self w.

(** The [RSI] column from the two trailing averages:
    [100 - 100 / (1 + gain / loss)]. *)
Definition rsi_column (gain loss : column) : column :=
  Series.scalar_sub (Fin (of_Z 100))
    (Series.scalar_div (Fin (of_Z 100))
       (Series.scalar_add (Fin 1%Qc) (Series.div gain loss))).

(** The dictionary [backtest] returns, as a function of the two columns
    it reads and of the last portfolio value. *)
Definition backtest_results (qsqrt : Qc → fval) (initial_capital : Qc)
    (signal close : column) (pv_last : fval) : results :=
  let sr := strategy_returns signal close in
  let annual_return := fmul (Series.mean sr) (Fin (of_Z 252)) in
  let annual_volatility :=
    fmul (Series.std qsqrt sr) (Series.sqrt qsqrt (Fin (of_Z 252))) in
  mkResults
    (fdiv (fsub pv_last (Fin initial_capital)) (Fin initial_capital))
    annual_return annual_volatility
    (if fgt annual_volatility (Fin 0%Qc)
     then fdiv annual_return annual_volatility else Fin 0%Qc)
    (Series.min (drawdown (portfolio_path initial_capital signal close)))
    pv_last.

(** A world holding one table, with the default windows. *)
Definition world_of_table (df : DataFrame) : world :=
  mkWorld {[1%positive := df]} (Strategy.init 20 50).

(** Two bars of opening prices and no closes. *)
Definition table_without_close : DataFrame :=
  mkFrame 2 {["Open" := close_column [of_Z 10; of_Z 11]]}.

(** Closes and signals without a single bar. *)
Definition table_without_rows : DataFrame :=
  mkFrame 0 (<["Signal" := []]> {["Close" := []]}).

(** Two bars of closes with a short average and no long one. *)
Definition table_with_short_average : DataFrame :=
  mkFrame 2
    (<["SMA_short" := [Fin (of_Z 10); Fin (of_Z 11)]]>
       {["Close" := close_column [of_Z 10; of_Z 11]]}).

(** The two errors the accessors and [iloc[-1]] raise. *)
Definition out_of_bounds : exn :=
  IndexError "single positional indexer is out-of-bounds".

Definition backtest_not_run : exn :=
  ValueError "Backtest not run yet. Call backtest() first.".

(** The four indicator calculations as one family of calls. *)
Inductive indicator : Type :=
  | MovingAverages
  | Rsi (period : Z)
  | Macd (fast slow signal : Z)
  | BollingerBands (period : Z) (std_dev : Qc).

Definition run_indicator (qsqrt : Qc → fval) (i : indicator) (data : loc) : M loc :=
  match i with
  | MovingAverages => Strategy.calculate_moving_averages data
  | Rsi period => Strategy.calculate_rsi data period
  | Macd fast slow signal => Strategy.calculate_macd data fast slow signal
  | BollingerBands period std_dev =>
      Strategy.calculate_bollinger_bands qsqrt data period std_dev
  end.

(** The columns each calculation assigns. *)
Definition indicator_keys (i : indicator) : list string :=
  match i with
  | MovingAverages => ["SMA_short"; "SMA_long"]
  | Rsi _ => ["RSI"]
  | Macd _ _ _ => ["EMA_fast"; "EMA_slow"; "MACD"; "Signal_line"; "MACD_hist"]
  | BollingerBands _ _ => ["BB_middle"; "BB_upper"; "BB_lower"]
  end.

Definition same_kind (i j : indicator) : bool :=
  match i, j with
  | MovingAverages, MovingAverages => true
  | Rsi _, Rsi _ => true
  | Macd _ _ _, Macd _ _ _ => true
  | BollingerBands _ _, BollingerBands _ _ => true
  | _, _ => false
  end.

(** A window or period the rolling aggregations accept: at least 0 and
    fitting a signed 64-bit integer. *)
Definition valid_window (window : Z) : Prop :=
  (0 ≤ window ∧ window < Series.int64_limit)%Z.

(** The parameters the windowing operations accept: a window within its
    bounds, a span of at least 1. *)
Definition valid_parameters (this : TradingStrategy) (i : indicator) : Prop :=
  match i with
  | MovingAverages =>
      valid_window (short_window this) ∧ valid_window (long_window this)
  | Rsi period => valid_window period
  | Macd fast slow signal => (1 ≤ fast ∧ 1 ≤ slow ∧ 1 ≤ signal)%Z
  | BollingerBands period _ => valid_window period
  end.

(** The error a window or period is refused with, and the one a span is
    refused with. *)
Definition window_error (window : Z) : option exn :=
  if (window <? 0)%Z
  then Some (ValueError "window must be an integer 0 or greater")
  else if (Series.int64_limit <=? window)%Z then Some OverflowError
  else None.

Definition span_error (span : Z) : option exn :=
  if (span <? 1)%Z then Some (ValueError "span must satisfy: span >= 1")
  else None.

(** The first error of a list of checks made in order. *)
Fixpoint first_error (checks : list (option exn)) : option exn :=
  match checks with
  | [] => None
  | Some e :: _ => Some e
  | None :: rest => first_error rest
  end.

(** The parameters of a calculation in the order the program uses them,
    each with the error it is refused with. *)
Definition parameter_error (this : TradingStrategy) (i : indicator)
    : option exn :=
  match i with
  | MovingAverages =>
      first_error [window_error (short_window this);
                   window_error (long_window this)]
  | Rsi period => window_error period
  | Macd fast slow signal =>
      first_error [span_error fast; span_error slow; span_error signal]
  | BollingerBands period _ => window_error period
  end.

(** The spans of a calculation are machine-sized integers. *)
Definition spans_fit (i : indicator) : Prop :=
  match i with
  | Macd fast slow signal =>
      (fast < Series.int64_limit ∧ slow < Series.int64_limit ∧
       signal < Series.int64_limit)%Z
  | _ => True
  end.

(** The columns of a calculation that come from a rolling window, each
    with its window. *)
Definition windowed_columns (this : TradingStrategy) (i : indicator)
    : list (string * Z) :=
  match i with
  | MovingAverages =>
      [("SMA_short", short_window this); ("SMA_long", long_window this)]
  | Rsi period => [("RSI", period)]
  | Macd _ _ _ => []
  | BollingerBands period _ =>
      [("BB_middle", period); ("BB_upper", period); ("BB_lower", period)]
  end.

(** Two fallible results in the order the program computes them. *)
Definition both {A B} (x : exn + A) (y : exn + B) : exn + A * B :=
  match x, y with
  | inl e, _ => inl e
  | inr _, inl e => inl e
  | inr a, inr b => inr (a, b)
  end.

(** The assignments of an indicator calculation, from the closes, in
    program order; the error of the first operation that raises. *)
Definition indicator_columns (qsqrt : Qc → fval) (this : TradingStrategy)
    (i : indicator) (close : column) : exn + list (string * column) :=
  match i with
  | MovingAverages =>
      match both (Series.rolling_mean (short_window this) close)
                 (Series.rolling_mean (long_window this) close) with
      | inl e => inl e
      | inr (s1, s2) => inr [("SMA_short", s1); ("SMA_long", s2)]
      end
  | Rsi period =>
      match both (Strategy.rsi_gain period (Series.diff close))
                 (Strategy.rsi_loss period (Series.diff close)) with
      | inl e => inl e
      | inr (gain, loss) => inr [("RSI", rsi_column gain loss)]
      end
  | Macd fast slow signal =>
      match both (Series.ewm_mean fast close) (Series.ewm_mean slow close) with
      | inl e => inl e
      | inr (ef, es) =>
          match Series.ewm_mean signal (Series.sub ef es) with
          | inl e => inl e
          | inr line =>
              inr [("EMA_fast", ef); ("EMA_slow", es); ("MACD", Series.sub ef es);
                   ("Signal_line", line);
                   ("MACD_hist", Series.sub (Series.sub ef es) line)]
          end
      end
  | BollingerBands period std_dev =>
      match both (Series.rolling_mean period close)
                 (Series.rolling_std qsqrt period close) with
      | inl e => inl e
      | inr (middle, bb_std) =>
          inr [("BB_middle", middle);
               ("BB_upper", Series.add middle (Series.mul_scalar bb_std (Fin std_dev)));
               ("BB_lower", Series.sub middle (Series.mul_scalar bb_std (Fin std_dev)))]
      end
  end.

(** [df'] has the rows and the columns of [df], except for the columns
    [keys], which it defines; and it is well formed if [df] is. *)
Definition extends_table (keys : list string) (df df' : DataFrame) : Prop :=
  nrows df' = nrows df ∧
  (∀ key, key ∉ keys → cols df' !! key = cols df !! key) ∧
  (∀ key, key ∈ keys → is_Some (cols df' !! key)) ∧
  (wf_frame df → wf_frame df').

(** A stage that returns a table: an indicator calculation or the signal
    generation. *)
Inductive stage : Type :=
  | Indicator (i : indicator)
  | Signals.

Definition run_stage (qsqrt : Qc → fval) (s : stage) (data : loc) : M loc :=
  match s with
  | Indicator i => run_indicator qsqrt i data
  | Signals => Strategy.generate_signals data
  end.

Definition stage_keys (s : stage) : list string :=
  match s with
  | Indicator i => indicator_keys i
  | Signals => ["Signal"; "Position"]
  end.

(** One indicator calculation on the table another one returned. *)
Definition then_indicator (qsqrt : Qc → fval) (i j : indicator) (data : loc)
    : M loc :=
  data ← run_indicator qsqrt i data;
  run_indicator qsqrt j data.

(** The table of the scenario with its signal and its position. *)
Definition example_positions : DataFrame :=
  Frame.set_column "Position" [NaN; Fin 0; Fin 1; Fin 0; Fin 0]%Qc example_signals.


(** The [Cumulative_returns] column of [backtest]. *)
Definition cumulative_returns (signal close : column) : column :=
  Series.cumprod (Series.scalar_add (Fin 1%Qc) (strategy_returns signal close)).


(** Four bars at the same close. *)
Definition flat_prices : list Qc := replicate 4 (of_Z 50).
Definition flat_world : world := world_of_prices 2 3 flat_prices.

(** Indicators, signals and backtest, one after the other. *)
Definition full_pipeline (qsqrt : Qc → fval) (data : loc) (initial_capital : Qc)
    : M results :=
  data ← signals_pipeline data;
  Strategy.backtest qsqrt data initial_capital.






(** The strategy returns of bars 1, 2, ... of a price series with finite
    signals: the signal of the previous bar times the relative change of
    the close. *)
Definition finite_strategy_returns (signal prices : list Qc) : list Qc :=
  zip_with (λ s r, s * r)%Qc signal
    (zip_with (λ c0 c1, (c1 - c0) / c0)%Qc prices (drop 1 prices)).

(* ===================================================================== *)
(** * Properties *)
(* ===================================================================== *)

(** ** The store: copies are fresh and assignments stay on the copy *)

Section Triples.

Context (h0 : gmap loc DataFrame).

Lemma triple_ret {A} (a : A) (Q : A → world → Prop) E :
  triple (Q a) (mret a) Q E.
Proof. intros w Hw. exact Hw. Qed.

Lemma triple_bind {A B} (m : M A) (k : A → M B) P Q R E :
  triple P m Q E →
  (∀ a, triple (Q a) (k a) R E) →
  triple P (m ≫= k) R E.
Proof.
  intros Hm Hk w Hw. unfold mbind, M_bind.
  specialize (Hm w Hw). destruct (m w) as [a w'|e w']; [|exact Hm].
  exact (Hk a w' Hm).
Qed.

Lemma working_on_kept l w : working_on h0 l w → kept h0 w.
Proof. intros [H _]. exact H. Qed.

(** Operations that do not change the world keep any invariant that
    implies the exceptional one. *)
Lemma triple_lift {A} (r : exn + A) (P : world → Prop) E :
  (∀ w, P w → E w) → triple P (lift r) (λ _, P) E.
Proof. intros HPE w Hw. destruct r; simpl; auto. Qed.

Lemma triple_get_self (P : world → Prop) E :
  triple P get_self (λ _, P) E.
Proof. intros w Hw. exact Hw. Qed.

Lemma triple_get_frame l (P : world → Prop) E :
  (∀ w, P w → E w) → triple P (Frame.get_frame l) (λ _, P) E.
Proof.
  intros HPE w Hw. unfold Frame.get_frame. destruct (heap w !! l); auto.
Qed.

Lemma triple_getitem l key (P : world → Prop) E :
  (∀ w, P w → E w) → triple P (Frame.getitem l key) (λ _, P) E.
Proof.
  intros HPE. unfold Frame.getitem.
  eapply triple_bind; [apply triple_get_frame, HPE|].
  intros df w Hw. destruct (cols df !! key); simpl; auto.
Qed.

(** Allocation returns a reference outside the snapshot. *)
Lemma triple_alloc df :
  triple (kept h0) (Frame.alloc df) (working_on h0) (kept h0).
Proof.
  intros w Hw. unfold Frame.alloc, working_on. simpl.
  assert (Hfresh : heap w !! fresh (dom (heap w)) = None)
    by apply not_elem_of_dom, is_fresh.
  assert (Hnone : h0 !! fresh (dom (heap w)) = None)
    by (eapply lookup_weaken_None; eauto).
  split; [|split].
  - apply insert_subseteq_r; assumption.
  - exact Hnone.
  - rewrite lookup_insert_eq. eauto.
Qed.

Lemma triple_copy l :
  triple (kept h0) (Frame.copy l) (working_on h0) (kept h0).
Proof.
  unfold Frame.copy.
  eapply triple_bind; [apply triple_get_frame; auto|].
  intros df. apply triple_alloc.
Qed.

(** Writing to the working table leaves the snapshot alone. *)
Lemma triple_put_frame l df :
  triple (working_on h0 l) (Frame.put_frame l df) (λ _, working_on h0 l) (kept h0).
Proof.
  intros w (Hsub & Hnone & _). unfold Frame.put_frame, working_on. simpl.
  split; [|split].
  - apply insert_subseteq_r; assumption.
  - exact Hnone.
  - rewrite lookup_insert_eq. eauto.
Qed.

Lemma triple_setitem l key c :
  triple (working_on h0 l) (Frame.setitem l key c) (λ _, working_on h0 l) (kept h0).
Proof.
  unfold Frame.setitem.
  eapply triple_bind; [apply triple_get_frame, working_on_kept|].
  intros df. apply triple_put_frame.
Qed.

Lemma triple_setitem_scalar l key v :
  triple (working_on h0 l) (Frame.setitem_scalar l key v)
    (λ _, working_on h0 l) (kept h0).
Proof.
  unfold Frame.setitem_scalar.
  eapply triple_bind; [apply triple_get_frame, working_on_kept|].
  intros df. apply triple_put_frame.
Qed.

Lemma triple_loc_setitem l mask key v :
  triple (working_on h0 l) (Frame.loc_setitem l mask key v)
    (λ _, working_on h0 l) (kept h0).
Proof.
  unfold Frame.loc_setitem.
  eapply triple_bind; [apply triple_getitem, working_on_kept|].
  intros c. apply triple_setitem.
Qed.

Lemma triple_set_signals l l' :
  triple (working_on h0 l) (set_signals l') (λ _, working_on h0 l) (kept h0).
Proof. intros w Hw. exact Hw. Qed.

Lemma triple_set_portfolio_value l c :
  triple (working_on h0 l) (set_portfolio_value c) (λ _, working_on h0 l) (kept h0).
Proof. intros w Hw. exact Hw. Qed.

End Triples.

(** One step of a method body: peel the first operation off a bind. *)
Ltac triple_step :=
  cbv beta;
  lazymatch goal with
  | |- triple _ (mret _) _ _ => apply triple_ret
  | |- triple _ (Frame.copy _ ≫= _) _ _ =>
      eapply triple_bind; [apply triple_copy | intros ?]
  | |- triple _ (Frame.setitem _ _ _ ≫= _) _ _ =>
      eapply triple_bind; [apply triple_setitem | intros ?]
  | |- triple _ (Frame.setitem_scalar _ _ _ ≫= _) _ _ =>
      eapply triple_bind; [apply triple_setitem_scalar | intros ?]
  | |- triple _ (Frame.loc_setitem _ _ _ _ ≫= _) _ _ =>
      eapply triple_bind; [apply triple_loc_setitem | intros ?]
  | |- triple _ (set_signals _ ≫= _) _ _ =>
      eapply triple_bind; [apply triple_set_signals | intros ?]
  | |- triple _ (set_portfolio_value _ ≫= _) _ _ =>
      eapply triple_bind; [apply triple_set_portfolio_value | intros ?]
  | |- triple _ (get_self ≫= _) _ _ =>
      eapply triple_bind; [apply triple_get_self | intros ?]
  | |- triple _ (Frame.getitem _ _ ≫= _) _ _ =>
      eapply triple_bind;
      [apply triple_getitem; apply working_on_kept | intros ?]
  | |- triple _ (lift _ ≫= _) _ _ =>
      eapply triple_bind;
      [apply triple_lift; apply working_on_kept | intros ?]
  end.

Ltac triple_auto := repeat triple_step.

Section StageTriples.

Context (h0 : gmap loc DataFrame) (qsqrt : Qc → fval).

Lemma triple_calculate_moving_averages l :
  triple (kept h0) (Strategy.calculate_moving_averages l)
    (working_on h0) (kept h0).
Proof. unfold Strategy.calculate_moving_averages. triple_auto. Qed.

Lemma triple_calculate_rsi l period :
  triple (kept h0) (Strategy.calculate_rsi l period) (working_on h0) (kept h0).
Proof. unfold Strategy.calculate_rsi. triple_auto. Qed.

Lemma triple_calculate_macd l fast slow signal :
  triple (kept h0) (Strategy.calculate_macd l fast slow signal)
    (working_on h0) (kept h0).
Proof. unfold Strategy.calculate_macd. triple_auto. Qed.

Lemma triple_calculate_bollinger_bands l period std_dev :
  triple (kept h0) (Strategy.calculate_bollinger_bands qsqrt l period std_dev)
    (working_on h0) (kept h0).
Proof. unfold Strategy.calculate_bollinger_bands. triple_auto. Qed.

Lemma triple_generate_signals l :
  triple (kept h0) (Strategy.generate_signals l) (working_on h0) (kept h0).
Proof. unfold Strategy.generate_signals. triple_auto. Qed.

Lemma triple_backtest l initial_capital :
  triple (kept h0) (Strategy.backtest qsqrt l initial_capital)
    (λ _, kept h0) (kept h0).
Proof.
  unfold Strategy.backtest. triple_auto.
  intros w Hw. eapply working_on_kept, Hw.
Qed.

End StageTriples.

Lemma triple_leaves_unchanged {A} (m : M A) (Q : gmap loc DataFrame → A → world → Prop) :
  (∀ h0, triple (kept h0) m (Q h0) (kept h0)) →
  (∀ h0 a w, Q h0 a w → kept h0 w) →
  leaves_tables_unchanged m.
Proof.
  intros Hm HQ w l df Hl.
  specialize (Hm (heap w) w (reflexivity _)).
  destruct (m w) as [a w'|e w']; simpl.
  - apply HQ in Hm. eapply lookup_weaken; eauto.
  - eapply lookup_weaken; eauto.
Qed.

Lemma triple_returns_new (m : M loc) :
  (∀ h0, triple (kept h0) m (working_on h0) (kept h0)) →
  returns_new_table m.
Proof.
  intros Hm w l' w' Hrun.
  specialize (Hm (heap w) w (reflexivity _)). rewrite Hrun in Hm.
  destruct Hm as (_ & Hnone & Hsome). auto.
Qed.

(** ** Running the operations on the working table *)

Lemma run_bind {A B} (m : M A) (k : A → M B) w :
  (m ≫= k) w = match m w with
               | Ok a w' => k a w'
               | Raise e w' => Raise e w'
               end.
Proof. reflexivity. Qed.

Lemma run_copy l w df :
  heap w !! l = Some df →
  Frame.copy l w =
    Ok (fresh (dom (heap w)))
       (mkWorld (<[fresh (dom (heap w)) := df]> (heap w)) (self w)).
Proof.
  intros Hl. unfold Frame.copy. rewrite run_bind.
  unfold Frame.get_frame. rewrite Hl. reflexivity.
Qed.

Section RunOnWorkingTable.

Context (l : loc) (df : DataFrame) (h : gmap loc DataFrame) (s : TradingStrategy).

Lemma run_get_frame :
  Frame.get_frame l (mkWorld (<[l := df]> h) s) = Ok df (mkWorld (<[l := df]> h) s).
Proof. unfold Frame.get_frame. simpl. rewrite lookup_insert_eq. reflexivity. Qed.

Lemma run_getitem key c :
  cols df !! key = Some c →
  Frame.getitem l key (mkWorld (<[l := df]> h) s) = Ok c (mkWorld (<[l := df]> h) s).
Proof.
  intros Hc. unfold Frame.getitem. rewrite run_bind, run_get_frame, Hc.
  reflexivity.
Qed.

Lemma run_setitem key c :
  Frame.setitem l key c (mkWorld (<[l := df]> h) s)
  = Ok () (mkWorld (<[l := Frame.set_column key c df]> h) s).
Proof.
  unfold Frame.setitem. rewrite run_bind, run_get_frame.
  unfold Frame.put_frame. simpl. rewrite insert_insert_eq. reflexivity.
Qed.

Lemma run_setitem_scalar key v :
  Frame.setitem_scalar l key v (mkWorld (<[l := df]> h) s)
  = Ok () (mkWorld (<[l := Frame.set_column key (replicate (nrows df) v) df]> h) s).
Proof.
  unfold Frame.setitem_scalar. rewrite run_bind, run_get_frame.
  unfold Frame.put_frame. simpl. rewrite insert_insert_eq. reflexivity.
Qed.

Lemma run_loc_setitem mask key v c :
  cols df !! key = Some c →
  Frame.loc_setitem l mask key v (mkWorld (<[l := df]> h) s)
  = Ok () (mkWorld
             (<[l := Frame.set_column key
                       (zip_with (λ x (m : bool), if m then v else x) c mask) df]> h) s).
Proof.
  intros Hc. unfold Frame.loc_setitem.
  rewrite run_bind, (run_getitem _ _ Hc). apply run_setitem.
Qed.

End RunOnWorkingTable.

Lemma lookup_set_column_eq key c df :
  cols (Frame.set_column key c df) !! key = Some c.
Proof. apply lookup_insert_eq. Qed.

Lemma lookup_set_column_ne key key' c df :
  key ≠ key' →
  cols (Frame.set_column key c df) !! key' = cols df !! key'.
Proof. intros Hne. simpl. apply lookup_insert_ne, Hne. Qed.

(** Resolve the lookup of a column in a table built by assignments. *)
Ltac solve_column :=
  repeat first
    [ rewrite lookup_set_column_eq
    | rewrite lookup_set_column_ne by discriminate ];
  first [ reflexivity | eassumption ].

(** Execute the first operation of a method body on the working table. *)
Ltac run_step :=
  rewrite run_bind;
  first
    [ rewrite run_setitem
    | rewrite run_setitem_scalar
    | erewrite run_loc_setitem by solve_column
    | erewrite run_getitem by solve_column
    | erewrite run_copy by eassumption
    | progress (unfold get_self, set_signals, set_portfolio_value; simpl) ].

(** ** Pointwise behaviour of the series operations *)

Section SeriesLemmas.

Implicit Types xs ys : column.

Lemma length_shift1 xs : length (Series.shift1 xs) = length xs.
Proof. unfold Series.shift1. rewrite length_take. simpl. lia. Qed.

Lemma lookup_shift1_0 xs : xs ≠ [] → Series.shift1 xs !! 0 = Some NaN.
Proof. destruct xs; [congruence|]. reflexivity. Qed.

Lemma lookup_shift1_S xs t :
  S t < length xs → Series.shift1 xs !! S t = xs !! t.
Proof.
  intros Ht. unfold Series.shift1. rewrite lookup_take_lt by lia. reflexivity.
Qed.

Lemma length_diff xs : length (Series.diff xs) = length xs.
Proof.
  unfold Series.diff, Series.sub. rewrite length_zip_with, length_shift1. lia.
Qed.

Lemma lookup_diff_0 xs : xs ≠ [] → Series.diff xs !! 0 = Some NaN.
Proof.
  intros Hne. unfold Series.diff, Series.sub.
  rewrite lookup_zip_with, (lookup_shift1_0 _ Hne).
  destruct xs as [|x xs']; [congruence|]. simpl. destruct x; reflexivity.
Qed.

Lemma lookup_diff_S xs t a b :
  xs !! t = Some a → xs !! S t = Some b →
  Series.diff xs !! S t = Some (fsub b a).
Proof.
  intros Ha Hb. unfold Series.diff, Series.sub.
  rewrite lookup_zip_with, Hb. simpl.
  rewrite lookup_shift1_S by (apply lookup_lt_Some in Hb; exact Hb).
  rewrite Ha. reflexivity.
Qed.

End SeriesLemmas.

(** ** [generate_signals] *)

Lemma run_generate_signals w l df s g :
  heap w !! l = Some df →
  cols df !! "SMA_short" = Some s →
  cols df !! "SMA_long" = Some g →
  ∃ l' w',
    Strategy.generate_signals l w = Ok l' w' ∧
    result_column (Ok l' w') "Signal" = Some (crossover_signal (nrows df) s g) ∧
    result_column (Ok l' w') "Position"
      = Some (Series.diff (crossover_signal (nrows df) s g)) ∧
    signals (self w') = Some l'.
Proof.
  intros Hl Hs Hg. unfold Strategy.generate_signals.
  do 12 run_step.
  eexists _, _. split; [reflexivity|].
  simpl. rewrite lookup_insert_eq. simpl.
  repeat split.
  - rewrite lookup_insert_ne by discriminate. rewrite lookup_insert_eq. reflexivity.
  - rewrite lookup_insert_eq. reflexivity.
Qed.

Section SignalLemmas.

Local Open Scope Qc_scope.

Lemma fle_negb_fgt a b :
  notnan a = true → notnan b = true → fle a b = negb (fgt a b).
Proof.
  destruct a as [| | |p], b as [| | |q]; simpl; try discriminate; try reflexivity.
  intros _ _. unfold fgt. simpl.
  destruct (bool_decide_reflect (p <= q)) as [Hle|Hnle];
    destruct (bool_decide_reflect (q < p)) as [Hlt|Hnlt]; try reflexivity.
  - exfalso. apply Qcle_ngt in Hle. contradiction.
  - exfalso. apply Hnle. apply Qcnot_lt_le. exact Hnlt.
Qed.

Lemma signal_value_defined a b :
  notnan a = true → notnan b = true →
  signal_value a b = if fgt a b then Fin 1 else Fin (- (1)).
Proof.
  intros Ha Hb. unfold signal_value. rewrite (fle_negb_fgt a b Ha Hb).
  destruct (fgt a b); reflexivity.
Qed.

Lemma signal_value_undefined a b :
  a = NaN ∨ b = NaN → signal_value a b = Fin 0.
Proof.
  unfold signal_value, fgt.
  intros [-> | ->]; [destruct b|destruct a]; reflexivity.
Qed.

Lemma signal_value_cases a b :
  signal_value a b = Fin (- (1)) ∨ signal_value a b = Fin 0 ∨ signal_value a b = Fin 1.
Proof.
  unfold signal_value. destruct (fle a b); [auto|]. destruct (fgt a b); auto.
Qed.

Lemma length_crossover_signal n s g :
  length s = n → length g = n → length (crossover_signal n s g) = n.
Proof.
  intros Hs Hg. unfold crossover_signal, Series.gt, Series.le.
  rewrite !length_zip_with, length_replicate. lia.
Qed.

Lemma lookup_crossover_signal n s g t a b :
  (t < n)%nat → s !! t = Some a → g !! t = Some b →
  crossover_signal n s g !! t = Some (signal_value a b).
Proof.
  intros Ht Ha Hb. unfold crossover_signal, Series.gt, Series.le.
  rewrite !lookup_zip_with, lookup_replicate_2 by exact Ht.
  rewrite Ha, Hb. simpl. unfold signal_value.
  destruct (fle a b), (fgt a b); reflexivity.
Qed.

End SignalLemmas.

(** The columns [generate_signals] returns on a well-formed table, bar by
    bar. *)
Lemma generate_signals_columns w l df s g :
  heap w !! l = Some df →
  wf_frame df →
  cols df !! "SMA_short" = Some s →
  cols df !! "SMA_long" = Some g →
  ∃ sig pos,
    result_column (Strategy.generate_signals l w) "Signal" = Some sig ∧
    result_column (Strategy.generate_signals l w) "Position" = Some pos ∧
    pos = Series.diff sig ∧
    length sig = nrows df ∧
    ∀ t a b, s !! t = Some a → g !! t = Some b →
             sig !! t = Some (signal_value a b).
Proof.
  intros Hl Hwf Hs Hg.
  destruct (run_generate_signals w l df s g Hl Hs Hg)
    as (l' & w' & Hrun & Hsig & Hpos & _).
  rewrite Hrun. eexists _, _. split; [exact Hsig|]. split; [exact Hpos|].
  split; [reflexivity|].
  pose proof (Hwf _ _ Hs) as Hls. pose proof (Hwf _ _ Hg) as Hlg.
  simpl in Hls, Hlg.
  split; [apply length_crossover_signal; assumption|].
  intros t a b Ha Hb. apply lookup_crossover_signal; try assumption.
  apply lookup_lt_Some in Ha. lia.
Qed.

(** ** The sliding mean computes the mean of each window *)

Section RollingMean.

Local Open Scope Qc_scope.

Lemma slice_app (xs : column) lo mid hi :
  (lo ≤ mid)%nat → (mid ≤ hi)%nat →
  Series.slice xs lo mid ++ Series.slice xs mid hi = Series.slice xs lo hi.
Proof.
  intros H1 H2. unfold Series.slice.
  replace (drop mid xs) with (drop (mid - lo) (drop lo xs))
    by (rewrite drop_drop; f_equal; lia).
  rewrite take_take_drop. f_equal. lia.
Qed.

Lemma count_fin_app xs ys : count_fin (xs ++ ys) = (count_fin xs + count_fin ys)%nat.
Proof. induction xs as [|[| | |q] xs IH]; simpl; lia. Qed.

Lemma sum_fin_app xs ys : sum_fin (xs ++ ys) = sum_fin xs + sum_fin ys.
Proof.
  induction xs as [|[| | |q] xs IH]; simpl; try rewrite IH; ring.
Qed.

Lemma foldl_add_mean xs c s :
  foldl (λ acc v, Series.add_mean v acc) (c, s) xs
  = ((c + count_fin xs)%nat, s + sum_fin xs).
Proof.
  revert c s. induction xs as [|[| | |q] xs IH]; intros c s; simpl;
    try rewrite IH; f_equal; try lia; ring.
Qed.

Lemma foldl_remove_mean xs c s :
  foldl (λ acc v, Series.remove_mean v acc) (c, s) xs
  = ((c - count_fin xs)%nat, s - sum_fin xs).
Proof.
  revert c s. induction xs as [|[| | |q] xs IH]; intros c s; simpl;
    try rewrite IH; f_equal; try lia; ring.
Qed.

Lemma window_start_mono w i :
  (Series.window_start w i ≤ Series.window_start w (S i))%nat.
Proof. unfold Series.window_start. lia. Qed.

(** The running state after bar [i] describes exactly the window of
    bar [i]. *)
Lemma roll_mean_state w minp values i :
  (Series.roll_mean_upto w minp values (S i)).1
  = (count_fin (Series.slice values (Series.window_start w i) (S i)),
     sum_fin (Series.slice values (Series.window_start w i) (S i))).
Proof.
  induction i as [|i IH].
  - simpl. unfold Series.roll_mean_step.
    rewrite bool_decide_eq_true_2 by (left; reflexivity).
    rewrite foldl_add_mean. f_equal; ring.
  - change (Series.roll_mean_upto w minp values (S (S i)))
      with (let '(st, out) := Series.roll_mean_upto w minp values (S i) in
            let st' := Series.roll_mean_step w values (S i) st in
            (st', out ++ [Series.calc_mean minp st'])).
    destruct (Series.roll_mean_upto w minp values (S i)) as [st out] eqn:E.
    simpl in IH. subst st. simpl.
    unfold Series.roll_mean_step. case_bool_decide as Hfresh.
    + rewrite foldl_add_mean. f_equal; ring.
    + simpl Nat.pred.
      assert (Hlt : (Series.window_start w (S i) < S i)%nat) by lia.
      pose proof (window_start_mono w i) as Hmono.
      rewrite <- (slice_app values (Series.window_start w i)
                    (Series.window_start w (S i)) (S i)) by lia.
      rewrite count_fin_app, sum_fin_app, foldl_remove_mean, foldl_add_mean.
      rewrite <- (slice_app values (Series.window_start w (S i)) (S i) (S (S i)))
        by lia.
      rewrite count_fin_app, sum_fin_app.
      f_equal; [lia | ring].
Qed.

Lemma length_roll_mean_upto w minp values n :
  length (Series.roll_mean_upto w minp values n).2 = n.
Proof.
  induction n as [|n IH]; [reflexivity|]. simpl.
  destruct (Series.roll_mean_upto w minp values n) as [st out].
  simpl in *. rewrite length_app. simpl. lia.
Qed.

Lemma lookup_roll_mean_upto w minp values n t :
  (t < n)%nat →
  (Series.roll_mean_upto w minp values n).2 !! t
  = Some (Series.calc_mean minp (Series.roll_mean_upto w minp values (S t)).1).
Proof.
  induction n as [|n IH]; [lia|]. intros Ht.
  destruct (decide (t = n)) as [->|Hne].
  - pose proof (length_roll_mean_upto w minp values n) as Hlen.
    simpl. destruct (Series.roll_mean_upto w minp values n) as [st out].
    simpl in *. rewrite lookup_app_r by lia.
    rewrite Hlen, Nat.sub_diag. reflexivity.
  - specialize (IH ltac:(lia)).
    pose proof (length_roll_mean_upto w minp values n) as Hlen.
    change (Series.roll_mean_upto w minp values (S n))
      with (let '(st, out) := Series.roll_mean_upto w minp values n in
            let st' := Series.roll_mean_step w values n st in
            (st', out ++ [Series.calc_mean minp st'])).
    destruct (Series.roll_mean_upto w minp values n) as [st out].
    simpl in *. rewrite lookup_app_l by lia. exact IH.
Qed.

(** [rolling(window).mean()] at bar [t]: the mean of the observations of
    the window, when the window holds [window] of them. *)
Lemma lookup_rolling_mean (w : nat) xs t :
  (Z.of_nat w < Series.int64_limit)%Z →
  (t < length xs)%nat →
  ∃ out, Series.rolling_mean (Z.of_nat w) xs = inr out ∧
    length out = length xs ∧
    out !! t = Some
      (let win := Series.slice (Series.prep_values xs) (Series.window_start w t) (S t) in
       Series.calc_mean w (count_fin win, sum_fin win)).
Proof.
  intros Hfit Ht. unfold Series.rolling_mean.
  destruct (Z.ltb_spec (Z.of_nat w) 0) as [Hneg|_]; [lia|].
  destruct (Z.leb_spec Series.int64_limit (Z.of_nat w)) as [Hbig|_]; [lia|].
  rewrite Nat2Z.id. eexists. split; [reflexivity|].
  split; [apply length_roll_mean_upto|].
  rewrite lookup_roll_mean_upto by exact Ht.
  rewrite roll_mean_state. reflexivity.
Qed.

(** A rolling mean that returns had a window within its bounds. *)
Lemma rolling_mean_inr window xs out :
  Series.rolling_mean window xs = inr out →
  valid_window window ∧
  out = (Series.roll_mean_upto (Z.to_nat window) (Z.to_nat window)
           (Series.prep_values xs) (length xs)).2.
Proof.
  unfold Series.rolling_mean, valid_window.
  destruct (Z.ltb_spec window 0); [discriminate|].
  destruct (Z.leb_spec Series.int64_limit window); [discriminate|].
  intros [= <-]. split; [lia|reflexivity].
Qed.

End RollingMean.

(** ** [calculate_moving_averages] *)

Lemma run_lift_inr {A} (r : exn + A) (a : A) w : r = inr a → lift r w = Ok a w.
Proof. intros ->. reflexivity. Qed.

Lemma run_lift_inl {A} (r : exn + A) e w : r = inl e → lift r w = Raise e w.
Proof. intros ->. reflexivity. Qed.


Section TrailingMean.

Local Open Scope Qc_scope.

Lemma prep_values_close prices :
  Series.prep_values (close_column prices) = close_column prices.
Proof.
  unfold Series.prep_values, close_column.
  rewrite <- list_fmap_compose. reflexivity.
Qed.

Lemma slice_close prices lo hi :
  Series.slice (close_column prices) lo hi
  = close_column (take (hi - lo) (drop lo prices)).
Proof. unfold Series.slice, close_column. rewrite fmap_take, fmap_drop. reflexivity. Qed.

Lemma count_fin_close qs : count_fin (close_column qs) = length qs.
Proof. induction qs as [|q qs IH]; simpl; [reflexivity|]. f_equal. exact IH. Qed.

Lemma sum_fin_close qs : sum_fin (close_column qs) = qsum qs.
Proof. induction qs as [|q qs IH]; simpl; [reflexivity|]. f_equal. exact IH. Qed.

(** On a price series, the rolling mean is the naive trailing mean. *)
Lemma rolling_mean_close (w : nat) prices :
  (0 < w)%nat →
  (Z.of_nat w < Series.int64_limit)%Z →
  ∃ sma, Series.rolling_mean (Z.of_nat w) (close_column prices) = inr sma ∧
         is_trailing_mean prices w sma.
Proof.
  intros Hw Hfit. unfold Series.rolling_mean.
  destruct (Z.ltb_spec (Z.of_nat w) 0) as [Hneg|_]; [lia|].
  destruct (Z.leb_spec Series.int64_limit (Z.of_nat w)) as [Hbig|_]; [lia|].
  rewrite Nat2Z.id. eexists. split; [reflexivity|].
  assert (Hlen : length (close_column prices) = length prices)
    by apply length_fmap.
  split; [rewrite length_roll_mean_upto; exact Hlen|].
  intros t Ht.
  rewrite lookup_roll_mean_upto by (rewrite Hlen; exact Ht).
  rewrite roll_mean_state, prep_values_close, slice_close.
  rewrite count_fin_close, sum_fin_close.
  f_equal. unfold Series.calc_mean, Series.window_start. simpl.
  rewrite length_take, length_drop.
  destruct (decide (t < w - 1)%nat) as [Hlead|Hfull].
  - rewrite (bool_decide_eq_true_2 (t < w - 1)%nat) by exact Hlead.
    rewrite bool_decide_eq_false_2 by lia. reflexivity.
  - rewrite (bool_decide_eq_false_2 (t < w - 1)%nat) by exact Hfull.
    rewrite bool_decide_eq_true_2 by lia.
    unfold arithmetic_mean, trailing_window.
    replace (S t - (S t - w))%nat with w by lia.
    rewrite length_take, length_drop. reflexivity.
Qed.

End TrailingMean.

(** Closed equalities between rational constants, and closed decidable
    facts, by evaluation. *)
Ltac qc_compute := repeat f_equal; apply Qc_is_canon; vm_compute; reflexivity.
Ltac by_evaluation := apply (bool_decide_unpack _); vm_compute; exact I.

Section PositionLemmas.

Local Open Scope Qc_scope.

Lemma signal_value_notnan a b : signal_value a b ≠ NaN.
Proof.
  destruct (signal_value_cases a b) as [-> | [-> | ->]]; discriminate.
Qed.

(** The difference of two signal values. *)
Lemma signal_difference_values a b a' b' :
  takes_value_in [-2; -1; 0; 1; 2]%Z
    (Some (fsub (signal_value a' b') (signal_value a b))).
Proof.
  unfold takes_value_in.
  destruct (signal_value_cases a b) as [-> | [-> | ->]];
    destruct (signal_value_cases a' b') as [-> | [-> | ->]]; simpl.
  - exists 0%Z. split; [set_solver|]. qc_compute.
  - exists 1%Z. split; [set_solver|]. qc_compute.
  - exists 2%Z. split; [set_solver|]. qc_compute.
  - exists (-1)%Z. split; [set_solver|]. qc_compute.
  - exists 0%Z. split; [set_solver|]. qc_compute.
  - exists 1%Z. split; [set_solver|]. qc_compute.
  - exists (-2)%Z. split; [set_solver|]. qc_compute.
  - exists (-1)%Z. split; [set_solver|]. qc_compute.
  - exists 0%Z. split; [set_solver|]. qc_compute.
Qed.

Lemma signal_difference_defined a b a' b' :
  notnan a = true → notnan b = true → notnan a' = true → notnan b' = true →
  takes_value_in [-2; 0; 2]%Z
    (Some (fsub (signal_value a' b') (signal_value a b))).
Proof.
  intros Ha Hb Ha' Hb'. unfold takes_value_in.
  rewrite (signal_value_defined a b Ha Hb), (signal_value_defined a' b' Ha' Hb').
  destruct (fgt a b), (fgt a' b'); simpl.
  - exists 0%Z. split; [set_solver|]. qc_compute.
  - exists (-2)%Z. split; [set_solver|]. qc_compute.
  - exists 2%Z. split; [set_solver|]. qc_compute.
  - exists 0%Z. split; [set_solver|]. qc_compute.
Qed.

Lemma fsub_fin_zero_iff p q : fsub (Fin q) (Fin p) = Fin 0 ↔ q = p.
Proof.
  change (fsub (Fin q) (Fin p)) with (Fin (q + - p)). split.
  - intros H.
    apply (f_equal (λ v, match v with Fin x => x | _ => 0 end)) in H.
    transitivity ((q + - p) + p); [ring|]. rewrite H. ring.
  - intros ->. f_equal. ring.
Qed.

Lemma signal_difference_zero_iff a b a' b' :
  fsub (signal_value a' b') (signal_value a b) = Fin 0
  ↔ signal_value a' b' = signal_value a b.
Proof.
  destruct (signal_value_cases a b) as [-> | [-> | ->]];
    destruct (signal_value_cases a' b') as [-> | [-> | ->]];
    rewrite fsub_fin_zero_iff; split; congruence.
Qed.

Lemma foldl_fadd_zeros (xs : column) :
  Forall (λ v, v = Fin 0) xs → foldl fadd (Fin 0) xs = Fin 0.
Proof.
  induction 1 as [|x xs -> _ IH]; [reflexivity|]. simpl.
  replace (0 + 0) with 0 by ring. exact IH.
Qed.

End PositionLemmas.

(** ** The stages and the caller's tables *)

(** C9.  Every stage (the four indicator calculations, signal generation
    and the backtest) leaves every table the caller holds, its input
    included, equal to what it was before the call, whether the stage
    returns or raises; and the table a stage returns is a new one that did
    not exist before the call. *)
Theorem stages_leave_input_unchanged (qsqrt : Qc → fval) (data : loc)
    (period fast slow signal : Z) (std_dev initial_capital : Qc) :
  (leaves_tables_unchanged (Strategy.calculate_moving_averages data) ∧
   returns_new_table (Strategy.calculate_moving_averages data)) ∧
  (leaves_tables_unchanged (Strategy.calculate_rsi data period) ∧
   returns_new_table (Strategy.calculate_rsi data period)) ∧
  (leaves_tables_unchanged (Strategy.calculate_macd data fast slow signal) ∧
   returns_new_table (Strategy.calculate_macd data fast slow signal)) ∧
  (leaves_tables_unchanged
     (Strategy.calculate_bollinger_bands qsqrt data period std_dev) ∧
   returns_new_table
     (Strategy.calculate_bollinger_bands qsqrt data period std_dev)) ∧
  (leaves_tables_unchanged (Strategy.generate_signals data) ∧
   returns_new_table (Strategy.generate_signals data)) ∧
  leaves_tables_unchanged (Strategy.backtest qsqrt data initial_capital).
Proof.
  split_and!.
  - eapply triple_leaves_unchanged;
      [intros h0; apply triple_calculate_moving_averages
      |intros ? ? ?; apply working_on_kept].
  - apply triple_returns_new. intros h0. apply triple_calculate_moving_averages.
  - eapply triple_leaves_unchanged;
      [intros h0; apply triple_calculate_rsi
      |intros ? ? ?; apply working_on_kept].
  - apply triple_returns_new. intros h0. apply triple_calculate_rsi.
  - eapply triple_leaves_unchanged;
      [intros h0; apply triple_calculate_macd
      |intros ? ? ?; apply working_on_kept].
  - apply triple_returns_new. intros h0. apply triple_calculate_macd.
  - eapply triple_leaves_unchanged;
      [intros h0; apply triple_calculate_bollinger_bands
      |intros ? ? ?; apply working_on_kept].
  - apply triple_returns_new. intros h0. apply triple_calculate_bollinger_bands.
  - eapply triple_leaves_unchanged;
      [intros h0; apply triple_generate_signals
      |intros ? ? ?; apply working_on_kept].
  - apply triple_returns_new. intros h0. apply triple_generate_signals.
  - eapply (triple_leaves_unchanged _ (λ h0 _, kept h0));
      [intros h0; apply triple_backtest|auto].
Qed.

(** ** Moving averages *)



Section MovingAverageRounding.

Import PrimFloat.


End MovingAverageRounding.

(** ** Signal and position *)

Section SignalClaims.

Local Open Scope Qc_scope.

(** The end-to-end scenario: closes 100, 102, 101, 105, 107 with windows
    2 and 3. *)
Lemma example_sma_columns :
  result_column (signals_pipeline 1%positive example_world) "SMA_short"
    = cols example_averages !! "SMA_short" ∧
  result_column (signals_pipeline 1%positive example_world) "SMA_long"
    = cols example_averages !! "SMA_long".
Proof. split; by_evaluation. Qed.

Lemma example_signal_column :
  result_column (signals_pipeline 1%positive example_world) "Signal"
  = Some [Fin 0; Fin 0; Fin 1; Fin 1; Fin 1].
Proof. by_evaluation. Qed.

Lemma example_position_column :
  result_column (signals_pipeline 1%positive example_world) "Position"
  = Some [NaN; Fin 0; Fin 1; Fin 0; Fin 0].
Proof. by_evaluation. Qed.

Lemma not_takes_value_in ks v :
  Forall (λ k, v ≠ Some (Fin (of_Z k))) ks → ¬ takes_value_in ks v.
Proof.
  intros Hall (k & Hk & Hv). rewrite Forall_forall in Hall.
  exact (Hall k Hk Hv).
Qed.

(** Each bar of a well-formed table carries both averages. *)
Lemma averages_at df s g t :
  wf_frame df →
  cols df !! "SMA_short" = Some s →
  cols df !! "SMA_long" = Some g →
  (t < nrows df)%nat →
  ∃ a b, s !! t = Some a ∧ g !! t = Some b.
Proof.
  intros Hwf Hs Hg Ht.
  pose proof (Hwf _ _ Hs) as Hls. pose proof (Hwf _ _ Hg) as Hlg.
  simpl in Hls, Hlg.
  destruct (lookup_lt_is_Some_2 s t) as [a Ha]; [lia|].
  destruct (lookup_lt_is_Some_2 g t) as [b Hb]; [lia|].
  eauto.
Qed.

(** C2, as the program has it.  On every bar where both averages are
    defined, [Signal] is +1 if [SMA_short > SMA_long] and -1 otherwise
    (equality gives -1); on every bar where an average is undefined,
    [Signal] is 0.  [Signal] is therefore defined on every bar, and
    [Position] is undefined on the first bar only. *)
Theorem signal_follows_crossover w data df sma_short sma_long :
  heap w !! data = Some df →
  wf_frame df →
  cols df !! "SMA_short" = Some sma_short →
  cols df !! "SMA_long" = Some sma_long →
  ∃ sig pos,
    result_column (Strategy.generate_signals data w) "Signal" = Some sig ∧
    result_column (Strategy.generate_signals data w) "Position" = Some pos ∧
    (∀ t a b, sma_short !! t = Some a → sma_long !! t = Some b →
       (notnan a = true → notnan b = true →
        sig !! t = Some (if fgt a b then Fin 1 else Fin (- (1)))) ∧
       (a = NaN ∨ b = NaN → sig !! t = Some (Fin 0))) ∧
    (∀ t, (t < nrows df)%nat → ∃ v, sig !! t = Some v ∧ v ≠ NaN) ∧
    ((0 < nrows df)%nat → pos !! 0%nat = Some NaN) ∧
    (∀ t, (0 < t < nrows df)%nat → ∃ v, pos !! t = Some v ∧ v ≠ NaN).
Proof.
  intros Hl Hwf Hs Hg.
  destruct (generate_signals_columns w data df _ _ Hl Hwf Hs Hg)
    as (sig & pos & Hsig & Hpos & -> & Hlen & Hval).
  exists sig, (Series.diff sig). split_and!; try assumption.
  - intros t a b Ha Hb. rewrite (Hval t a b Ha Hb). split.
    + intros Hna Hnb. rewrite signal_value_defined by assumption. reflexivity.
    + intros Hnan. rewrite signal_value_undefined by assumption. reflexivity.
  - intros t Ht.
    destruct (averages_at df _ _ t Hwf Hs Hg Ht) as (a & b & Ha & Hb).
    exists (signal_value a b). split; [auto|apply signal_value_notnan].
  - intros Hpos0. apply lookup_diff_0. intros ->. simpl in Hlen. lia.
  - intros t [Ht0 Ht]. destruct t as [|t]; [lia|].
    destruct (averages_at df _ _ t Hwf Hs Hg ltac:(lia)) as (a & b & Ha & Hb).
    destruct (averages_at df _ _ (S t) Hwf Hs Hg Ht) as (a' & b' & Ha' & Hb').
    rewrite (lookup_diff_S sig t _ _ (Hval _ _ _ Ha Hb) (Hval _ _ _ Ha' Hb')).
    eexists. split; [reflexivity|].
    destruct (signal_value_cases a b) as [-> | [-> | ->]];
      destruct (signal_value_cases a' b') as [-> | [-> | ->]]; discriminate.
Qed.

Lemma signal_follows_crossover_witness :
  ∃ sig pos,
    result_column (Strategy.generate_signals 1%positive example_averages_world)
      "Signal" = Some sig ∧
    result_column (Strategy.generate_signals 1%positive example_averages_world)
      "Position" = Some pos ∧
    (∀ t a b,
       [NaN; Fin (of_Z 101); Fin (ratio 203 2); Fin (of_Z 103); Fin (of_Z 106)]
         !! t = Some a →
       [NaN; NaN; Fin (of_Z 101); Fin (ratio 308 3); Fin (ratio 313 3)]
         !! t = Some b →
       (notnan a = true → notnan b = true →
        sig !! t = Some (if fgt a b then Fin 1 else Fin (- (1)))) ∧
       (a = NaN ∨ b = NaN → sig !! t = Some (Fin 0))) ∧
    (∀ t, (t < 5)%nat → ∃ v, sig !! t = Some v ∧ v ≠ NaN) ∧
    ((0 < 5)%nat → pos !! 0%nat = Some NaN) ∧
    (∀ t, (0 < t < 5)%nat → ∃ v, pos !! t = Some v ∧ v ≠ NaN).
Proof.
  apply (signal_follows_crossover example_averages_world 1%positive
           example_averages);
    [reflexivity | by_evaluation | reflexivity | reflexivity].
Defined.

(** C2 as stated fails: on bar 0 of the scenario [SMA_long] is undefined
    and yet [Signal] is the defined value 0. *)
Lemma signal_defined_where_average_undefined :
  ∃ sma_long sig,
    result_column (signals_pipeline 1%positive example_world) "SMA_long"
      = Some sma_long ∧
    result_column (signals_pipeline 1%positive example_world) "Signal"
      = Some sig ∧
    sma_long !! 0%nat = Some NaN ∧
    sig !! 0%nat = Some (Fin 0) ∧
    sig !! 0%nat ≠ Some NaN.
Proof.
  destruct example_sma_columns as [_ Hlong].
  eexists _, _. split; [exact Hlong|]. split; [exact example_signal_column|].
  split; [reflexivity|]. split; [reflexivity|]. discriminate.
Qed.

(** C10.  On each bar where [SMA_short] or [SMA_long] is undefined,
    [generate_signals] sets [Signal] to 0, a value that is neither -1 nor
    +1; and on a bar where both averages are defined that follows such a
    bar, [Position] is that bar's [Signal] minus 0, that is +1 or -1, not
    a value of -2, 0, +2. *)
Theorem leading_bars_have_signal_zero w data df sma_short sma_long :
  heap w !! data = Some df →
  wf_frame df →
  cols df !! "SMA_short" = Some sma_short →
  cols df !! "SMA_long" = Some sma_long →
  ∃ sig pos,
    result_column (Strategy.generate_signals data w) "Signal" = Some sig ∧
    result_column (Strategy.generate_signals data w) "Position" = Some pos ∧
    (∀ t a b, sma_short !! t = Some a → sma_long !! t = Some b →
       a = NaN ∨ b = NaN →
       sig !! t = Some (Fin 0) ∧ Fin 0 ≠ Fin 1 ∧ Fin 0 ≠ Fin (- (1))) ∧
    (∀ t a b a' b',
       sma_short !! t = Some a → sma_long !! t = Some b →
       a = NaN ∨ b = NaN →
       sma_short !! S t = Some a' → sma_long !! S t = Some b' →
       notnan a' = true → notnan b' = true →
       ∃ v, sig !! S t = Some v ∧
            pos !! S t = Some (fsub v (Fin 0)) ∧
            pos !! S t = Some v ∧
            (v = Fin 1 ∨ v = Fin (- (1))) ∧
            ¬ takes_value_in [-2; 0; 2]%Z (pos !! S t)).
Proof.
  intros Hl Hwf Hs Hg.
  destruct (generate_signals_columns w data df _ _ Hl Hwf Hs Hg)
    as (sig & pos & Hsig & Hpos & -> & Hlen & Hval).
  exists sig, (Series.diff sig). split_and!; try assumption.
  - intros t a b Ha Hb Hnan. rewrite (Hval t a b Ha Hb).
    rewrite signal_value_undefined by assumption.
    split_and!; [reflexivity | by_evaluation | by_evaluation].
  - intros t a b a' b' Ha Hb Hnan Ha' Hb' Hna' Hnb'.
    pose proof (Hval _ _ _ Ha Hb) as Hprev.
    pose proof (Hval _ _ _ Ha' Hb') as Hcur.
    rewrite signal_value_undefined in Hprev by assumption.
    rewrite signal_value_defined in Hcur by assumption.
    rewrite (lookup_diff_S sig t _ _ Hprev Hcur), Hcur.
    eexists. split; [reflexivity|].
    destruct (fgt a' b'); simpl.
    + split_and!; [reflexivity | qc_compute | auto |].
      apply not_takes_value_in. by_evaluation.
    + split_and!; [reflexivity | qc_compute | auto |].
      apply not_takes_value_in. by_evaluation.
Qed.

Lemma leading_bars_have_signal_zero_witness :
  ∃ sig pos,
    result_column (Strategy.generate_signals 1%positive example_averages_world)
      "Signal" = Some sig ∧
    result_column (Strategy.generate_signals 1%positive example_averages_world)
      "Position" = Some pos ∧
    (∀ t a b,
       [NaN; Fin (of_Z 101); Fin (ratio 203 2); Fin (of_Z 103); Fin (of_Z 106)]
         !! t = Some a →
       [NaN; NaN; Fin (of_Z 101); Fin (ratio 308 3); Fin (ratio 313 3)]
         !! t = Some b →
       a = NaN ∨ b = NaN →
       sig !! t = Some (Fin 0) ∧ Fin 0 ≠ Fin 1 ∧ Fin 0 ≠ Fin (- (1))) ∧
    (∀ t a b a' b',
       [NaN; Fin (of_Z 101); Fin (ratio 203 2); Fin (of_Z 103); Fin (of_Z 106)]
         !! t = Some a →
       [NaN; NaN; Fin (of_Z 101); Fin (ratio 308 3); Fin (ratio 313 3)]
         !! t = Some b →
       a = NaN ∨ b = NaN →
       [NaN; Fin (of_Z 101); Fin (ratio 203 2); Fin (of_Z 103); Fin (of_Z 106)]
         !! S t = Some a' →
       [NaN; NaN; Fin (of_Z 101); Fin (ratio 308 3); Fin (ratio 313 3)]
         !! S t = Some b' →
       notnan a' = true → notnan b' = true →
       ∃ v, sig !! S t = Some v ∧
            pos !! S t = Some (fsub v (Fin 0)) ∧
            pos !! S t = Some v ∧
            (v = Fin 1 ∨ v = Fin (- (1))) ∧
            ¬ takes_value_in [-2; 0; 2]%Z (pos !! S t)).
Proof.
  apply (leading_bars_have_signal_zero example_averages_world 1%positive
           example_averages);
    [reflexivity | by_evaluation | reflexivity | reflexivity].
Defined.


Lemma slice_singleton (xs : column) k v :
  xs !! k = Some v → Series.slice xs k (S k) = [v].
Proof.
  intros Hk. unfold Series.slice. replace (S k - k)%nat with 1%nat by lia.
  destruct (drop k xs) as [|x rest] eqn:E.
  - apply (f_equal length) in E. rewrite length_drop in E. simpl in E.
    apply lookup_lt_Some in Hk. lia.
  - assert (Hx : drop k xs !! 0%nat = Some x) by (rewrite E; reflexivity).
    rewrite lookup_drop, Nat.add_0_r, Hk in Hx. injection Hx as ->.
    reflexivity.
Qed.

Lemma fsub_fin_chain x m y :
  fadd (fsub (Fin m) (Fin x)) (fsub (Fin y) (Fin m)) = fsub (Fin y) (Fin x).
Proof. simpl. f_equal. ring. Qed.

(** The differences of a column of finite values telescope: their sum over
    the bars [i .. i + d - 1] is the value of the last of these bars minus
    the value of bar [i - 1]. *)
Lemma diff_telescope (sig : column) :
  (∀ t v, sig !! t = Some v → ∃ q, v = Fin q) →
  ∀ d i x y, (1 ≤ i)%nat →
    sig !! (i - 1)%nat = Some x → sig !! (i - 1 + d)%nat = Some y →
    foldl fadd (Fin 0) (Series.slice (Series.diff sig) i (i + d)) = fsub y x.
Proof.
  intros Hfin d. induction d as [|d IH]; intros i x y Hi Hx Hy.
  - rewrite Nat.add_0_r in Hy. rewrite Hx in Hy. injection Hy as <-.
    unfold Series.slice. replace (i + 0 - i)%nat with 0%nat by lia.
    destruct (Hfin _ _ Hx) as [q ->]. simpl. f_equal. ring.
  - destruct (lookup_lt_is_Some_2 sig (i - 1 + d)) as [m Hm];
      [apply lookup_lt_Some in Hy; lia|].
    rewrite <- (slice_app _ i (i + d) (i + S d)) by lia.
    rewrite foldl_app, (IH i x m Hi Hx Hm).
    replace (i + S d)%nat with (S (i + d)) by lia.
    assert (Hd : Series.diff sig !! (i + d)%nat = Some (fsub y m)).
    { replace (i + d)%nat with (S (i - 1 + d)) by lia.
      apply lookup_diff_S; [exact Hm|].
      replace (S (i - 1 + d)) with (i - 1 + S d)%nat by lia. exact Hy. }
    rewrite (slice_singleton _ _ _ Hd). simpl foldl.
    destruct (Hfin _ _ Hx) as [qx ->]. destruct (Hfin _ _ Hm) as [qm ->].
    destruct (Hfin _ _ Hy) as [qy ->]. apply fsub_fin_chain.
Qed.

(** A signal that is +1 or -1. *)
Lemma signal_value_pm1 a b :
  notnan a = true → notnan b = true →
  signal_value a b = Fin 1 ∨ signal_value a b = Fin (- (1)).
Proof.
  intros Ha Hb. rewrite (signal_value_defined a b Ha Hb).
  destruct (fgt a b); auto.
Qed.

(** C6, as the program has it.  For every bar [t >= 1],
    [Position[t] = Signal[t] - Signal[t-1]], a value in -2, -1, 0, +1,
    +2, and in -2, 0, +2 when both averages are defined on bars [t-1] and
    [t]; [Position] is undefined on the first bar; [Position[t]] is
    nonzero exactly where [Signal] differs from the previous bar.  The sum
    of [Position] over a contiguous run of bars is the [Signal] of its
    last bar minus the [Signal] before its first bar; it is 0 over a run
    without change, and 0 over a run from one change to the next, both
    included, when the averages are defined from the bar before the run to
    its end. *)
Theorem position_is_signal_difference w data df sma_short sma_long :
  heap w !! data = Some df →
  wf_frame df →
  cols df !! "SMA_short" = Some sma_short →
  cols df !! "SMA_long" = Some sma_long →
  ∃ sig pos,
    result_column (Strategy.generate_signals data w) "Signal" = Some sig ∧
    result_column (Strategy.generate_signals data w) "Position" = Some pos ∧
    ((0 < nrows df)%nat → pos !! 0%nat = Some NaN) ∧
    (∀ t x y, sig !! t = Some x → sig !! S t = Some y →
       pos !! S t = Some (fsub y x) ∧
       takes_value_in [-2; -1; 0; 1; 2]%Z (pos !! S t) ∧
       (pos !! S t ≠ Some (Fin 0) ↔ y ≠ x)) ∧
    (∀ t a b a' b',
       sma_short !! t = Some a → sma_long !! t = Some b →
       sma_short !! S t = Some a' → sma_long !! S t = Some b' →
       notnan a = true → notnan b = true →
       notnan a' = true → notnan b' = true →
       takes_value_in [-2; 0; 2]%Z (pos !! S t)) ∧
    (∀ i j, (1 ≤ i ≤ j)%nat → (j ≤ nrows df)%nat →
       (∀ t, (i ≤ t < j)%nat → sig !! t = sig !! (t - 1)%nat) →
       foldl fadd (Fin 0) (Series.slice pos i j) = Fin 0) ∧
    (∀ i j x y, (1 ≤ i ≤ S j)%nat →
       sig !! (i - 1)%nat = Some x → sig !! j = Some y →
       foldl fadd (Fin 0) (Series.slice pos i (S j)) = fsub y x) ∧
    (∀ i j, (1 ≤ i < j)%nat → (j < nrows df)%nat →
       (∀ t a b, (i - 1 ≤ t ≤ j)%nat →
          sma_short !! t = Some a → sma_long !! t = Some b →
          notnan a = true ∧ notnan b = true) →
       sig !! i ≠ sig !! (i - 1)%nat →
       (∀ t, (i < t < j)%nat → sig !! t = sig !! (t - 1)%nat) →
       sig !! j ≠ sig !! (j - 1)%nat →
       foldl fadd (Fin 0) (Series.slice pos i (S j)) = Fin 0).
Proof.
  intros Hl Hwf Hs Hg.
  destruct (generate_signals_columns w data df _ _ Hl Hwf Hs Hg)
    as (sig & pos & Hsig & Hpos & -> & Hlen & Hval).
  assert (Hfin : ∀ t v, sig !! t = Some v → ∃ q, v = Fin q).
  { intros t v Hv. pose proof (lookup_lt_Some _ _ _ Hv) as Ht. rewrite Hlen in Ht.
    destruct (averages_at df _ _ t Hwf Hs Hg Ht) as (a & b & Ha & Hb).
    rewrite (Hval _ _ _ Ha Hb) in Hv. injection Hv as <-.
    destruct (signal_value_cases a b) as [-> | [-> | ->]]; eauto. }
  assert (Htele : ∀ i j x y, (1 ≤ i ≤ S j)%nat →
            sig !! (i - 1)%nat = Some x → sig !! j = Some y →
            foldl fadd (Fin 0) (Series.slice (Series.diff sig) i (S j)) = fsub y x).
  { intros i j x y Hij Hx Hy.
    replace (S j) with (i + (S j - i))%nat by lia.
    apply (diff_telescope sig Hfin); [lia|exact Hx|].
    replace (i - 1 + (S j - i))%nat with j by lia. exact Hy. }
  assert (Hstep : ∀ t x y, sig !! t = Some x → sig !! S t = Some y →
            ∃ a b a' b', x = signal_value a b ∧ y = signal_value a' b' ∧
              Series.diff sig !! S t = Some (fsub y x)).
  { intros t x y Hx Hy.
    pose proof (lookup_lt_Some _ _ _ Hy) as Ht. rewrite Hlen in Ht.
    destruct (averages_at df _ _ t Hwf Hs Hg ltac:(lia)) as (a & b & Ha & Hb).
    destruct (averages_at df _ _ (S t) Hwf Hs Hg Ht) as (a' & b' & Ha' & Hb').
    pose proof (Hval _ _ _ Ha Hb) as Hx'. pose proof (Hval _ _ _ Ha' Hb') as Hy'.
    rewrite Hx in Hx'. rewrite Hy in Hy'.
    injection Hx' as ->. injection Hy' as ->.
    exists a, b, a', b'. split_and!; [reflexivity | reflexivity |].
    apply lookup_diff_S; assumption. }
  exists sig, (Series.diff sig). split_and!; try assumption.
  - intros Hpos0. apply lookup_diff_0. intros ->. simpl in Hlen. lia.
  - intros t x y Hx Hy.
    destruct (Hstep t x y Hx Hy) as (a & b & a' & b' & -> & -> & Hd).
    rewrite Hd. split_and!.
    + reflexivity.
    + apply signal_difference_values.
    + rewrite <- signal_difference_zero_iff. split.
      * intros Hne Heq. apply Hne. rewrite Heq. reflexivity.
      * intros Hne Heq. apply Hne. injection Heq as Heq. exact Heq.
  - intros t a b a' b' Ha Hb Ha' Hb' Hna Hnb Hna' Hnb'.
    rewrite (lookup_diff_S sig t _ _ (Hval _ _ _ Ha Hb) (Hval _ _ _ Ha' Hb')).
    apply signal_difference_defined; assumption.
  - intros i j Hij Hj Hconst. apply foldl_fadd_zeros.
    apply Forall_lookup. intros k v Hk. unfold Series.slice in Hk.
    apply lookup_take_Some in Hk as [Hk Hkj].
    rewrite lookup_drop in Hk.
    destruct (i + k)%nat as [|t] eqn:Et; [lia|].
    pose proof (Hconst (S t) ltac:(lia)) as Hsame.
    replace (S t - 1)%nat with t in Hsame by lia.
    destruct (lookup_lt_is_Some_2 sig (S t)) as [y Hy]; [lia|].
    assert (Hx : sig !! t = Some y) by (rewrite <- Hsame; exact Hy).
    destruct (Hstep t y y Hx Hy) as (a & b & a' & b' & Hxa & Hya & Hd).
    rewrite Hd in Hk. injection Hk as <-.
    rewrite Hya at 1. rewrite Hxa. apply signal_difference_zero_iff.
    congruence.
  - intros i j Hij Hj Hdef Hci Hconst Hcj.
    assert (Hpm : ∀ t, (i - 1 ≤ t ≤ j)%nat →
              sig !! t = Some (Fin 1) ∨ sig !! t = Some (Fin (- (1)))).
    { intros t Ht.
      destruct (averages_at df _ _ t Hwf Hs Hg ltac:(lia)) as (a & b & Ha & Hb).
      destruct (Hdef t a b Ht Ha Hb) as [Hna Hnb].
      rewrite (Hval _ _ _ Ha Hb).
      destruct (signal_value_pm1 a b Hna Hnb) as [-> | ->]; auto. }
    assert (Hrun : ∀ d, (i + d < j)%nat → sig !! (i + d)%nat = sig !! i).
    { induction d as [|d IHd]; intros Hd; [rewrite Nat.add_0_r; reflexivity|].
      rewrite (Hconst (i + S d)%nat) by lia.
      replace (i + S d - 1)%nat with (i + d)%nat by lia. apply IHd. lia. }
    assert (Hprev : sig !! (j - 1)%nat = sig !! i).
    { replace (j - 1)%nat with (i + (j - 1 - i))%nat by lia. apply Hrun. lia. }
    rewrite Hprev in Hcj.
    assert (Hsame : sig !! j = sig !! (i - 1)%nat).
    { destruct (Hpm (i - 1)%nat ltac:(lia)) as [E0 | E0];
        destruct (Hpm i ltac:(lia)) as [E1 | E1];
        destruct (Hpm j ltac:(lia)) as [E2 | E2];
        rewrite ?E0, ?E1, ?E2 in *; congruence. }
    destruct (Hpm (i - 1)%nat ltac:(lia)) as [E0 | E0];
      rewrite (Htele i j _ _ ltac:(lia) E0 (eq_trans Hsame E0));
      simpl; f_equal; ring.
Qed.

Lemma position_is_signal_difference_witness :
  ∃ sig pos,
    result_column (Strategy.generate_signals 1%positive example_averages_world)
      "Signal" = Some sig ∧
    result_column (Strategy.generate_signals 1%positive example_averages_world)
      "Position" = Some pos ∧
    ((0 < 5)%nat → pos !! 0%nat = Some NaN) ∧
    (∀ t x y, sig !! t = Some x → sig !! S t = Some y →
       pos !! S t = Some (fsub y x) ∧
       takes_value_in [-2; -1; 0; 1; 2]%Z (pos !! S t) ∧
       (pos !! S t ≠ Some (Fin 0) ↔ y ≠ x)) ∧
    (∀ t a b a' b',
       [NaN; Fin (of_Z 101); Fin (ratio 203 2); Fin (of_Z 103); Fin (of_Z 106)]
         !! t = Some a →
       [NaN; NaN; Fin (of_Z 101); Fin (ratio 308 3); Fin (ratio 313 3)]
         !! t = Some b →
       [NaN; Fin (of_Z 101); Fin (ratio 203 2); Fin (of_Z 103); Fin (of_Z 106)]
         !! S t = Some a' →
       [NaN; NaN; Fin (of_Z 101); Fin (ratio 308 3); Fin (ratio 313 3)]
         !! S t = Some b' →
       notnan a = true → notnan b = true →
       notnan a' = true → notnan b' = true →
       takes_value_in [-2; 0; 2]%Z (pos !! S t)) ∧
    (∀ i j, (1 ≤ i ≤ j)%nat → (j ≤ 5)%nat →
       (∀ t, (i ≤ t < j)%nat → sig !! t = sig !! (t - 1)%nat) →
       foldl fadd (Fin 0) (Series.slice pos i j) = Fin 0) ∧
    (∀ i j x y, (1 ≤ i ≤ S j)%nat →
       sig !! (i - 1)%nat = Some x → sig !! j = Some y →
       foldl fadd (Fin 0) (Series.slice pos i (S j)) = fsub y x) ∧
    (∀ i j, (1 ≤ i < j)%nat → (j < 5)%nat →
       (∀ t a b, (i - 1 ≤ t ≤ j)%nat →
          [NaN; Fin (of_Z 101); Fin (ratio 203 2); Fin (of_Z 103); Fin (of_Z 106)]
            !! t = Some a →
          [NaN; NaN; Fin (of_Z 101); Fin (ratio 308 3); Fin (ratio 313 3)]
            !! t = Some b →
          notnan a = true ∧ notnan b = true) →
       sig !! i ≠ sig !! (i - 1)%nat →
       (∀ t, (i < t < j)%nat → sig !! t = sig !! (t - 1)%nat) →
       sig !! j ≠ sig !! (j - 1)%nat →
       foldl fadd (Fin 0) (Series.slice pos i (S j)) = Fin 0).
Proof.
  apply (position_is_signal_difference example_averages_world 1%positive
           example_averages);
    [reflexivity | by_evaluation | reflexivity | reflexivity].
Defined.

(** C6 as stated fails: on bar 2 of the scenario, the first bar on which
    both averages are defined, [Position] is +1, which is none of -2, 0,
    +2. *)
Lemma position_of_first_defined_bar_is_one :
  ∃ pos,
    result_column (signals_pipeline 1%positive example_world) "Position"
      = Some pos ∧
    pos !! 2%nat = Some (Fin 1) ∧
    ¬ takes_value_in [-2; 0; 2]%Z (pos !! 2%nat).
Proof.
  eexists. split; [exact example_position_column|].
  split; [reflexivity|]. apply not_takes_value_in. by_evaluation.
Qed.

End SignalClaims.

(** ** The exponentially weighted mean *)

Section Ewm.

Local Open Scope Qc_scope.

Lemma Fin_inj p q : Fin p = Fin q → p = q.
Proof.
  intros H. exact (f_equal (λ v, match v with Fin x => x | _ => 0 end) H).
Qed.

Lemma of_Z_le a b : (a ≤ b)%Z → of_Z a <= of_Z b.
Proof.
  intros H. unfold Qcle, of_Z. simpl. rewrite !Qred_correct.
  rewrite <- Zle_Qle. exact H.
Qed.

Lemma of_Z_lt a b : (a < b)%Z → of_Z a < of_Z b.
Proof.
  intros H. unfold Qclt, of_Z. simpl. rewrite !Qred_correct.
  rewrite <- Zlt_Qlt. exact H.
Qed.

Lemma sum_upto_ext f g n :
  (∀ i, (i < n)%nat → f i = g i) → sum_upto f n = sum_upto g n.
Proof.
  induction n as [|n IH]; intros H; cbn [sum_upto]; [reflexivity|].
  rewrite IH by (intros i Hi; apply H; lia). rewrite H by lia. reflexivity.
Qed.

Lemma sum_upto_scale c f n :
  sum_upto (λ i, c * f i) n = c * sum_upto f n.
Proof. induction n as [|n IH]; cbn [sum_upto]; [ring|]. rewrite IH. ring. Qed.

Lemma sum_upto_shift f n :
  sum_upto f (S n) = f 0%nat + sum_upto (λ i, f (S i)) n.
Proof.
  induction n as [|n IH]; [cbn [sum_upto]; ring|].
  change (sum_upto f (S (S n))) with (sum_upto f (S n) + f (S n)).
  rewrite IH. cbn [sum_upto]. ring.
Qed.

Lemma ewm_weight_sum_0 beta : ewm_weight_sum beta 0 = 1.
Proof. unfold ewm_weight_sum. cbn [sum_upto Qcpower]. ring. Qed.

Lemma ewm_weight_sum_S beta t :
  ewm_weight_sum beta (S t) = ewm_weight_sum beta t * beta + 1.
Proof.
  unfold ewm_weight_sum. rewrite (sum_upto_shift _ (S t)).
  rewrite (sum_upto_ext (λ i, beta ^ S i) (λ i, beta * beta ^ i))
    by (intros; reflexivity).
  rewrite sum_upto_scale. cbn [sum_upto Qcpower Nat.sub].
  change (sum_upto (Qcpower beta) t) with (sum_upto (λ i : nat, beta ^ i) t).
  ring.
Qed.

Lemma ewm_weighted_sum_0 beta xs : ewm_weighted_sum beta xs 0 = nth 0 xs 0.
Proof. unfold ewm_weighted_sum. cbn [sum_upto Qcpower Nat.sub]. ring. Qed.

Lemma ewm_weighted_sum_S beta xs t :
  ewm_weighted_sum beta xs (S t)
  = beta * ewm_weighted_sum beta xs t + nth (S t) xs 0.
Proof.
  unfold ewm_weighted_sum. rewrite (sum_upto_shift _ (S t)).
  rewrite (sum_upto_ext (λ i, beta ^ S i * nth (S t - S i) xs 0)
             (λ i, beta * (beta ^ i * nth (t - i) xs 0)))
    by (intros; cbn [Qcpower Nat.sub]; ring).
  rewrite sum_upto_scale. cbn [sum_upto Qcpower Nat.sub]. ring.
Qed.

Lemma ewm_weight_sum_pos beta t : 0 <= beta → 0 < ewm_weight_sum beta t.
Proof.
  intros Hb. induction t as [|t IH].
  - rewrite ewm_weight_sum_0. reflexivity.
  - rewrite ewm_weight_sum_S. apply Qcplus_nonneg_pos; [|reflexivity].
    apply Qcmult_nonneg_nonneg; [|exact Hb]. apply Qclt_le_weak, IH.
Qed.

Lemma adjusted_ema_0 alpha xs : adjusted_ema alpha xs 0 = nth 0 xs 0.
Proof.
  unfold adjusted_ema. rewrite ewm_weight_sum_0, ewm_weighted_sum_0.
  field. discriminate.
Qed.

(** One bar of the loop on finite values, in terms of the weighted sum
    [N] and the weight sum [D] so far. *)
Lemma ewm_step_finite beta N D r n :
  0 < D → 0 <= beta →
  Series.ewm_step beta (Fin (N / D), D, n) (Fin r)
  = (Fin ((beta * N + r) / (D * beta + 1)), D * beta + 1, (n + 1)%nat).
Proof.
  intros HD Hb.
  assert (HD0 : D ≠ 0) by (apply not_eq_sym, Qclt_not_eq, HD).
  assert (HD' : 0 < D * beta + 1).
  { apply Qcplus_nonneg_pos; [|reflexivity].
    apply Qcmult_nonneg_nonneg; [apply Qclt_le_weak, HD|exact Hb]. }
  assert (HD'0 : D * beta + 1 ≠ 0) by (apply not_eq_sym, Qclt_not_eq, HD').
  unfold Series.ewm_step. simpl notnan. cbv iota.
  f_equal. f_equal.
  case_bool_decide as Hne.
  - unfold fmul, fadd, fdiv.
    rewrite bool_decide_eq_false_2 by exact HD'0.
    f_equal. field. split; assumption.
  - f_equal. apply Fin_inj in Hne. subst r. field. split; assumption.
Qed.


Lemma drop_cons_nth (qs : list Qc) n r rest :
  drop n qs = r :: rest → nth n qs 0 = r ∧ drop (S n) qs = rest.
Proof.
  intros H. split.
  - rewrite nth_lookup.
    assert (Hl : drop n qs !! 0%nat = Some r) by (rewrite H; reflexivity).
    rewrite lookup_drop, Nat.add_0_r in Hl. rewrite Hl. reflexivity.
  - replace (S n) with (n + 1)%nat by lia.
    rewrite <- drop_drop, H. reflexivity.
Qed.

(** The loop on a price series yields the closed-form weighted mean. *)
Lemma ewm_loop_finite beta (qs : list Qc) :
  0 <= beta →
  ∀ rest t, drop (S t) qs = rest →
    Series.ewm_loop beta
      (Fin (ewm_weighted_sum beta qs t / ewm_weight_sum beta t),
       ewm_weight_sum beta t, S t)
      (close_column rest)
    = close_column
        ((λ k, ewm_weighted_sum beta qs k / ewm_weight_sum beta k)
           <$> seq (S t) (length rest)).
Proof.
  intros Hb rest. induction rest as [|r rest IH]; intros t Hdrop.
  - reflexivity.
  - destruct (drop_cons_nth _ _ _ _ Hdrop) as [Hnth Hdrop'].
    cbn [close_column fmap list_fmap Series.ewm_loop length seq].
    rewrite ewm_step_finite by (auto using ewm_weight_sum_pos).
    rewrite <- ewm_weight_sum_S.
    replace (beta * ewm_weighted_sum beta qs t + r)
      with (ewm_weighted_sum beta qs (S t))
      by (rewrite ewm_weighted_sum_S, Hnth; reflexivity).
    replace (S t + 1)%nat with (S (S t)) by lia.
    f_equal. apply (IH (S t) Hdrop').
Qed.

Lemma ewm_alpha_smoothing span :
  (1 ≤ span)%Z → Series.ewm_alpha span = smoothing_factor span.
Proof.
  intros Hs. unfold Series.ewm_alpha, Series.ewm_com, smoothing_factor.
  assert (H : 0 < of_Z span + 1).
  { apply Qcplus_nonneg_pos; [|reflexivity]. apply (of_Z_le 0 span). lia. }
  assert (H0 : of_Z span + 1 ≠ 0) by (apply not_eq_sym, Qclt_not_eq, H).
  assert (H2 : (2 : Qc) ≠ 0) by discriminate.
  field. split; [exact H0 | exact H2].
Qed.

Lemma smoothing_complement_nonneg span :
  (1 ≤ span)%Z → 0 <= 1 - smoothing_factor span.
Proof.
  intros Hs. unfold smoothing_factor.
  assert (H : 0 < of_Z span + 1).
  { apply Qcplus_nonneg_pos; [|reflexivity]. apply (of_Z_le 0 span). lia. }
  assert (H0 : of_Z span + 1 ≠ 0) by (apply not_eq_sym, Qclt_not_eq, H).
  replace (1 - 2 / (of_Z span + 1))
    with ((of_Z span - 1) * / (of_Z span + 1)) by (field; exact H0).
  apply Qcmult_nonneg_nonneg; [|apply Qclt_le_weak, Qcinv_pos, H].
  apply (proj1 (Qcle_minus_iff 1 (of_Z span))). apply (of_Z_le 1 span Hs).
Qed.

(** [ewm(span).mean()] on finite values: every bar is defined and is the
    weighted mean in closed form. *)
Lemma ewm_mean_finite span (qs : list Qc) :
  (1 ≤ span)%Z →
  ∃ ema, Series.ewm_mean span (close_column qs) = inr (close_column ema) ∧
         is_adjusted_ema span qs ema.
Proof.
  intros Hs.
  exists (adjusted_ema (smoothing_factor span) qs <$> seq 0 (length qs)).
  split.
  - unfold Series.ewm_mean.
    destruct (Z.ltb_spec span 1) as [?|_]; [lia|].
    rewrite (ewm_alpha_smoothing span Hs), prep_values_close.
    destruct qs as [|q0 rest]; [reflexivity|].
    cbn [close_column fmap list_fmap notnan length seq].
    f_equal. f_equal.
    + unfold Series.ewm_output. simpl. rewrite adjusted_ema_0. reflexivity.
    + pose proof (ewm_loop_finite (1 - smoothing_factor span) (q0 :: rest)
                    (smoothing_complement_nonneg span Hs) rest 0%nat eq_refl)
        as Hloop.
      rewrite ewm_weight_sum_0, ewm_weighted_sum_0 in Hloop.
      simpl nth in Hloop.
      replace (q0 / 1) with q0 in Hloop by (field; discriminate).
      exact Hloop.
  - split; [rewrite length_fmap, length_seq; reflexivity|]. split.
    + destruct qs as [|q0 rest]; [reflexivity|].
      simpl. rewrite adjusted_ema_0. reflexivity.
    + intros t Ht. rewrite list_lookup_fmap, lookup_seq_lt by exact Ht.
      reflexivity.
Qed.

Lemma sub_close (xs ys : list Qc) :
  Series.sub (close_column xs) (close_column ys)
  = close_column (zip_with Qcminus xs ys).
Proof.
  revert ys. induction xs as [|x xs IH]; intros [|y ys]; try reflexivity.
  unfold Series.sub, close_column in *. simpl. f_equal. apply IH.
Qed.


Lemma run_calculate_macd w l df close fast slow signal ef es line :
  heap w !! l = Some df →
  cols df !! "Close" = Some close →
  Series.ewm_mean fast close = inr ef →
  Series.ewm_mean slow close = inr es →
  Series.ewm_mean signal (Series.sub ef es) = inr line →
  ∃ l' w',
    Strategy.calculate_macd l fast slow signal w = Ok l' w' ∧
    result_column (Ok l' w') "EMA_fast" = Some ef ∧
    result_column (Ok l' w') "EMA_slow" = Some es ∧
    result_column (Ok l' w') "MACD" = Some (Series.sub ef es) ∧
    result_column (Ok l' w') "Signal_line" = Some line ∧
    result_column (Ok l' w') "MACD_hist"
      = Some (Series.sub (Series.sub ef es) line).
Proof.
  intros Hl Hc Hf Hs Hline. unfold Strategy.calculate_macd.
  do 2 run_step.
  rewrite run_bind, (run_lift_inr _ _ _ Hf).
  do 2 run_step.
  rewrite run_bind, (run_lift_inr _ _ _ Hs).
  do 5 run_step.
  rewrite run_bind, (run_lift_inr _ _ _ Hline).
  do 4 run_step.
  eexists _, _. split; [reflexivity|].
  simpl. rewrite lookup_insert_eq. simpl.
  split_and!;
    repeat first [ rewrite lookup_insert_eq
                 | rewrite lookup_insert_ne by discriminate ];
    reflexivity.
Qed.

(** C4, as the program has it.  For every price series and spans of at
    least 1, the EMA columns of [calculate_macd] start at the first close
    and are, on every bar [t], the weighted mean of the closes up to [t]
    with weight [(1 - alpha)^i] on the close [i] bars back, where
    [alpha = 2 / (span + 1)]; [Signal_line] is the same weighted mean of
    [MACD] for the span [signal]; [MACD = EMA_fast - EMA_slow] and
    [MACD_hist = MACD - Signal_line]; and every bar of every column is
    defined. *)
Theorem macd_uses_weighted_mean w data df prices fast slow signal :
  heap w !! data = Some df →
  cols df !! "Close" = Some (close_column prices) →
  (1 ≤ fast)%Z → (1 ≤ slow)%Z → (1 ≤ signal)%Z →
  ∃ ema_fast ema_slow line : list Qc,
    let macd := zip_with Qcminus ema_fast ema_slow in
    let run := Strategy.calculate_macd data fast slow signal w in
    result_column run "EMA_fast" = Some (close_column ema_fast) ∧
    result_column run "EMA_slow" = Some (close_column ema_slow) ∧
    result_column run "MACD" = Some (close_column macd) ∧
    result_column run "Signal_line" = Some (close_column line) ∧
    result_column run "MACD_hist"
      = Some (close_column (zip_with Qcminus macd line)) ∧
    is_adjusted_ema fast prices ema_fast ∧
    is_adjusted_ema slow prices ema_slow ∧
    is_adjusted_ema signal macd line.
Proof.
  intros Hl Hc Hf Hs Hg.
  destruct (ewm_mean_finite fast prices Hf) as (ef & Hef & Hfast).
  destruct (ewm_mean_finite slow prices Hs) as (es & Hes & Hslow).
  destruct (ewm_mean_finite signal (zip_with Qcminus ef es) Hg)
    as (line & Hline & Hsig).
  rewrite <- sub_close in Hline.
  destruct (run_calculate_macd w data df _ fast slow signal _ _ _
              Hl Hc Hef Hes Hline)
    as (l' & w' & Hrun & H1 & H2 & H3 & H4 & H5).
  exists ef, es, line. cbv zeta. rewrite Hrun.
  rewrite sub_close in H3. rewrite !sub_close in H5.
  split_and!; assumption.
Qed.

Lemma macd_uses_weighted_mean_witness :
  ∃ ema_fast ema_slow line : list Qc,
    let macd := zip_with Qcminus ema_fast ema_slow in
    let run := Strategy.calculate_macd 1%positive 12 26 9 example_world in
    result_column run "EMA_fast" = Some (close_column ema_fast) ∧
    result_column run "EMA_slow" = Some (close_column ema_slow) ∧
    result_column run "MACD" = Some (close_column macd) ∧
    result_column run "Signal_line" = Some (close_column line) ∧
    result_column run "MACD_hist"
      = Some (close_column (zip_with Qcminus macd line)) ∧
    is_adjusted_ema 12 example_prices ema_fast ∧
    is_adjusted_ema 26 example_prices ema_slow ∧
    is_adjusted_ema 9 macd line.
Proof.
  apply (macd_uses_weighted_mean example_world 1%positive
           (table_of_prices example_prices) example_prices 12 26 9);
    [reflexivity | reflexivity | lia | lia | lia].
Defined.

(** C4 as stated fails.  With closes 1, 2 and span 3 (so [alpha = 1/2]),
    [EMA_fast[1]] is 5/3, whereas the recursion
    [alpha * Close[1] + (1 - alpha) * EMA[0]] gives 3/2; and a span of 0
    raises instead of yielding a column. *)
Lemma ema_differs_from_recursion :
  (∃ ema,
     result_column
       (Strategy.calculate_macd 1%positive 3 5 2
          (world_of_prices 2 3 [of_Z 1; of_Z 2])) "EMA_fast" = Some ema ∧
     ema !! 0%nat = Some (Fin 1) ∧
     ema !! 1%nat = Some (Fin (ratio 5 3)) ∧
     recursive_ema_step (smoothing_factor 3) (of_Z 2) 1 = ratio 3 2 ∧
     ratio 5 3 ≠ ratio 3 2) ∧
  (∃ w',
     Strategy.calculate_macd 1%positive 0 5 2
       (world_of_prices 2 3 [of_Z 1; of_Z 2])
     = Raise (ValueError "span must satisfy: span >= 1") w').
Proof.
  split.
  - exists [Fin 1; Fin (ratio 5 3)].
    split_and!; by_evaluation.
  - eexists. reflexivity.
Qed.

End Ewm.

(** ** The relative strength index *)

Section Rsi.

Local Open Scope Qc_scope.




Lemma of_nat_pos n : (0 < n)%nat → 0 < of_nat n.
Proof. intros H. apply (of_Z_lt 0 (Z.of_nat n)). lia. Qed.

Lemma Qcdiv_nonneg a b : 0 <= a → 0 < b → 0 <= a / b.
Proof.
  intros Ha Hb. apply Qcmult_nonneg_nonneg; [exact Ha|].
  apply Qclt_le_weak, Qcinv_pos, Hb.
Qed.








Lemma fmap_zip_with_compose {A B C D} (g : C → D) (f : A → B → C) xs ys :
  g <$> zip_with f xs ys = zip_with (λ x y, g (f x y)) xs ys.
Proof.
  revert ys. induction xs as [|x xs IH]; intros [|y ys]; simpl; try reflexivity.
  f_equal. apply IH.
Qed.

Lemma run_calculate_rsi w l df close period gain loss :
  heap w !! l = Some df →
  cols df !! "Close" = Some close →
  Strategy.rsi_gain period (Series.diff close) = inr gain →
  Strategy.rsi_loss period (Series.diff close) = inr loss →
  ∃ l' w',
    Strategy.calculate_rsi l period w = Ok l' w' ∧
    result_column (Ok l' w') "RSI"
      = Some (zip_with rsi_value gain loss).
Proof.
  intros Hl Hc Hg Hs. unfold Strategy.calculate_rsi.
  do 2 run_step.
  rewrite run_bind, (run_lift_inr _ _ _ Hg).
  rewrite run_bind, (run_lift_inr _ _ _ Hs).
  run_step.
  eexists _, _. split; [reflexivity|].
  simpl. rewrite lookup_insert_eq. simpl. rewrite lookup_insert_eq.
  f_equal. unfold Series.scalar_sub, Series.scalar_div, Series.scalar_add, Series.div.
  rewrite <- !list_fmap_compose. apply fmap_zip_with_compose.
Qed.


Lemma Some_Fin_inj p q : Some (Fin p) = Some (Fin q) → p = q.
Proof.
  intros H.
  exact (f_equal (λ o, match o with Some (Fin x) => x | _ => 0 end) H).
Qed.

Lemma Qclt_irreflexive x : ¬ x < x.
Proof. intros H. exact (Qclt_not_eq _ _ H eq_refl). Qed.

Lemma rolling_mean_ok period xs :
  valid_window period →
  ∃ out, Series.rolling_mean period xs = inr out ∧ length out = length xs.
Proof.
  intros [Hp Hfit]. unfold Series.rolling_mean.
  destruct (Z.ltb_spec period 0); [lia|].
  destruct (Z.leb_spec Series.int64_limit period); [lia|].
  eexists. split; [reflexivity|]. apply length_roll_mean_upto.
Qed.


Lemma rsi_value_nan_l l : rsi_value NaN l = NaN.
Proof. reflexivity. Qed.

Lemma rsi_value_nan_r g : rsi_value g NaN = NaN.
Proof. destruct g; reflexivity. Qed.



End Rsi.

Section RsiRounding.

Import PrimFloat.


End RsiRounding.

(** ** [backtest] *)

Section Backtest.

Local Open Scope Qc_scope.

Variable qsqrt : Qc → fval.

Lemma run_iloc_last (xs : column) x w :
  last xs = Some x → lift (Series.iloc_last xs) w = Ok x w.
Proof. intros H. unfold Series.iloc_last. rewrite H. reflexivity. Qed.

(** The run of [backtest] on a table with closes and signals and at
    least one bar. *)
Lemma run_backtest w l df close signal ic pv_last :
  heap w !! l = Some df →
  cols df !! "Close" = Some close →
  cols df !! "Signal" = Some signal →
  last (portfolio_path ic signal close) = Some pv_last →
  ∃ res w' table,
    Strategy.backtest qsqrt l ic w = Ok res w' ∧
    heap w' !! fresh (dom (heap w)) = Some table ∧
    cols table !! "Returns" = Some (Series.pct_change close) ∧
    cols table !! "Strategy_returns" = Some (strategy_returns signal close) ∧
    cols table !! "Portfolio_value" = Some (portfolio_path ic signal close) ∧
    portfolio_value (self w') = Some (portfolio_path ic signal close) ∧
    total_return res = fdiv (fsub pv_last (Fin ic)) (Fin ic) ∧
    final_portfolio_value res = pv_last ∧
    max_drawdown res = Series.min (drawdown (portfolio_path ic signal close)).
Proof.
  intros Hl Hc Hs Hlast. unfold Strategy.backtest.
  do 14 run_step.
  rewrite run_bind. erewrite run_iloc_last by exact Hlast.
  do 5 run_step.
  rewrite run_bind. erewrite run_iloc_last by exact Hlast.
  eexists _, _, _. split; [reflexivity|].
  simpl. rewrite lookup_insert_eq.
  split; [reflexivity|]. simpl.
  split_and!;
    repeat first [ rewrite lookup_insert_eq
                 | rewrite lookup_insert_ne by discriminate ];
    reflexivity.
Qed.


(** *** Returns, lagged signal and compounding *)

Lemma length_pct_change xs : length (Series.pct_change xs) = length xs.
Proof.
  unfold Series.pct_change, Series.div.
  rewrite length_fmap, length_zip_with, length_shift1. lia.
Qed.

Lemma lookup_pct_change_0 xs : xs ≠ [] → Series.pct_change xs !! 0%nat = Some NaN.
Proof.
  intros Hne. unfold Series.pct_change, Series.div.
  rewrite list_lookup_fmap, lookup_zip_with, (lookup_shift1_0 _ Hne).
  destruct xs as [|x xs']; [congruence|]. simpl. destruct x; reflexivity.
Qed.

Lemma pct_change_formula c0 c1 :
  fsub (fdiv (Fin c1) (Fin c0)) (Fin 1) = fdiv (fsub (Fin c1) (Fin c0)) (Fin c0).
Proof.
  unfold fsub, fneg. cbn [fadd]. unfold fdiv.
  case_bool_decide as Hz.
  - subst c0. replace (c1 + - 0) with c1 by ring.
    unfold signed_inf. repeat case_bool_decide; reflexivity.
  - cbn [fadd]. f_equal. field. exact Hz.
Qed.

(** Bar [t + 1] of [pct_change] on a price series is
    [(Close[t+1] - Close[t]) / Close[t]]. *)
Lemma lookup_pct_change_S prices t c0 c1 :
  prices !! t = Some c0 → prices !! S t = Some c1 →
  Series.pct_change (close_column prices) !! S t
  = Some (fdiv (fsub (Fin c1) (Fin c0)) (Fin c0)).
Proof.
  intros H0 H1. unfold Series.pct_change, Series.div.
  rewrite list_lookup_fmap, lookup_zip_with.
  rewrite lookup_shift1_S
    by (unfold close_column; rewrite length_fmap;
        apply lookup_lt_Some in H1; exact H1).
  unfold close_column. rewrite !list_lookup_fmap, H0, H1. simpl.
  f_equal. apply pct_change_formula.
Qed.

Lemma length_strategy_returns signal close :
  length signal = length close →
  length (strategy_returns signal close) = length close.
Proof.
  intros H. unfold strategy_returns, Series.mul.
  rewrite length_zip_with, length_shift1, length_pct_change. lia.
Qed.

Lemma lookup_strategy_returns_0 signal close :
  signal ≠ [] → close ≠ [] →
  strategy_returns signal close !! 0%nat = Some NaN.
Proof.
  intros Hs Hc. unfold strategy_returns, Series.mul.
  rewrite lookup_zip_with, (lookup_shift1_0 _ Hs), (lookup_pct_change_0 _ Hc).
  reflexivity.
Qed.

(** The one-bar lag: bar [t + 1] multiplies the signal of bar [t] with
    the return of bar [t + 1]. *)
Lemma lookup_strategy_returns_S signal close t s r :
  signal !! t = Some s → (S t < length signal)%nat →
  Series.pct_change close !! S t = Some r →
  strategy_returns signal close !! S t = Some (fmul s r).
Proof.
  intros Hs Hlen Hr. unfold strategy_returns, Series.mul.
  rewrite lookup_zip_with, lookup_shift1_S by exact Hlen.
  rewrite Hs, Hr. reflexivity.
Qed.

Lemma length_cumprod_from acc xs : length (Series.cumprod_from acc xs) = length xs.
Proof.
  revert acc. induction xs as [|x xs IH]; intros acc; simpl; [reflexivity|].
  destruct (notnan x); simpl; rewrite IH; reflexivity.
Qed.

Lemma lookup_cumprod_from acc xs k :
  (k < length xs)%nat →
  (∀ j y, (j ≤ k)%nat → xs !! j = Some y → notnan y = true) →
  Series.cumprod_from acc xs !! k = Some (foldl fmul acc (take (S k) xs)).
Proof.
  revert acc k. induction xs as [|x xs IH]; intros acc k Hk Hobs;
    [simpl in Hk; lia|].
  assert (Hx : notnan x = true) by (apply (Hobs 0%nat x); [lia|reflexivity]).
  simpl. rewrite Hx. destruct k as [|k]; [reflexivity|].
  simpl. apply IH; [simpl in Hk; lia|].
  intros j y Hj Hy. apply (Hobs (S j) y); [lia|exact Hy].
Qed.

Lemma fadd_one_notnan x : x ≠ NaN → notnan (fadd (Fin 1) x) = true.
Proof. destruct x; [congruence|reflexivity..]. Qed.

(** From bar 1 on, while no strategy return is undefined, the portfolio
    value is the initial capital times the compounded growth. *)
Lemma lookup_portfolio_path ic signal close t :
  (1 ≤ t)%nat → (t < length (strategy_returns signal close))%nat →
  strategy_returns signal close !! 0%nat = Some NaN →
  (∀ k, (1 ≤ k ≤ t)%nat → strategy_returns signal close !! k ≠ Some NaN) →
  portfolio_path ic signal close !! t
  = Some (fmul (Fin ic) (compounded (strategy_returns signal close) t)).
Proof.
  intros Ht Hlen H0 Hdef. unfold portfolio_path, compounded.
  destruct (strategy_returns signal close) as [|x sr] eqn:E;
    [simpl in Hlen; lia|].
  simpl in H0. injection H0 as ->.
  unfold Series.scalar_mul, Series.scalar_add, Series.cumprod.
  rewrite list_lookup_fmap. simpl. destruct t as [|k]; [lia|]. simpl.
  rewrite drop_0.
  rewrite lookup_cumprod_from.
  - simpl. rewrite fmap_take. reflexivity.
  - rewrite length_fmap. simpl in Hlen. lia.
  - intros j y Hj Hy. rewrite list_lookup_fmap in Hy.
    destruct (sr !! j) as [v|] eqn:Ev; [|discriminate].
    injection Hy as <-. apply fadd_one_notnan. intros ->.
    apply (Hdef (S j)); [lia|]. exact Ev.
Qed.

Lemma lookup_portfolio_path_0 ic signal close :
  strategy_returns signal close !! 0%nat = Some NaN →
  portfolio_path ic signal close !! 0%nat = Some NaN.
Proof.
  intros H0. unfold portfolio_path.
  destruct (strategy_returns signal close) as [|x sr]; [discriminate|].
  simpl in H0. injection H0 as ->. reflexivity.
Qed.

Lemma length_portfolio_path ic signal close :
  length (portfolio_path ic signal close)
  = length (strategy_returns signal close).
Proof.
  unfold portfolio_path, Series.scalar_mul, Series.cumprod, Series.scalar_add.
  rewrite length_fmap, length_cumprod_from, length_fmap. reflexivity.
Qed.


(** C1, as the program has it.  On a price series with at least one bar,
    [backtest] computes, for every bar [t >= 1],
    [Return[t] = (Close[t] - Close[t-1]) / Close[t-1]],
    [StrategyReturn[t] = Signal[t-1] * Return[t]] (the signal of the
    previous bar against the return of the current one) and, while the
    strategy returns of bars 1 to [t] are defined,
    [PortfolioValue[t] = initialCapital * prod_{k=1..t} (1 +
    StrategyReturn[k])]; on bar 0 the three columns are undefined; and
    [total_return = (PortfolioValue[last] - initialCapital) /
    initialCapital]. *)
Theorem backtest_formulas w data df prices signal ic :
  heap w !! data = Some df →
  cols df !! "Close" = Some (close_column prices) →
  cols df !! "Signal" = Some signal →
  length signal = length prices →
  (0 < length prices)%nat →
  ∃ res w' table returns sret pv final,
    Strategy.backtest qsqrt data ic w = Ok res w' ∧
    heap w' !! fresh (dom (heap w)) = Some table ∧
    cols table !! "Returns" = Some returns ∧
    cols table !! "Strategy_returns" = Some sret ∧
    cols table !! "Portfolio_value" = Some pv ∧
    portfolio_value (self w') = Some pv ∧
    (returns !! 0%nat = Some NaN ∧ sret !! 0%nat = Some NaN ∧
     pv !! 0%nat = Some NaN) ∧
    (∀ t c0 c1, prices !! t = Some c0 → prices !! S t = Some c1 →
       returns !! S t = Some (fdiv (fsub (Fin c1) (Fin c0)) (Fin c0))) ∧
    (∀ t s r, signal !! t = Some s → returns !! S t = Some r →
       sret !! S t = Some (fmul s r)) ∧
    (∀ t c0 c1 s, prices !! t = Some c0 → prices !! S t = Some c1 →
       c0 ≠ 0 → signal !! t = Some (Fin s) →
       sret !! S t = Some (Fin (s * ((c1 - c0) / c0)))) ∧
    (∀ t, (1 ≤ t < length prices)%nat →
       (∀ k, (1 ≤ k ≤ t)%nat → sret !! k ≠ Some NaN) →
       pv !! t = Some (fmul (Fin ic) (compounded sret t))) ∧
    pv !! (length prices - 1)%nat = Some final ∧
    total_return res = fdiv (fsub final (Fin ic)) (Fin ic) ∧
    final_portfolio_value res = final.
Proof.
  intros Hl Hc Hs Hlen Hn.
  assert (Hclen : length (close_column prices) = length prices)
    by apply length_fmap.
  assert (Hsr : length (strategy_returns signal (close_column prices))
                = length prices)
    by (rewrite length_strategy_returns; congruence).
  assert (Hpv : length (portfolio_path ic signal (close_column prices))
                = length prices)
    by (rewrite length_portfolio_path; exact Hsr).
  assert (Hcne : close_column prices ≠ [])
    by (intros E; rewrite E in Hclen; simpl in Hclen; lia).
  assert (Hsne : signal ≠ [])
    by (intros E; rewrite E in Hlen; simpl in Hlen; lia).
  pose proof (lookup_strategy_returns_0 _ _ Hsne Hcne) as Hsr0.
  destruct (lookup_lt_is_Some_2 (portfolio_path ic signal (close_column prices))
              (length prices - 1)) as [final Hlast]; [lia|].
  assert (Hlast' : last (portfolio_path ic signal (close_column prices)) = Some final)
    by (rewrite last_lookup, Hpv; replace (Nat.pred (length prices))
          with (length prices - 1)%nat by lia; exact Hlast).
  destruct (run_backtest w data df _ _ ic final Hl Hc Hs Hlast')
    as (res & w' & table & Hrun & Htab & Hret & Hsret & Hpvc & Hself
        & Htot & Hfin & _).
  exists res, w', table, (Series.pct_change (close_column prices)),
    (strategy_returns signal (close_column prices)),
    (portfolio_path ic signal (close_column prices)), final.
  split_and!; try assumption.
  - apply lookup_pct_change_0, Hcne.
  - apply lookup_portfolio_path_0, Hsr0.
  - intros t c0 c1. apply lookup_pct_change_S.
  - intros t s r Hst Hr. apply lookup_strategy_returns_S; try assumption.
    apply lookup_lt_Some in Hr. rewrite length_pct_change in Hr. lia.
  - intros t c0 c1 s H0 H1 Hnz Hst.
    pose proof (lookup_pct_change_S prices t c0 c1 H0 H1) as Hr.
    rewrite (lookup_strategy_returns_S _ _ t _ _ Hst) with (2 := Hr)
      by (apply lookup_lt_Some in H1; lia).
    f_equal. unfold fsub, fneg. cbn [fadd]. unfold fdiv.
    rewrite bool_decide_eq_false_2 by exact Hnz. reflexivity.
  - intros t [Ht1 Htn] Hdef. apply lookup_portfolio_path; try assumption. lia.
Qed.

End Backtest.

Lemma backtest_formulas_witness :
  ∃ res w' table returns sret pv final,
    Strategy.backtest integer_sqrt 1%positive (of_Z 1000) example_signals_world
      = Ok res w' ∧
    heap w' !! fresh (dom (heap example_signals_world)) = Some table ∧
    cols table !! "Returns" = Some returns ∧
    cols table !! "Strategy_returns" = Some sret ∧
    cols table !! "Portfolio_value" = Some pv ∧
    portfolio_value (self w') = Some pv ∧
    (returns !! 0%nat = Some NaN ∧ sret !! 0%nat = Some NaN ∧
     pv !! 0%nat = Some NaN) ∧
    (∀ t c0 c1, example_prices !! t = Some c0 → example_prices !! S t = Some c1 →
       returns !! S t = Some (fdiv (fsub (Fin c1) (Fin c0)) (Fin c0))) ∧
    (∀ t s r, [Fin 0; Fin 0; Fin 1; Fin 1; Fin 1]%Qc !! t = Some s →
       returns !! S t = Some r →
       sret !! S t = Some (fmul s r)) ∧
    (∀ t c0 c1 s, example_prices !! t = Some c0 → example_prices !! S t = Some c1 →
       c0 ≠ 0%Qc → [Fin 0; Fin 0; Fin 1; Fin 1; Fin 1]%Qc !! t = Some (Fin s) →
       sret !! S t = Some (Fin (s * ((c1 - c0) / c0))%Qc)) ∧
    (∀ t, (1 ≤ t < length example_prices)%nat →
       (∀ k, (1 ≤ k ≤ t)%nat → sret !! k ≠ Some NaN) →
       pv !! t = Some (fmul (Fin (of_Z 1000)) (compounded sret t))) ∧
    pv !! (length example_prices - 1)%nat = Some final ∧
    total_return res = fdiv (fsub final (Fin (of_Z 1000))) (Fin (of_Z 1000)) ∧
    final_portfolio_value res = final.
Proof.
  apply (backtest_formulas integer_sqrt example_signals_world 1%positive
           example_signals example_prices
           [Fin 0; Fin 0; Fin 1; Fin 1; Fin 1]%Qc (of_Z 1000));
    [reflexivity | reflexivity | reflexivity | reflexivity | simpl; lia].
Defined.

(** ** Maximum drawdown *)

Section Drawdown.

Local Open Scope Qc_scope.

Lemma qmax_ge_l a b : a <= qmax a b.
Proof.
  unfold qmax. case_bool_decide as H; [apply Qclt_le_weak, H|apply Qcle_refl].
Qed.

Lemma qmax_ge_r a b : b <= qmax a b.
Proof.
  unfold qmax. case_bool_decide as H; [apply Qcle_refl|apply Qcnot_lt_le, H].
Qed.

Lemma qmax_cases a b : qmax a b = a ∨ qmax a b = b.
Proof. unfold qmax. case_bool_decide; auto. Qed.

Lemma qmin_le_l a b : qmin a b <= a.
Proof.
  unfold qmin. case_bool_decide as H; [apply Qclt_le_weak, H|apply Qcle_refl].
Qed.

Lemma qmin_le_r a b : qmin a b <= b.
Proof.
  unfold qmin. case_bool_decide as H; [apply Qcle_refl|apply Qcnot_lt_le, H].
Qed.

Lemma qmin_cases a b : qmin a b = a ∨ qmin a b = b.
Proof. unfold qmin. case_bool_decide; auto. Qed.

(** *** The running maximum *)

Lemma length_scan_max cur qs : length (scan_max cur qs) = length qs.
Proof.
  revert cur. induction qs as [|q qs IH]; intros cur; simpl; [reflexivity|].
  rewrite IH. reflexivity.
Qed.

Lemma length_running_maxima qs : length (running_maxima qs) = length qs.
Proof. destruct qs; simpl; [reflexivity|]. rewrite length_scan_max. reflexivity. Qed.

Lemma expanding_max_from_finite cur qs :
  Series.expanding_max_from (Fin cur) (close_column qs)
  = close_column (scan_max cur qs).
Proof.
  revert cur. induction qs as [|q qs IH]; intros cur; [reflexivity|].
  cbn [close_column fmap list_fmap Series.expanding_max_from notnan scan_max].
  assert (Hmax : fmax (Fin cur) (Fin q) = Fin (qmax cur q)).
  { unfold fmax, qmax. simpl. case_bool_decide; reflexivity. }
  rewrite Hmax. f_equal. apply IH.
Qed.

Lemma expanding_max_path qs :
  Series.expanding_max (NaN :: close_column qs)
  = NaN :: close_column (running_maxima qs).
Proof.
  unfold Series.expanding_max.
  change (Series.prep_values (NaN :: close_column qs))
    with (NaN :: Series.prep_values (close_column qs)).
  rewrite prep_values_close.
  destruct qs as [|q qs]; [reflexivity|].
  cbn [close_column fmap list_fmap Series.expanding_max_from notnan running_maxima].
  do 2 f_equal. apply expanding_max_from_finite.
Qed.

(** [scan_max cur qs] at [t] bounds [cur] and [qs[0..t]] and is one of
    them. *)
Lemma scan_max_spec cur qs t M :
  scan_max cur qs !! t = Some M →
  cur <= M ∧
  (∀ k q, (k ≤ t)%nat → qs !! k = Some q → q <= M) ∧
  (M = cur ∨ ∃ k, (k ≤ t)%nat ∧ qs !! k = Some M).
Proof.
  revert cur t. induction qs as [|q qs IH]; intros cur t Ht; [discriminate|].
  destruct t as [|t]; simpl in Ht.
  - injection Ht as <-. split; [apply qmax_ge_l|]. split.
    + intros k q' Hk Hq. assert (k = 0%nat) by lia. subst k.
      injection Hq as <-. apply qmax_ge_r.
    + destruct (qmax_cases cur q) as [-> | ->]; [auto|].
      right. exists 0%nat. split; [lia|reflexivity].
  - destruct (IH _ _ Ht) as (Hcur & Hub & Hatt).
    split; [eapply Qcle_trans; [apply qmax_ge_l|exact Hcur]|]. split.
    + intros k q' Hk Hq. destruct k as [|k].
      * injection Hq as <-. eapply Qcle_trans; [apply qmax_ge_r|exact Hcur].
      * apply (Hub k q'); [lia|exact Hq].
    + destruct Hatt as [-> | (k & Hk & Hq)].
      * destruct (qmax_cases cur q) as [-> | ->]; [auto|].
        right. exists 0%nat. split; [lia|reflexivity].
      * right. exists (S k). split; [lia|exact Hq].
Qed.

(** [RunningMax[t]] is the maximum of the path up to bar [t]. *)
Lemma running_maxima_spec qs t M :
  running_maxima qs !! t = Some M →
  (∀ k q, (k ≤ t)%nat → qs !! k = Some q → q <= M) ∧
  (∃ k, (k ≤ t)%nat ∧ qs !! k = Some M).
Proof.
  destruct qs as [|q0 qs]; [discriminate|]. simpl.
  destruct t as [|t]; simpl; intros Ht.
  - injection Ht as <-. split.
    + intros k q Hk Hq. assert (k = 0%nat) by lia. subst k.
      injection Hq as <-. apply Qcle_refl.
    + exists 0%nat. split; [lia|reflexivity].
  - destruct (scan_max_spec _ _ _ _ Ht) as (Hcur & Hub & Hatt). split.
    + intros k q Hk Hq. destruct k as [|k].
      * injection Hq as <-. exact Hcur.
      * apply (Hub k q); [lia|exact Hq].
    + destruct Hatt as [-> | (k & Hk & Hq)].
      * exists 0%nat. split; [lia|reflexivity].
      * exists (S k). split; [lia|exact Hq].
Qed.


(** A path that starts positive has positive running maxima, whatever
    the sign of its later values. *)
Lemma running_maxima_pos qs t M :
  starts_positive qs → running_maxima qs !! t = Some M → 0 < M.
Proof.
  intros Hpos HM. destruct (running_maxima_spec _ _ _ HM) as [Hub _].
  destruct qs as [|q0 qs]; [contradiction|]. simpl in Hpos.
  eapply Qclt_le_trans; [exact Hpos|].
  apply (Hub 0%nat q0); [lia|reflexivity].
Qed.

(** *** The drawdown column of a path that starts positive *)

Lemma drawdown_path qs :
  starts_positive qs →
  drawdown (NaN :: close_column qs) = NaN :: close_column (relative_drawdowns qs).
Proof.
  intros Hpos. unfold drawdown. rewrite expanding_max_path.
  unfold Series.div, Series.sub. cbn [zip_with]. f_equal.
  apply list_eq. intros t. unfold relative_drawdowns, close_column.
  rewrite !lookup_zip_with, !list_lookup_fmap, lookup_zip_with.
  destruct (qs !! t) as [q|]; [|reflexivity]. simpl.
  destruct (running_maxima qs !! t) as [M|] eqn:EM; [|reflexivity]. simpl.
  pose proof (running_maxima_pos qs t M Hpos EM) as HM.
  f_equal. unfold fdiv.
  rewrite bool_decide_eq_false_2 by (apply not_eq_sym, Qclt_not_eq, HM).
  reflexivity.
Qed.

(** *** The minimum of a column of finite values after an undefined bar *)

Lemma observations_close qs :
  Series.observations (close_column qs) = close_column qs.
Proof.
  unfold Series.observations. induction qs as [|q qs IH]; [reflexivity|].
  simpl. rewrite filter_cons_True by reflexivity. f_equal. exact IH.
Qed.

Lemma foldl_fmin_finite d ds :
  foldl fmin (Fin d) (close_column ds) = Fin (foldl qmin d ds).
Proof.
  revert d. induction ds as [|x ds IH]; intros d; [reflexivity|].
  simpl. assert (Hmin : fmin (Fin d) (Fin x) = Fin (qmin d x)).
  { unfold fmin, qmin. simpl. case_bool_decide; reflexivity. }
  rewrite Hmin. apply IH.
Qed.

Lemma min_path d ds :
  Series.min (NaN :: close_column (d :: ds)) = Fin (foldl qmin d ds).
Proof.
  unfold Series.min, Series.observations.
  rewrite filter_cons_False by (simpl; discriminate).
  fold (Series.observations (close_column (d :: ds))).
  rewrite observations_close. simpl. apply foldl_fmin_finite.
Qed.

Lemma foldl_qmin_le_init d ds : foldl qmin d ds <= d.
Proof.
  revert d. induction ds as [|x ds IH]; intros d; [apply Qcle_refl|].
  simpl. eapply Qcle_trans; [apply IH|apply qmin_le_l].
Qed.

(** The fold is a lower bound of the list and one of its values. *)
Lemma foldl_qmin_spec d ds :
  (∀ t x, (d :: ds) !! t = Some x → foldl qmin d ds <= x) ∧
  (∃ t, (d :: ds) !! t = Some (foldl qmin d ds)).
Proof.
  revert d. induction ds as [|x ds IH]; intros d.
  - split.
    + intros [|t] y Hy; [|discriminate]. injection Hy as <-. apply Qcle_refl.
    + exists 0%nat. reflexivity.
  - simpl. destruct (IH (qmin d x)) as [Hlb (t & Ht)]. split.
    + intros [|[|t']] y Hy.
      * injection Hy as <-.
        eapply Qcle_trans; [apply foldl_qmin_le_init|apply qmin_le_l].
      * injection Hy as <-.
        eapply Qcle_trans; [apply foldl_qmin_le_init|apply qmin_le_r].
      * apply (Hlb (S t') y). exact Hy.
    + destruct t as [|t].
      * simpl in Ht. injection Ht as Ht.
        destruct (qmin_cases d x) as [E|E].
        -- exists 0%nat. simpl. rewrite <- Ht, E. reflexivity.
        -- exists 1%nat. simpl. rewrite <- Ht, E. reflexivity.
      * exists (S (S t)). exact Ht.
Qed.


(** *** Sign of the drawdowns *)

Lemma relative_drawdown_nonpos q M : q <= M → 0 < M → (q - M) / M <= 0.
Proof.
  intros HqM HM. apply Qcle_minus_iff.
  replace (0 + - ((q - M) / M)) with ((M - q) / M)
    by (field; apply not_eq_sym, Qclt_not_eq, HM).
  apply Qcdiv_nonneg; [|exact HM].
  apply (proj1 (Qcle_minus_iff q M)). exact HqM.
Qed.

Lemma relative_drawdown_zero q M : 0 < M → (q - M) / M = 0 → q = M.
Proof.
  intros HM Hz.
  assert (HM0 : M ≠ 0) by (apply not_eq_sym, Qclt_not_eq, HM).
  transitivity ((q - M) / M * M + M); [field; exact HM0|].
  rewrite Hz. ring.
Qed.

Lemma lookup_relative_drawdowns qs t d :
  relative_drawdowns qs !! t = Some d →
  ∃ q M, qs !! t = Some q ∧ running_maxima qs !! t = Some M ∧ d = (q - M) / M.
Proof.
  unfold relative_drawdowns. intros H.
  apply lookup_zip_with_Some in H as (q & M & -> & Hq & HM). eauto.
Qed.

Lemma relative_drawdowns_nonpos qs t d :
  starts_positive qs → relative_drawdowns qs !! t = Some d → d <= 0.
Proof.
  intros Hpos Hd.
  destruct (lookup_relative_drawdowns _ _ _ Hd) as (q & M & Hq & HM & ->).
  apply relative_drawdown_nonpos.
  - destruct (running_maxima_spec _ _ _ HM) as [Hub _]. apply (Hub t q); [lia|exact Hq].
  - eapply running_maxima_pos; eassumption.
Qed.

Lemma nondecreasing_le qs k t a b :
  nondecreasing qs → (k ≤ t)%nat → qs !! k = Some a → qs !! t = Some b → a <= b.
Proof.
  intros Hnd Hkt. revert b. induction Hkt as [|t Hkt IH]; intros b Ha Hb.
  - rewrite Ha in Hb. injection Hb as <-. apply Qcle_refl.
  - destruct (lookup_lt_is_Some_2 qs t) as [c Hc];
      [apply lookup_lt_Some in Hb; lia|].
    eapply Qcle_trans; [apply (IH c Ha Hc)|apply (Hnd t c b Hc Hb)].
Qed.

(** On a path that starts positive, the smallest drawdown is 0 exactly
    when the path never falls. *)
Lemma min_drawdown_zero_iff d ds qs :
  starts_positive qs →
  relative_drawdowns qs = d :: ds →
  foldl qmin d ds = 0 ↔ nondecreasing qs.
Proof.
  intros Hpos Hdd.
  destruct (foldl_qmin_spec d ds) as [Hlb (t0 & Ht0)].
  rewrite <- Hdd in Hlb, Ht0. split.
  - intros Hm t a b Ha Hb.
    destruct (lookup_lt_is_Some_2 (relative_drawdowns qs) (S t)) as [x Hx].
    { unfold relative_drawdowns. rewrite length_zip_with, length_running_maxima.
      apply lookup_lt_Some in Hb. lia. }
    assert (Hx0 : x = 0).
    { apply Qcle_antisym; [eapply relative_drawdowns_nonpos; eassumption|].
      rewrite <- Hm. apply (Hlb (S t) x Hx). }
    destruct (lookup_relative_drawdowns _ _ _ Hx) as (q & M & Hq & HM & Hd).
    rewrite Hb in Hq. injection Hq as <-.
    assert (HbM : b = M).
    { apply relative_drawdown_zero; [eapply running_maxima_pos; eassumption|].
      rewrite <- Hd. exact Hx0. }
    subst M. destruct (running_maxima_spec _ _ _ HM) as [Hub _].
    apply (Hub t a); [lia|exact Ha].
  - intros Hnd.
    destruct (lookup_relative_drawdowns _ _ _ Ht0) as (q & M & Hq & HM & Hd).
    destruct (running_maxima_spec _ _ _ HM) as [Hub (k & Hk & HkM)].
    assert (HqM : q = M).
    { apply Qcle_antisym; [apply (Hub t0 q); [lia|exact Hq]|].
      apply (nondecreasing_le qs k t0 M q Hnd Hk HkM Hq). }
    rewrite Hd, HqM. unfold Qcdiv, Qcminus. ring.
Qed.

End Drawdown.

Section DrawdownClaim.

Local Open Scope Qc_scope.

Variable qsqrt : Qc → fval.

(** C7, as the program has it.  [max_drawdown] is the minimum, over the
    bars where it is defined, of [(PortfolioValue[t] - RunningMax[t]) /
    RunningMax[t]], with [RunningMax[t]] the largest portfolio value up
    to bar [t].  Bar 0 is always undefined.  When the portfolio values
    from bar 1 on are finite and the one of bar 1 is positive, whatever
    the sign of the later ones, this value is at most 0, and it is 0 if
    and only if the path never falls. *)
Theorem max_drawdown_of_positive_path w data df prices signal ic :
  heap w !! data = Some df →
  cols df !! "Close" = Some (close_column prices) →
  cols df !! "Signal" = Some signal →
  length signal = length prices →
  (0 < length prices)%nat →
  ∃ res w' pv,
    Strategy.backtest qsqrt data ic w = Ok res w' ∧
    portfolio_value (self w') = Some pv ∧
    pv !! 0%nat = Some NaN ∧
    max_drawdown res = Series.min (drawdown pv) ∧
    ∀ qs, pv = NaN :: close_column qs → starts_positive qs →
      ∃ m, max_drawdown res = Fin m ∧
        (∀ t M, running_maxima qs !! t = Some M →
           (∀ k q, (k ≤ t)%nat → qs !! k = Some q → q <= M) ∧
           (∃ k, (k ≤ t)%nat ∧ qs !! k = Some M)) ∧
        (∀ t d, relative_drawdowns qs !! t = Some d → m <= d) ∧
        (∃ t, relative_drawdowns qs !! t = Some m) ∧
        m <= 0 ∧
        (m = 0 ↔ nondecreasing qs).
Proof.
  intros Hl Hc Hs Hlen Hn.
  remember (close_column prices) as close eqn:Eclose.
  assert (Hclen : length close = length prices)
    by (subst close; apply length_fmap).
  rewrite <- Hclen in Hlen, Hn.
  assert (Hsr : length (strategy_returns signal close) = length close)
    by (apply length_strategy_returns; exact Hlen).
  assert (Hpv : length (portfolio_path ic signal close) = length close)
    by (rewrite length_portfolio_path; exact Hsr).
  assert (Hcne : close ≠ []) by (intros E; rewrite E in Hn; simpl in Hn; lia).
  assert (Hsne : signal ≠ [])
    by (intros E; rewrite E in Hlen; simpl in Hlen; lia).
  pose proof (lookup_strategy_returns_0 _ _ Hsne Hcne) as Hsr0.
  destruct (lookup_lt_is_Some_2 (portfolio_path ic signal close)
              (Nat.pred (length (portfolio_path ic signal close))))
    as [final Hfinal]; [lia|].
  rewrite <- last_lookup in Hfinal.
  destruct (run_backtest qsqrt w data df _ _ ic final Hl Hc Hs Hfinal)
    as (res & w' & table & Hrun & _ & _ & _ & _ & Hself & _ & _ & Hmdd).
  exists res, w', (portfolio_path ic signal close).
  split_and!; try assumption; [apply lookup_portfolio_path_0, Hsr0|].
  intros qs Hqs Hpos. rewrite Hmdd, Hqs, drawdown_path by exact Hpos.
  destruct (relative_drawdowns qs) as [|d ds] eqn:Hdd.
  { exfalso. apply (f_equal length) in Hdd.
    unfold relative_drawdowns in Hdd.
    rewrite length_zip_with, length_running_maxima in Hdd.
    destruct qs; [exact Hpos|simpl in Hdd; lia]. }
  rewrite min_path. exists (foldl qmin d ds).
  destruct (foldl_qmin_spec d ds) as [Hlb Hatt].
  split_and!.
  - reflexivity.
  - intros t M. apply running_maxima_spec.
  - exact Hlb.
  - exact Hatt.
  - destruct Hatt as (t & Ht). rewrite <- Hdd in Ht.
    eapply relative_drawdowns_nonpos; eassumption.
  - apply (min_drawdown_zero_iff d ds qs Hpos Hdd).
Qed.

End DrawdownClaim.

Lemma max_drawdown_of_positive_path_witness :
  ∃ res w' m,
    Strategy.backtest integer_sqrt 1%positive (of_Z 1000) swing_world = Ok res w' ∧
    portfolio_value (self w')
      = Some (NaN :: close_column [of_Z 1500; of_Z (-1500)]) ∧
    starts_positive [of_Z 1500; of_Z (-1500)] ∧
    max_drawdown res = Fin m ∧
    max_drawdown res = Fin (of_Z (-2)) ∧
    (m <= 0)%Qc ∧
    (m = 0%Qc ↔ nondecreasing [of_Z 1500; of_Z (-1500)]).
Proof.
  destruct (max_drawdown_of_positive_path integer_sqrt swing_world 1%positive
              (table_of_signals [of_Z 2; of_Z 3; of_Z 9] [of_Z 1; of_Z (-1); of_Z (-1)])
              [of_Z 2; of_Z 3; of_Z 9]
              (close_column [of_Z 1; of_Z (-1); of_Z (-1)]) (of_Z 1000))
    as (res & w' & pv & Hrun & Hpv & _ & _ & Hall);
    [reflexivity | reflexivity | reflexivity | reflexivity | simpl; lia |].
  assert (Hpath : portfolio_value (self w')
                  = Some (NaN :: close_column [of_Z 1500; of_Z (-1500)])).
  { change (match Ok res w' with
            | Ok _ w0 => portfolio_value (self w0)
            | Raise _ _ => None
            end = Some (NaN :: close_column [of_Z 1500; of_Z (-1500)])).
    rewrite <- Hrun. by_evaluation. }
  assert (Hvalue : max_drawdown res = Fin (of_Z (-2))).
  { change (match Ok res w' with
            | Ok r _ => max_drawdown r
            | Raise _ _ => NaN
            end = Fin (of_Z (-2))).
    rewrite <- Hrun. by_evaluation. }
  rewrite Hpv in Hpath. injection Hpath as ->.
  destruct (Hall [of_Z 1500; of_Z (-1500)] eq_refl) as (m & Hm & _ & _ & _ & Hle & Hiff).
  { reflexivity. }
  exists res, w', m. rewrite Hpv.
  split; [exact Hrun|]. split; [reflexivity|]. split; [reflexivity|].
  split; [exact Hm|]. split; [exact Hvalue|]. split; [exact Hle|exact Hiff].
Defined.

(** C7 as stated fails.  Short while the price doubles, every portfolio
    value is 0 and [max_drawdown] is undefined, so it is neither at most 0
    nor 0 on a path that never falls; short while the price triples and
    then halves, the path falls from -1000 to -1500 and [max_drawdown]
    is 0. *)
Lemma drawdown_undefined_or_zero_on_falling_path :
  (∃ res w',
     Strategy.backtest integer_sqrt 1%positive (of_Z 1000) short_doubling_world
       = Ok res w' ∧
     portfolio_value (self w') = Some [NaN; Fin 0%Qc] ∧
     max_drawdown res = NaN) ∧
  (∃ res w',
     Strategy.backtest integer_sqrt 1%positive (of_Z 1000) short_spike_world
       = Ok res w' ∧
     portfolio_value (self w')
       = Some [NaN; Fin (of_Z (-1000)); Fin (of_Z (-1500))] ∧
     max_drawdown res = Fin 0%Qc ∧
     (of_Z (-1500) < of_Z (-1000))%Qc).
Proof.
  split.
  - eexists _, _. split; [vm_compute; reflexivity|].
    split; by_evaluation.
  - eexists _, _. split; [vm_compute; reflexivity|].
    split_and!; by_evaluation.
Qed.

(** C1 as stated fails on bar 0: the product over no bar is 1, so the
    formula gives the initial capital, 1000 in the scenario, while the
    portfolio value of bar 0 is undefined.  It also fails after an
    undefined strategy return: with closes 0, 0, 5, 10 and a signal of +1
    the return of bar 1 is 0/0, the running product skips it and the
    portfolio value of bar 2 is +inf, while the product of the formula is
    undefined. *)
Lemma portfolio_value_of_first_bar_is_undefined :
  (∃ res w' sret pv,
     Strategy.backtest integer_sqrt 1%positive (of_Z 1000) example_signals_world
       = Ok res w' ∧
     portfolio_value (self w') = Some pv ∧
     sret = strategy_returns [Fin 0; Fin 0; Fin 1; Fin 1; Fin 1]%Qc
              (close_column example_prices) ∧
     fmul (Fin (of_Z 1000)) (compounded sret 0) = Fin (of_Z 1000) ∧
     pv !! 0%nat = Some NaN ∧
     pv !! 0%nat ≠ Some (fmul (Fin (of_Z 1000)) (compounded sret 0))) ∧
  (∃ res w' sret pv,
     Strategy.backtest integer_sqrt 1%positive (of_Z 1000)
       (world_of_signals [0; 0; of_Z 5; of_Z 10]%Qc [1; 1; 1; 1]%Qc)
       = Ok res w' ∧
     portfolio_value (self w') = Some pv ∧
     sret = strategy_returns (close_column [1; 1; 1; 1]%Qc)
              (close_column [0; 0; of_Z 5; of_Z 10]%Qc) ∧
     sret !! 1%nat = Some NaN ∧
     fmul (Fin (of_Z 1000)) (compounded sret 2) = NaN ∧
     pv !! 2%nat = Some PInf).
Proof.
  split.
  - eexists _, _, _, _. split; [vm_compute; reflexivity|].
    split; [reflexivity|]. split; [reflexivity|].
    split_and!; by_evaluation.
  - eexists _, _, _, _. split; [vm_compute; reflexivity|].
    split; [reflexivity|]. split; [reflexivity|].
    split_and!; by_evaluation.
Qed.

(** ** The end-to-end scenario and two short paths, by evaluation *)

(** Closes 100, 102, 101, 105, 107 with windows 2 and 3 and an initial
    capital of 1000: the signal is 0 on the two leading bars and +1 after,
    so the portfolio stays at 1000 through bar 2 and follows the price from
    there. *)
Example scenario_portfolio_path :
  ∃ res w',
    Strategy.backtest integer_sqrt 1%positive (of_Z 1000) example_signals_world
      = Ok res w' ∧
    portfolio_value (self w')
      = Some [NaN; Fin (of_Z 1000); Fin (of_Z 1000); Fin (ratio 105000 101);
              Fin (ratio 107000 101)] ∧
    total_return res = Fin (ratio 6 101) ∧
    final_portfolio_value res = Fin (ratio 107000 101) ∧
    max_drawdown res = Fin 0%Qc.
Proof.
  eexists _, _. split; [vm_compute; reflexivity|]. split_and!; by_evaluation.
Qed.

(** Long while closes go 100, 120, 60: the path 1200, 600 falls by half. *)
Example falling_path_drawdown :
  ∃ res w',
    Strategy.backtest integer_sqrt 1%positive (of_Z 1000)
      (world_of_signals [of_Z 100; of_Z 120; of_Z 60] [1; 1; 1]%Qc)
      = Ok res w' ∧
    portfolio_value (self w') = Some [NaN; Fin (of_Z 1200); Fin (of_Z 600)] ∧
    max_drawdown res = Fin (ratio (-1) 2).
Proof.
  eexists _, _. split; [vm_compute; reflexivity|]. split; by_evaluation.
Qed.

(** A flat price: no return, no drawdown, the capital is kept. *)
Example flat_price_backtest :
  ∃ res w',
    Strategy.backtest integer_sqrt 1%positive (of_Z 1000)
      (world_of_signals [of_Z 50; of_Z 50; of_Z 50] [1; - (1); 1]%Qc)
      = Ok res w' ∧
    portfolio_value (self w') = Some [NaN; Fin (of_Z 1000); Fin (of_Z 1000)] ∧
    total_return res = Fin 0%Qc ∧
    final_portfolio_value res = Fin (of_Z 1000) ∧
    max_drawdown res = Fin 0%Qc ∧
    sharpe_ratio res = Fin 0%Qc.
Proof.
  eexists _, _. split; [vm_compute; reflexivity|]. split_and!; by_evaluation.
Qed.

(** Closes 10, 11, 12, 11, 10, 11 with windows 1 and 2: the signal changes
    on bars 1, 3 and 5.  From the change of bar 3 to that of bar 5 the
    positions -2, 0, +2 sum to 0; from the change of bar 1, which leaves
    the 0 of the leading bar, to that of bar 3 they sum to -1. *)
Example oscillating_price_positions :
  let run :=
    signals_pipeline 1%positive
      (world_of_prices 1 2 (of_Z <$> [10; 11; 12; 11; 10; 11]%Z)) in
  result_column run "Signal"
    = Some [Fin 0; Fin 1; Fin 1; Fin (- (1)); Fin (- (1)); Fin 1]%Qc ∧
  result_column run "Position"
    = Some [NaN; Fin 1; Fin 0; Fin (of_Z (-2)); Fin 0; Fin (of_Z 2)]%Qc ∧
  foldl fadd (Fin 0%Qc)
    (Series.slice [NaN; Fin 1; Fin 0; Fin (of_Z (-2)); Fin 0; Fin (of_Z 2)]%Qc 3 6)
    = Fin 0%Qc ∧
  foldl fadd (Fin 0%Qc)
    (Series.slice [NaN; Fin 1; Fin 0; Fin (of_Z (-2)); Fin 0; Fin (of_Z 2)]%Qc 1 4)
    = Fin (of_Z (-1)).
Proof. cbv zeta. split_and!; by_evaluation. Qed.

(* ===================================================================== *)
(** * Properties beyond the specification *)
(* ===================================================================== *)

(** ** The fields of the strategy object a method leaves alone *)

Section KeepsField.

Context {X : Type} (f : TradingStrategy → X).

Lemma keeps_ret {A} (a : A) : keeps_field f (mret a).
Proof. intros w. reflexivity. Qed.

Lemma keeps_bind {A B} (m : M A) (k : A → M B) :
  keeps_field f m → (∀ a, keeps_field f (k a)) → keeps_field f (m ≫= k).
Proof.
  intros Hm Hk w. rewrite run_bind. specialize (Hm w).
  destruct (m w) as [a w'|e w']; simpl in *; [|exact Hm].
  rewrite (Hk a w'). exact Hm.
Qed.

Lemma keeps_raise {A} e : keeps_field f (raise (A := A) e).
Proof. intros w. reflexivity. Qed.

Lemma keeps_lift {A} (r : exn + A) : keeps_field f (lift r).
Proof. destruct r; intros w; reflexivity. Qed.

Lemma keeps_get_self : keeps_field f get_self.
Proof. intros w. reflexivity. Qed.

Lemma keeps_get_frame l : keeps_field f (Frame.get_frame l).
Proof. intros w. unfold Frame.get_frame. destruct (heap w !! l); reflexivity. Qed.

Lemma keeps_put_frame l df : keeps_field f (Frame.put_frame l df).
Proof. intros w. reflexivity. Qed.

Lemma keeps_alloc df : keeps_field f (Frame.alloc df).
Proof. intros w. reflexivity. Qed.

Lemma keeps_copy l : keeps_field f (Frame.copy l).
Proof. apply keeps_bind; [apply keeps_get_frame|intros df; apply keeps_alloc]. Qed.

Lemma keeps_getitem l key : keeps_field f (Frame.getitem l key).
Proof.
  apply keeps_bind; [apply keeps_get_frame|].
  intros df. destruct (cols df !! key); [apply keeps_ret|apply keeps_raise].
Qed.

Lemma keeps_setitem l key c : keeps_field f (Frame.setitem l key c).
Proof. apply keeps_bind; [apply keeps_get_frame|intros df; apply keeps_put_frame]. Qed.

Lemma keeps_setitem_scalar l key v : keeps_field f (Frame.setitem_scalar l key v).
Proof. apply keeps_bind; [apply keeps_get_frame|intros df; apply keeps_put_frame]. Qed.

Lemma keeps_loc_setitem l mask key v : keeps_field f (Frame.loc_setitem l mask key v).
Proof. apply keeps_bind; [apply keeps_getitem|intros c; apply keeps_setitem]. Qed.

End KeepsField.

Ltac keeps_step :=
  first
    [ apply keeps_ret | apply keeps_raise | apply keeps_lift | apply keeps_get_self
    | apply keeps_copy | apply keeps_getitem | apply keeps_setitem
    | apply keeps_setitem_scalar | apply keeps_loc_setitem
    | apply keeps_bind; [|intros ?] ].

Ltac keeps_auto := repeat keeps_step.

Section StageKeeps.

Context {X : Type} (f : TradingStrategy → X) (qsqrt : Qc → fval).

Lemma keeps_calculate_moving_averages l :
  keeps_field f (Strategy.calculate_moving_averages l).
Proof. unfold Strategy.calculate_moving_averages. keeps_auto. Qed.

Lemma keeps_calculate_rsi l period :
  keeps_field f (Strategy.calculate_rsi l period).
Proof. unfold Strategy.calculate_rsi. keeps_auto. Qed.

Lemma keeps_calculate_macd l fast slow signal :
  keeps_field f (Strategy.calculate_macd l fast slow signal).
Proof. unfold Strategy.calculate_macd. keeps_auto. Qed.

Lemma keeps_calculate_bollinger_bands l period std_dev :
  keeps_field f (Strategy.calculate_bollinger_bands qsqrt l period std_dev).
Proof. unfold Strategy.calculate_bollinger_bands. keeps_auto. Qed.

Lemma keeps_get_trading_signals : keeps_field f Strategy.get_trading_signals.
Proof. unfold Strategy.get_trading_signals. keeps_auto. Qed.

Lemma keeps_get_performance_metrics : keeps_field f Strategy.get_performance_metrics.
Proof.
  unfold Strategy.get_performance_metrics. keeps_step; [keeps_step|].
  destruct (portfolio_value a); keeps_auto.
Qed.

End StageKeeps.

(** X1.  The four indicator calculations and the two accessors never
    write to the strategy object: whether they return or raise, its
    windows and both its caches are what they were before the call. *)
Theorem readers_never_modify_strategy (qsqrt : Qc → fval)
    (data : loc) (period fast slow signal : Z) (std_dev : Qc) (w : world) :
  self (final_world (Strategy.calculate_moving_averages data w)) = self w ∧
  self (final_world (Strategy.calculate_rsi data period w)) = self w ∧
  self (final_world (Strategy.calculate_macd data fast slow signal w)) = self w ∧
  self (final_world (Strategy.calculate_bollinger_bands qsqrt data period std_dev w))
    = self w ∧
  self (final_world (Strategy.get_trading_signals w)) = self w ∧
  self (final_world (Strategy.get_performance_metrics w)) = self w.
Proof.
  split_and!.
  - apply (keeps_calculate_moving_averages id).
  - apply (keeps_calculate_rsi id).
  - apply (keeps_calculate_macd id).
  - apply (keeps_calculate_bollinger_bands id).
  - apply (keeps_get_trading_signals id).
  - apply (keeps_get_performance_metrics id).
Qed.

Lemma keeps_generate_signals {X} (f : TradingStrategy → X) l :
  (∀ s l', f (mkStrategy (short_window s) (long_window s) (Some l') (portfolio_value s))
           = f s) →
  keeps_field f (Strategy.generate_signals l).
Proof.
  intros Hf. unfold Strategy.generate_signals.
  keeps_auto. intros w. simpl. apply Hf.
Qed.

Lemma keeps_backtest {X} (f : TradingStrategy → X) qsqrt l ic :
  (∀ s c, f (mkStrategy (short_window s) (long_window s) (signals s) (Some c))
           = f s) →
  keeps_field f (Strategy.backtest qsqrt l ic).
Proof.
  intros Hf. unfold Strategy.backtest.
  keeps_auto. intros w. simpl. apply Hf.
Qed.

(** X2.  [generate_signals] and [backtest] each write one cache only.
    Whether they return or raise, neither changes the windows;
    [generate_signals] leaves the cached portfolio path as it was and
    [backtest] leaves the cached signals as they were. *)
Theorem windows_and_other_cache_are_kept (qsqrt : Qc → fval)
    (data : loc) (ic : Qc) (w : world) :
  let after_signals := self (final_world (Strategy.generate_signals data w)) in
  let after_backtest := self (final_world (Strategy.backtest qsqrt data ic w)) in
  short_window after_signals = short_window (self w) ∧
  long_window after_signals = long_window (self w) ∧
  portfolio_value after_signals = portfolio_value (self w) ∧
  short_window after_backtest = short_window (self w) ∧
  long_window after_backtest = long_window (self w) ∧
  signals after_backtest = signals (self w).
Proof.
  simpl. split_and!.
  - apply (keeps_generate_signals short_window). reflexivity.
  - apply (keeps_generate_signals long_window). reflexivity.
  - apply (keeps_generate_signals portfolio_value). reflexivity.
  - apply (keeps_backtest short_window). reflexivity.
  - apply (keeps_backtest long_window). reflexivity.
  - apply (keeps_backtest signals). reflexivity.
Qed.

(** ** The world after each stage *)

Lemma run_getitem_missing l df h s key :
  cols df !! key = None →
  Frame.getitem l key (mkWorld (<[l := df]> h) s)
  = Raise (KeyError key) (mkWorld (<[l := df]> h) s).
Proof.
  intros Hc. unfold Frame.getitem. rewrite run_bind, run_get_frame, Hc.
  reflexivity.
Qed.

Ltac run_missing :=
  rewrite run_bind; erewrite run_getitem_missing by solve_column.

Section Exec.

Variable qsqrt : Qc → fval.

Lemma exec_calculate_moving_averages w l df close s1 s2 :
  heap w !! l = Some df →
  cols df !! "Close" = Some close →
  Series.rolling_mean (short_window (self w)) close = inr s1 →
  Series.rolling_mean (long_window (self w)) close = inr s2 →
  Strategy.calculate_moving_averages l w =
    Ok (fresh (dom (heap w)))
       (mkWorld (<[fresh (dom (heap w)) :=
                    with_columns [("SMA_short", s1); ("SMA_long", s2)] df]> (heap w))
          (self w)).
Proof.
  intros Hl Hc H1 H2. unfold Strategy.calculate_moving_averages.
  do 3 run_step.
  rewrite run_bind, (run_lift_inr _ _ _ H1).
  do 3 run_step.
  rewrite run_bind, (run_lift_inr _ _ _ H2).
  run_step. reflexivity.
Qed.

Lemma exec_calculate_rsi w l df close period gain loss :
  heap w !! l = Some df →
  cols df !! "Close" = Some close →
  Strategy.rsi_gain period (Series.diff close) = inr gain →
  Strategy.rsi_loss period (Series.diff close) = inr loss →
  Strategy.calculate_rsi l period w =
    Ok (fresh (dom (heap w)))
       (mkWorld (<[fresh (dom (heap w)) :=
                    with_columns [("RSI", rsi_column gain loss)] df]> (heap w))
          (self w)).
Proof.
  intros Hl Hc Hg Hs. unfold Strategy.calculate_rsi.
  do 2 run_step.
  rewrite run_bind, (run_lift_inr _ _ _ Hg).
  rewrite run_bind, (run_lift_inr _ _ _ Hs).
  run_step. reflexivity.
Qed.

Lemma exec_calculate_macd w l df close fast slow signal ef es line :
  heap w !! l = Some df →
  cols df !! "Close" = Some close →
  Series.ewm_mean fast close = inr ef →
  Series.ewm_mean slow close = inr es →
  Series.ewm_mean signal (Series.sub ef es) = inr line →
  Strategy.calculate_macd l fast slow signal w =
    Ok (fresh (dom (heap w)))
       (mkWorld (<[fresh (dom (heap w)) :=
                    with_columns [("EMA_fast", ef); ("EMA_slow", es);
                                  ("MACD", Series.sub ef es); ("Signal_line", line);
                                  ("MACD_hist", Series.sub (Series.sub ef es) line)] df]>
                   (heap w))
          (self w)).
Proof.
  intros Hl Hc Hf Hs Hline. unfold Strategy.calculate_macd.
  do 2 run_step.
  rewrite run_bind, (run_lift_inr _ _ _ Hf).
  do 2 run_step.
  rewrite run_bind, (run_lift_inr _ _ _ Hs).
  do 5 run_step.
  rewrite run_bind, (run_lift_inr _ _ _ Hline).
  do 4 run_step. reflexivity.
Qed.

Lemma exec_calculate_bollinger_bands w l df close period std_dev middle bb_std :
  heap w !! l = Some df →
  cols df !! "Close" = Some close →
  Series.rolling_mean period close = inr middle →
  Series.rolling_std qsqrt period close = inr bb_std →
  Strategy.calculate_bollinger_bands qsqrt l period std_dev w =
    Ok (fresh (dom (heap w)))
       (mkWorld (<[fresh (dom (heap w)) :=
                    with_columns
                      [("BB_middle", middle);
                       ("BB_upper",
                        Series.add middle (Series.mul_scalar bb_std (Fin std_dev)));
                       ("BB_lower",
                        Series.sub middle (Series.mul_scalar bb_std (Fin std_dev)))] df]>
                   (heap w))
          (self w)).
Proof.
  intros Hl Hc Hm Hs. unfold Strategy.calculate_bollinger_bands.
  do 2 run_step.
  rewrite run_bind, (run_lift_inr _ _ _ Hm).
  do 2 run_step.
  rewrite run_bind, (run_lift_inr _ _ _ Hs).
  do 4 run_step. reflexivity.
Qed.

Lemma exec_generate_signals w l df s g :
  heap w !! l = Some df →
  cols df !! "SMA_short" = Some s →
  cols df !! "SMA_long" = Some g →
  let sig := crossover_signal (nrows df) s g in
  let zeros := replicate (nrows df) (Fin 0%Qc) in
  let l' := fresh (dom (heap w)) in
  Strategy.generate_signals l w =
    Ok l'
       (mkWorld (<[l' := with_columns
                           [("Signal", zeros); ("Position", zeros);
                            ("Signal", zip_with (λ x (m : bool), if m then Fin 1%Qc else x)
                                         zeros (Series.gt s g));
                            ("Signal", sig); ("Position", Series.diff sig)] df]> (heap w))
          (mkStrategy (short_window (self w)) (long_window (self w)) (Some l')
             (portfolio_value (self w)))).
Proof.
  intros Hl Hs Hg. simpl. unfold Strategy.generate_signals.
  do 12 run_step. reflexivity.
Qed.

Lemma exec_backtest w l df close signal ic pv_last :
  heap w !! l = Some df →
  cols df !! "Close" = Some close →
  cols df !! "Signal" = Some signal →
  last (portfolio_path ic signal close) = Some pv_last →
  ∃ table,
    Strategy.backtest qsqrt l ic w =
      Ok (backtest_results qsqrt ic signal close pv_last)
         (mkWorld (<[fresh (dom (heap w)) := table]> (heap w))
            (mkStrategy (short_window (self w)) (long_window (self w))
               (signals (self w)) (Some (portfolio_path ic signal close)))).
Proof.
  intros Hl Hc Hs Hlast. unfold Strategy.backtest.
  do 14 run_step.
  rewrite run_bind. erewrite run_iloc_last by exact Hlast.
  do 5 run_step.
  rewrite run_bind. erewrite run_iloc_last by exact Hlast.
  eexists. reflexivity.
Qed.

End Exec.

(** ** Missing columns and empty tables *)

Section ErrorPaths.

Variable qsqrt : Qc → fval.

(** X3.  On a table without a [Close] column every indicator calculation
    and [backtest] raise [KeyError "Close"], whatever their parameters
    are, and leave the strategy object as it was. *)
Theorem missing_close_is_a_key_error w data df
    (period fast slow signal : Z) (std_dev ic : Qc) :
  heap w !! data = Some df →
  cols df !! "Close" = None →
  fails_with (Strategy.calculate_moving_averages data) w (KeyError "Close") ∧
  fails_with (Strategy.calculate_rsi data period) w (KeyError "Close") ∧
  fails_with (Strategy.calculate_macd data fast slow signal) w (KeyError "Close") ∧
  fails_with (Strategy.calculate_bollinger_bands qsqrt data period std_dev) w
    (KeyError "Close") ∧
  fails_with (Strategy.backtest qsqrt data ic) w (KeyError "Close").
Proof.
  intros Hl Hc. split_and!.
  - unfold fails_with, Strategy.calculate_moving_averages. run_step. run_missing.
    eexists. split; reflexivity.
  - unfold fails_with, Strategy.calculate_rsi. run_step. run_missing.
    eexists. split; reflexivity.
  - unfold fails_with, Strategy.calculate_macd. run_step. run_missing.
    eexists. split; reflexivity.
  - unfold fails_with, Strategy.calculate_bollinger_bands. run_step. run_missing.
    eexists. split; reflexivity.
  - unfold fails_with, Strategy.backtest. do 2 run_step. run_missing.
    eexists. split; reflexivity.
Qed.

(** X4.  [generate_signals] needs both averages: without [SMA_short] it
    raises [KeyError "SMA_short"], with [SMA_short] but without [SMA_long]
    it raises [KeyError "SMA_long"]; in both cases the cached signals are
    what they were. *)
Theorem generate_signals_needs_both_averages w data df :
  heap w !! data = Some df →
  cols df !! "SMA_long" = None →
  fails_with (Strategy.generate_signals data) w
    (KeyError (if cols df !! "SMA_short" is Some _ then "SMA_long" else "SMA_short")).
Proof.
  intros Hl Hg. destruct (cols df !! "SMA_short") as [s|] eqn:Hs.
  - unfold fails_with, Strategy.generate_signals. do 4 run_step. run_missing.
    eexists. split; reflexivity.
  - unfold fails_with, Strategy.generate_signals. do 3 run_step. run_missing.
    eexists. split; reflexivity.
Qed.

(** X5.  On a table with closes and no [Signal] column [backtest] raises
    [KeyError "Signal"] and leaves the strategy object, its cached
    portfolio path included, as it was. *)
Theorem backtest_needs_signal w data df close ic :
  heap w !! data = Some df →
  cols df !! "Close" = Some close →
  cols df !! "Signal" = None →
  fails_with (Strategy.backtest qsqrt data ic) w (KeyError "Signal").
Proof.
  intros Hl Hc Hs. unfold fails_with, Strategy.backtest. do 4 run_step. run_missing.
  eexists. split; reflexivity.
Qed.

(** X6.  On a table without rows [backtest] raises the [IndexError] of
    [iloc[-1]], but only after it has cached the empty portfolio path:
    from then on [get_performance_metrics] raises the same [IndexError],
    not the "Backtest not run yet" error. *)
Theorem backtest_of_no_rows_fails_after_caching w data df signal ic :
  heap w !! data = Some df →
  cols df !! "Close" = Some [] →
  cols df !! "Signal" = Some signal →
  ∃ w',
    Strategy.backtest qsqrt data ic w = Raise out_of_bounds w' ∧
    portfolio_value (self w') = Some [] ∧
    Strategy.get_performance_metrics w' = Raise out_of_bounds w'.
Proof.
  intros Hl Hc Hs. unfold Strategy.backtest. do 14 run_step.
  rewrite run_bind.
  assert (Hpv : Series.scalar_mul (Fin ic)
                  (Series.cumprod
                     (Series.scalar_add (Fin 1%Qc)
                        (Series.mul (Series.shift1 signal) (Series.pct_change [])))) = []).
  { change (Series.pct_change []) with (@nil fval).
    unfold Series.mul. rewrite zip_with_nil_r. reflexivity. }
  rewrite Hpv. simpl.
  eexists. split; [reflexivity|]. split; reflexivity.
Qed.

End ErrorPaths.

Lemma missing_close_is_a_key_error_witness :
  fails_with (Strategy.calculate_moving_averages 1%positive)
    (world_of_table table_without_close) (KeyError "Close") ∧
  fails_with (Strategy.calculate_rsi 1%positive 14)
    (world_of_table table_without_close) (KeyError "Close") ∧
  fails_with (Strategy.calculate_macd 1%positive 12 26 9)
    (world_of_table table_without_close) (KeyError "Close") ∧
  fails_with (Strategy.calculate_bollinger_bands integer_sqrt 1%positive 20 (of_Z 2))
    (world_of_table table_without_close) (KeyError "Close") ∧
  fails_with (Strategy.backtest integer_sqrt 1%positive (of_Z 100000))
    (world_of_table table_without_close) (KeyError "Close").
Proof.
  apply (missing_close_is_a_key_error integer_sqrt
           (world_of_table table_without_close) 1%positive table_without_close
           14 12 26 9 (of_Z 2) (of_Z 100000));
    [reflexivity | reflexivity].
Defined.

Lemma generate_signals_needs_both_averages_witness :
  fails_with (Strategy.generate_signals 1%positive)
    (world_of_table table_without_close) (KeyError "SMA_short") ∧
  fails_with (Strategy.generate_signals 1%positive)
    (world_of_table table_with_short_average) (KeyError "SMA_long").
Proof.
  split.
  - apply (generate_signals_needs_both_averages
             (world_of_table table_without_close) 1%positive table_without_close);
      [reflexivity | reflexivity].
  - apply (generate_signals_needs_both_averages
             (world_of_table table_with_short_average) 1%positive
             table_with_short_average);
      [reflexivity | reflexivity].
Defined.

Lemma backtest_needs_signal_witness :
  fails_with (Strategy.backtest integer_sqrt 1%positive (of_Z 100000))
    example_world (KeyError "Signal").
Proof.
  apply (backtest_needs_signal integer_sqrt example_world 1%positive
           (table_of_prices example_prices) (close_column example_prices)
           (of_Z 100000));
    [reflexivity | reflexivity | reflexivity].
Defined.

Lemma backtest_of_no_rows_fails_after_caching_witness :
  ∃ w',
    Strategy.backtest integer_sqrt 1%positive (of_Z 100000)
      (world_of_table table_without_rows) = Raise out_of_bounds w' ∧
    portfolio_value (self w') = Some [] ∧
    Strategy.get_performance_metrics w' = Raise out_of_bounds w'.
Proof.
  apply (backtest_of_no_rows_fails_after_caching integer_sqrt
           (world_of_table table_without_rows) 1%positive table_without_rows []
           (of_Z 100000));
    [reflexivity | reflexivity | reflexivity].
Defined.

(** ** The two accessors *)

Section Getters.

Variable qsqrt : Qc → fval.

Lemma metrics_unavailable w :
  portfolio_value (self w) = None →
  Strategy.get_performance_metrics w = Raise backtest_not_run w.
Proof.
  intros H. unfold Strategy.get_performance_metrics.
  rewrite run_bind. unfold get_self. rewrite H. reflexivity.
Qed.

(** X7.  As long as no backtest has cached a portfolio path,
    [get_performance_metrics] raises [ValueError "Backtest not run yet.
    Call backtest() first."]; and it still does after any indicator
    calculation or [generate_signals], whether that call returned or
    raised. *)
Theorem metrics_require_backtest w (data : loc) (period fast slow signal : Z)
    (std_dev : Qc) :
  portfolio_value (self w) = None →
  Strategy.get_performance_metrics w = Raise backtest_not_run w ∧
  ∀ w',
    w' ∈ [ final_world (Strategy.calculate_moving_averages data w);
           final_world (Strategy.calculate_rsi data period w);
           final_world (Strategy.calculate_macd data fast slow signal w);
           final_world (Strategy.calculate_bollinger_bands qsqrt data period std_dev w);
           final_world (Strategy.generate_signals data w) ] →
    Strategy.get_performance_metrics w' = Raise backtest_not_run w'.
Proof.
  intros Hnone. split; [apply metrics_unavailable, Hnone|].
  intros w' Hin. apply metrics_unavailable. rewrite <- Hnone.
  repeat (apply elem_of_cons in Hin as [-> | Hin]).
  - apply (keeps_calculate_moving_averages portfolio_value).
  - apply (keeps_calculate_rsi portfolio_value).
  - apply (keeps_calculate_macd portfolio_value).
  - apply (keeps_calculate_bollinger_bands portfolio_value).
  - apply (keeps_generate_signals portfolio_value). reflexivity.
  - apply elem_of_nil in Hin. contradiction.
Qed.

Lemma last_is_Some {A} (xs : list A) : (0 < length xs)%nat → is_Some (last xs).
Proof.
  intros H. destruct (last xs) eqn:E; [eauto|].
  apply last_None in E. subst. simpl in H. lia.
Qed.

(** X8.  After [backtest] has run on a table with at least one bar,
    [get_performance_metrics] returns the portfolio path of that backtest,
    one value per bar, and as final value its last element, which is the
    [final_portfolio_value] the backtest returned. *)
Theorem metrics_return_backtest_path w data df close signal ic :
  heap w !! data = Some df →
  cols df !! "Close" = Some close →
  cols df !! "Signal" = Some signal →
  length signal = length close →
  (0 < length close)%nat →
  ∃ res w' pv,
    Strategy.backtest qsqrt data ic w = Ok res w' ∧
    Strategy.get_performance_metrics w' = Ok (pv, final_portfolio_value res) w' ∧
    pv = portfolio_path ic signal close ∧
    length pv = length close ∧
    last pv = Some (final_portfolio_value res).
Proof.
  intros Hl Hc Hs Hlen Hpos.
  assert (Hplen : length (portfolio_path ic signal close) = length close).
  { rewrite length_portfolio_path. apply length_strategy_returns, Hlen. }
  destruct (last_is_Some (portfolio_path ic signal close)) as [final Hlast];
    [lia|].
  destruct (exec_backtest qsqrt w data df close signal ic final Hl Hc Hs Hlast)
    as [table Hrun].
  eexists _, _, _. split; [exact Hrun|].
  split_and!; try reflexivity; try assumption.
  unfold Strategy.get_performance_metrics. rewrite run_bind. unfold get_self. simpl.
  rewrite run_bind. erewrite run_iloc_last by exact Hlast. reflexivity.
Qed.

Lemma generate_signals_returns w data df s g :
  heap w !! data = Some df →
  cols df !! "SMA_short" = Some s →
  cols df !! "SMA_long" = Some g →
  ∃ table,
    Strategy.generate_signals data w =
      Ok (fresh (dom (heap w)))
         (mkWorld (<[fresh (dom (heap w)) := table]> (heap w))
            (mkStrategy (short_window (self w)) (long_window (self w))
               (Some (fresh (dom (heap w)))) (portfolio_value (self w)))) ∧
    nrows table = nrows df ∧
    cols table !! "Signal" = Some (crossover_signal (nrows df) s g) ∧
    cols table !! "Position" = Some (Series.diff (crossover_signal (nrows df) s g)) ∧
    ∀ key, key ≠ "Signal" → key ≠ "Position" → cols table !! key = cols df !! key.
Proof.
  intros Hl Hs Hg. eexists. split; [apply exec_generate_signals; eassumption|].
  split; [reflexivity|]. cbn.
  split; [rewrite lookup_insert_ne by discriminate; apply lookup_insert_eq|].
  split; [apply lookup_insert_eq|].
  intros key H1 H2. rewrite !lookup_insert_ne by congruence. reflexivity.
Qed.

Lemma get_trading_signals_cached w l :
  signals (self w) = Some l → Strategy.get_trading_signals w = Ok (Some l) w.
Proof.
  intros H. unfold Strategy.get_trading_signals. rewrite run_bind.
  unfold get_self. rewrite H. reflexivity.
Qed.

(** X9.  The table [generate_signals] returns is a new one, and it is
    the very table [get_trading_signals] returns afterwards.  A later
    [backtest], on any table and whether it returns or raises, leaves
    both the cached reference and the cached table as they are. *)
Theorem cached_signals_are_the_returned_table w data df sma_short sma_long
    (other : loc) (ic : Qc) :
  heap w !! data = Some df →
  cols df !! "SMA_short" = Some sma_short →
  cols df !! "SMA_long" = Some sma_long →
  ∃ l' w' table,
    Strategy.generate_signals data w = Ok l' w' ∧
    heap w !! l' = None ∧
    heap w' !! l' = Some table ∧
    Strategy.get_trading_signals w' = Ok (Some l') w' ∧
    let w'' := final_world (Strategy.backtest qsqrt other ic w') in
    Strategy.get_trading_signals w'' = Ok (Some l') w'' ∧
    heap w'' !! l' = Some table.
Proof.
  intros Hl Hs Hg.
  destruct (generate_signals_returns w data df sma_short sma_long Hl Hs Hg)
    as (table & Hrun & _).
  set (l' := fresh (dom (heap w))) in *.
  set (w' := mkWorld _ _) in Hrun.
  assert (Hcached : signals (self w') = Some l') by reflexivity.
  assert (Htable : heap w' !! l' = Some table) by apply lookup_insert_eq.
  exists l', w', table. split; [exact Hrun|].
  split; [apply not_elem_of_dom, is_fresh|].
  split; [exact Htable|].
  split; [apply get_trading_signals_cached, Hcached|].
  cbv zeta. split.
  - apply get_trading_signals_cached. rewrite <- Hcached.
    apply (keeps_backtest signals). reflexivity.
  - eapply (triple_leaves_unchanged _ (λ h0 _, kept h0));
      [intros h0; apply triple_backtest|auto|exact Htable].
Qed.

End Getters.

Lemma metrics_require_backtest_witness :
  Strategy.get_performance_metrics example_world
    = Raise backtest_not_run example_world ∧
  ∀ w',
    w' ∈ [ final_world (Strategy.calculate_moving_averages 1%positive example_world);
           final_world (Strategy.calculate_rsi 1%positive 14 example_world);
           final_world (Strategy.calculate_macd 1%positive 12 26 9 example_world);
           final_world (Strategy.calculate_bollinger_bands integer_sqrt 1%positive 20
                          (of_Z 2) example_world);
           final_world (Strategy.generate_signals 1%positive example_world) ] →
    Strategy.get_performance_metrics w' = Raise backtest_not_run w'.
Proof.
  apply (metrics_require_backtest integer_sqrt example_world 1%positive 14 12 26 9
           (of_Z 2));
    reflexivity.
Defined.

Lemma metrics_return_backtest_path_witness :
  ∃ res w' pv,
    Strategy.backtest integer_sqrt 1%positive (of_Z 1000) example_signals_world
      = Ok res w' ∧
    Strategy.get_performance_metrics w' = Ok (pv, final_portfolio_value res) w' ∧
    pv = portfolio_path (of_Z 1000) [Fin 0; Fin 0; Fin 1; Fin 1; Fin 1]%Qc
           (close_column example_prices) ∧
    length pv = length (close_column example_prices) ∧
    last pv = Some (final_portfolio_value res).
Proof.
  apply (metrics_return_backtest_path integer_sqrt example_signals_world 1%positive
           example_signals (close_column example_prices)
           [Fin 0; Fin 0; Fin 1; Fin 1; Fin 1]%Qc (of_Z 1000));
    [reflexivity | reflexivity | reflexivity | reflexivity | simpl; lia].
Defined.

Lemma cached_signals_are_the_returned_table_witness :
  ∃ l' w' table,
    Strategy.generate_signals 1%positive example_averages_world = Ok l' w' ∧
    heap example_averages_world !! l' = None ∧
    heap w' !! l' = Some table ∧
    Strategy.get_trading_signals w' = Ok (Some l') w' ∧
    let w'' := final_world (Strategy.backtest integer_sqrt 1%positive (of_Z 1000) w') in
    Strategy.get_trading_signals w'' = Ok (Some l') w'' ∧
    heap w'' !! l' = Some table.
Proof.
  apply (cached_signals_are_the_returned_table integer_sqrt example_averages_world
           1%positive example_averages
           [NaN; Fin (of_Z 101); Fin (ratio 203 2); Fin (of_Z 103); Fin (of_Z 106)]
           [NaN; NaN; Fin (of_Z 101); Fin (ratio 308 3); Fin (ratio 313 3)]
           1%positive (of_Z 1000));
    [reflexivity | reflexivity | reflexivity].
Defined.

(** ** The indicator calculations as one family *)

Section Indicators.

Variable qsqrt : Qc → fval.

Lemma run_indicator_spec w l df close i :
  heap w !! l = Some df →
  cols df !! "Close" = Some close →
  match indicator_columns qsqrt (self w) i close with
  | inr assigned =>
      run_indicator qsqrt i l w =
        Ok (fresh (dom (heap w)))
           (mkWorld (<[fresh (dom (heap w)) := with_columns assigned df]> (heap w))
              (self w))
  | inl e => ∃ w', run_indicator qsqrt i l w = Raise e w'
  end.
Proof.
  intros Hl Hc. destruct i as [|period|fast slow signal|period std_dev]; simpl.
  - destruct (Series.rolling_mean (short_window (self w)) close) as [e|s1] eqn:H1;
      [|destruct (Series.rolling_mean (long_window (self w)) close) as [e|s2] eqn:H2];
      simpl.
    + unfold Strategy.calculate_moving_averages. do 3 run_step.
      rewrite run_bind, (run_lift_inl _ _ _ H1). eexists. reflexivity.
    + unfold Strategy.calculate_moving_averages. do 3 run_step.
      rewrite run_bind, (run_lift_inr _ _ _ H1). do 3 run_step.
      rewrite run_bind, (run_lift_inl _ _ _ H2). eexists. reflexivity.
    + apply exec_calculate_moving_averages with close; assumption.
  - destruct (Strategy.rsi_gain period (Series.diff close)) as [e|gain] eqn:H1;
      [|destruct (Strategy.rsi_loss period (Series.diff close)) as [e|loss] eqn:H2];
      simpl.
    + unfold Strategy.calculate_rsi. do 2 run_step.
      rewrite run_bind, (run_lift_inl _ _ _ H1). eexists. reflexivity.
    + unfold Strategy.calculate_rsi. do 2 run_step.
      rewrite run_bind, (run_lift_inr _ _ _ H1).
      rewrite run_bind, (run_lift_inl _ _ _ H2). eexists. reflexivity.
    + apply exec_calculate_rsi with close; assumption.
  - destruct (Series.ewm_mean fast close) as [e|ef] eqn:H1;
      [|destruct (Series.ewm_mean slow close) as [e|es] eqn:H2;
        [|destruct (Series.ewm_mean signal (Series.sub ef es)) as [e|line] eqn:H3]];
      simpl; rewrite ?H3.
    + unfold Strategy.calculate_macd. do 2 run_step.
      rewrite run_bind, (run_lift_inl _ _ _ H1). eexists. reflexivity.
    + unfold Strategy.calculate_macd. do 2 run_step.
      rewrite run_bind, (run_lift_inr _ _ _ H1). do 2 run_step.
      rewrite run_bind, (run_lift_inl _ _ _ H2). eexists. reflexivity.
    + unfold Strategy.calculate_macd. do 2 run_step.
      rewrite run_bind, (run_lift_inr _ _ _ H1). do 2 run_step.
      rewrite run_bind, (run_lift_inr _ _ _ H2). do 5 run_step.
      rewrite run_bind, (run_lift_inl _ _ _ H3). eexists. reflexivity.
    + apply exec_calculate_macd with close; assumption.
  - destruct (Series.rolling_mean period close) as [e|middle] eqn:H1;
      [|destruct (Series.rolling_std qsqrt period close) as [e|bb_std] eqn:H2];
      simpl.
    + unfold Strategy.calculate_bollinger_bands. do 2 run_step.
      rewrite run_bind, (run_lift_inl _ _ _ H1). eexists. reflexivity.
    + unfold Strategy.calculate_bollinger_bands. do 2 run_step.
      rewrite run_bind, (run_lift_inr _ _ _ H1). do 2 run_step.
      rewrite run_bind, (run_lift_inl _ _ _ H2). eexists. reflexivity.
    + apply exec_calculate_bollinger_bands with close; assumption.
Qed.

Lemma run_indicator_missing_close w l df i :
  heap w !! l = Some df →
  cols df !! "Close" = None →
  fails_with (run_indicator qsqrt i l) w (KeyError "Close").
Proof.
  intros Hl Hc. unfold fails_with. destruct i; simpl.
  - unfold Strategy.calculate_moving_averages. run_step. run_missing.
    eexists. split; reflexivity.
  - unfold Strategy.calculate_rsi. run_step. run_missing.
    eexists. split; reflexivity.
  - unfold Strategy.calculate_macd. run_step. run_missing.
    eexists. split; reflexivity.
  - unfold Strategy.calculate_bollinger_bands. run_step. run_missing.
    eexists. split; reflexivity.
Qed.

End Indicators.

(** ** Tables after column assignments *)

Section WithColumns.

Lemma with_columns_cons kc a df :
  with_columns (kc :: a) df = with_columns a (Frame.set_column kc.1 kc.2 df).
Proof. reflexivity. Qed.

Lemma nrows_with_columns a df : nrows (with_columns a df) = nrows df.
Proof.
  revert df. induction a as [|kc a IH]; intros df; [reflexivity|].
  rewrite with_columns_cons, IH. reflexivity.
Qed.

Lemma lookup_with_columns_other a df key :
  key ∉ a.*1 → cols (with_columns a df) !! key = cols df !! key.
Proof.
  revert df. induction a as [|kc a IH]; intros df Hn; [reflexivity|].
  rewrite fmap_cons in Hn. apply not_elem_of_cons in Hn as [Hne Hn].
  rewrite with_columns_cons, IH by exact Hn.
  apply lookup_set_column_ne. congruence.
Qed.

Lemma lookup_with_columns_in a df key :
  key ∈ a.*1 → is_Some (cols (with_columns a df) !! key).
Proof.
  revert df. induction a as [|kc a IH]; intros df Hin.
  - apply elem_of_nil in Hin. contradiction.
  - rewrite with_columns_cons.
    destruct (decide (key ∈ a.*1)) as [Ha|Ha]; [apply IH, Ha|].
    rewrite lookup_with_columns_other by exact Ha.
    rewrite fmap_cons in Hin. apply elem_of_cons in Hin as [->|Hin]; [|contradiction].
    rewrite lookup_set_column_eq. eauto.
Qed.

Lemma wf_set_column key c df :
  wf_frame df → length c = nrows df → wf_frame (Frame.set_column key c df).
Proof.
  intros Hwf Hlen. unfold wf_frame, Frame.set_column. simpl.
  apply map_Forall_insert_2; assumption.
Qed.

Lemma wf_with_columns a df :
  wf_frame df → Forall (λ kc, length kc.2 = nrows df) a →
  wf_frame (with_columns a df).
Proof.
  revert df. induction a as [|kc a IH]; intros df Hwf Hall; [exact Hwf|].
  apply Forall_cons in Hall as [Hkc Hall].
  rewrite with_columns_cons. apply IH; [apply wf_set_column; assumption|].
  exact Hall.
Qed.

Lemma extends_with_columns a df :
  (wf_frame df → Forall (λ kc, length kc.2 = nrows df) a) →
  extends_table (a.*1) df (with_columns a df).
Proof.
  intros Hall. split_and!.
  - apply nrows_with_columns.
  - intros key. apply lookup_with_columns_other.
  - intros key. apply lookup_with_columns_in.
  - intros Hwf. apply wf_with_columns; auto.
Qed.

Lemma set_column_commute k c k' c' df :
  k ≠ k' →
  Frame.set_column k c (Frame.set_column k' c' df)
  = Frame.set_column k' c' (Frame.set_column k c df).
Proof.
  intros Hne. unfold Frame.set_column. simpl. f_equal.
  apply insert_insert_ne. exact Hne.
Qed.

Lemma with_columns_set_column a k c df :
  k ∉ a.*1 →
  with_columns a (Frame.set_column k c df) = Frame.set_column k c (with_columns a df).
Proof.
  revert df. induction a as [|kc a IH]; intros df Hn; [reflexivity|].
  rewrite fmap_cons in Hn. apply not_elem_of_cons in Hn as [Hne Hn].
  rewrite !with_columns_cons, <- IH by exact Hn.
  f_equal. apply set_column_commute. congruence.
Qed.

Lemma with_columns_commute a b df :
  a.*1 ## b.*1 →
  with_columns a (with_columns b df) = with_columns b (with_columns a df).
Proof.
  revert df. induction b as [|kc b IH]; intros df Hd; [reflexivity|].
  rewrite !with_columns_cons.
  rewrite IH by (intros k Ha Hb; apply (Hd k Ha); rewrite fmap_cons; right; exact Hb).
  f_equal. apply with_columns_set_column.
  intros Ha. apply (Hd _ Ha). rewrite fmap_cons. left.
Qed.

End WithColumns.

(** ** Lengths and validity of the computed columns *)

Section Lengths.

Variable qsqrt : Qc → fval.

Lemma length_rolling_mean period xs out :
  Series.rolling_mean period xs = inr out → length out = length xs.
Proof.
  intros H. apply rolling_mean_inr in H as [_ ->]. apply length_roll_mean_upto.
Qed.

(** The windows and spans that are refused, and what refuses them. *)
Lemma window_error_valid window :
  window_error window = None ↔ valid_window window.
Proof.
  unfold window_error, valid_window.
  destruct (Z.ltb_spec window 0); [split; [discriminate|lia]|].
  destruct (Z.leb_spec Series.int64_limit window); [split; [discriminate|lia]|].
  split; [lia|reflexivity].
Qed.

Lemma span_error_valid span : span_error span = None ↔ (1 ≤ span)%Z.
Proof.
  unfold span_error.
  destruct (Z.ltb_spec span 1); [split; [discriminate|lia]|].
  split; [lia|reflexivity].
Qed.

Lemma rolling_mean_outcome period xs :
  match window_error period with
  | Some e => Series.rolling_mean period xs = inl e
  | None => ∃ out, Series.rolling_mean period xs = inr out
  end.
Proof.
  unfold window_error, Series.rolling_mean.
  destruct (period <? 0)%Z; [reflexivity|].
  destruct (Series.int64_limit <=? period)%Z; [reflexivity|eauto].
Qed.

Lemma rolling_std_outcome period xs :
  match window_error period with
  | Some e => Series.rolling_std qsqrt period xs = inl e
  | None => ∃ out, Series.rolling_std qsqrt period xs = inr out
  end.
Proof.
  unfold window_error, Series.rolling_std.
  destruct (period <? 0)%Z; [reflexivity|].
  destruct (Series.int64_limit <=? period)%Z; [reflexivity|eauto].
Qed.

Lemma ewm_mean_outcome span xs :
  match span_error span with
  | Some e => Series.ewm_mean span xs = inl e
  | None => ∃ out, Series.ewm_mean span xs = inr out
  end.
Proof.
  unfold span_error, Series.ewm_mean.
  destruct (span <? 1)%Z; [reflexivity|].
  destruct (Series.prep_values xs); eauto.
Qed.

Lemma rolling_mean_inr_iff period xs :
  valid_window period ↔ ∃ out, Series.rolling_mean period xs = inr out.
Proof.
  rewrite <- window_error_valid.
  pose proof (rolling_mean_outcome period xs) as H.
  destruct (window_error period) as [e|].
  - rewrite H. split; [discriminate|intros [? ?]; discriminate].
  - split; [intros _; exact H|reflexivity].
Qed.

Lemma length_rolling_std period xs out :
  Series.rolling_std qsqrt period xs = inr out → length out = length xs.
Proof.
  unfold Series.rolling_std. destruct (period <? 0)%Z; [discriminate|].
  destruct (Series.int64_limit <=? period)%Z; [discriminate|].
  intros [= <-]. apply length_imap.
Qed.

Lemma rolling_std_inr_iff period xs :
  valid_window period ↔ ∃ out, Series.rolling_std qsqrt period xs = inr out.
Proof.
  rewrite <- window_error_valid.
  pose proof (rolling_std_outcome period xs) as H.
  destruct (window_error period) as [e|].
  - rewrite H. split; [discriminate|intros [? ?]; discriminate].
  - split; [intros _; exact H|reflexivity].
Qed.

Lemma length_ewm_loop f st xs : length (Series.ewm_loop f st xs) = length xs.
Proof.
  revert st. induction xs as [|x xs IH]; intros st; [reflexivity|].
  simpl. rewrite IH. reflexivity.
Qed.

Lemma length_ewm_mean span xs out :
  Series.ewm_mean span xs = inr out → length out = length xs.
Proof.
  unfold Series.ewm_mean. destruct (span <? 1)%Z; [discriminate|].
  assert (Hlen : length (Series.prep_values xs) = length xs)
    by apply length_fmap.
  destruct (Series.prep_values xs) as [|x0 rest]; intros [= <-].
  - simpl in Hlen. simpl. lia.
  - simpl. rewrite length_ewm_loop. simpl in Hlen. lia.
Qed.

Lemma ewm_mean_inr_iff span xs :
  (1 ≤ span)%Z ↔ ∃ out, Series.ewm_mean span xs = inr out.
Proof.
  unfold Series.ewm_mean. destruct (Z.ltb_spec span 1); split.
  - lia.
  - intros [out H']. discriminate.
  - destruct (Series.prep_values xs); eauto.
  - lia.
Qed.

Lemma length_where xs (mask : list bool) other :
  length mask = length xs → length (Series.where_ xs mask other) = length xs.
Proof. intros H. unfold Series.where_. rewrite length_zip_with. lia. Qed.

Lemma length_rsi_gain period delta out :
  Strategy.rsi_gain period delta = inr out → length out = length delta.
Proof.
  intros H. apply length_rolling_mean in H. rewrite H.
  apply length_where. unfold Series.gt_scalar. apply length_fmap.
Qed.

Lemma length_rsi_loss period delta out :
  Strategy.rsi_loss period delta = inr out → length out = length delta.
Proof.
  intros H. apply length_rolling_mean in H. rewrite H.
  unfold Series.neg. rewrite length_fmap.
  apply length_where. unfold Series.lt_scalar. apply length_fmap.
Qed.

Lemma length_rsi_column gain loss :
  length gain = length loss → length (rsi_column gain loss) = length gain.
Proof.
  intros H. unfold rsi_column, Series.scalar_sub, Series.scalar_div,
    Series.scalar_add, Series.div.
  rewrite !length_fmap, length_zip_with. lia.
Qed.

Lemma indicator_columns_keys this i close assigned :
  indicator_columns qsqrt this i close = inr assigned →
  assigned.*1 = indicator_keys i.
Proof.
  destruct i as [|period|fast slow signal|period std_dev]; simpl;
    repeat match goal with
           | |- context [both ?x ?y] => destruct x, y; simpl
           | |- context [Series.ewm_mean ?s (Series.sub ?a ?b)] =>
               destruct (Series.ewm_mean s (Series.sub a b))
           end;
    intros [= <-]; reflexivity.
Qed.

Lemma indicator_columns_lengths this i close assigned :
  indicator_columns qsqrt this i close = inr assigned →
  Forall (λ kc, length kc.2 = length close) assigned.
Proof.
  destruct i as [|period|fast slow signal|period std_dev]; simpl.
  - destruct (Series.rolling_mean (short_window this) close) as [|s1] eqn:H1,
      (Series.rolling_mean (long_window this) close) as [|s2] eqn:H2;
      simpl; intros [= <-].
    apply length_rolling_mean in H1, H2.
    repeat constructor; assumption.
  - destruct (Strategy.rsi_gain period (Series.diff close)) as [|gain] eqn:H1,
      (Strategy.rsi_loss period (Series.diff close)) as [|loss] eqn:H2;
      simpl; intros [= <-].
    apply length_rsi_gain in H1. apply length_rsi_loss in H2.
    rewrite length_diff in H1, H2.
    repeat constructor. simpl. rewrite length_rsi_column; lia.
  - destruct (Series.ewm_mean fast close) as [|ef] eqn:H1,
      (Series.ewm_mean slow close) as [|es] eqn:H2; simpl; try discriminate.
    destruct (Series.ewm_mean signal (Series.sub ef es)) as [|line] eqn:H3;
      intros [= <-].
    apply length_ewm_mean in H1, H2, H3.
    unfold Series.sub in *. rewrite length_zip_with in H3.
    repeat constructor; simpl; rewrite ?length_zip_with; lia.
  - destruct (Series.rolling_mean period close) as [|middle] eqn:H1,
      (Series.rolling_std qsqrt period close) as [|bb_std] eqn:H2;
      simpl; intros [= <-].
    apply length_rolling_mean in H1. apply length_rolling_std in H2.
    repeat constructor; simpl;
      unfold Series.add, Series.sub, Series.mul_scalar;
      rewrite ?length_zip_with, ?length_fmap; lia.
Qed.

Lemma indicator_columns_valid this i close :
  valid_parameters this i ↔
  ∃ assigned, indicator_columns qsqrt this i close = inr assigned.
Proof.
  destruct i as [|period|fast slow signal|period std_dev]; simpl.
  - rewrite (rolling_mean_inr_iff (short_window this) close),
      (rolling_mean_inr_iff (long_window this) close).
    destruct (Series.rolling_mean (short_window this) close),
      (Series.rolling_mean (long_window this) close); simpl;
      split; try (intros [[? ?] [? ?]]); try (intros [? ?]);
      try discriminate; eauto.
  - unfold Strategy.rsi_gain, Strategy.rsi_loss.
    rewrite (rolling_mean_inr_iff period
               (Series.where_ (Series.diff close)
                  (Series.gt_scalar (Series.diff close) (Fin 0%Qc)) (Fin 0%Qc))).
    pose proof (rolling_mean_inr_iff period
               (Series.neg (Series.where_ (Series.diff close)
                  (Series.lt_scalar (Series.diff close) (Fin 0%Qc)) (Fin 0%Qc))))
      as Hloss.
    destruct (Series.rolling_mean period
                (Series.where_ (Series.diff close)
                   (Series.gt_scalar (Series.diff close) (Fin 0%Qc)) (Fin 0%Qc)))
      as [e|gain] eqn:Hg; simpl.
    + split; intros [? ?]; discriminate.
    + split; [intros _|eauto].
      assert (Hp : valid_window period).
      { apply (rolling_mean_inr_iff period
               (Series.where_ (Series.diff close)
                  (Series.gt_scalar (Series.diff close) (Fin 0%Qc)) (Fin 0%Qc))).
        eauto. }
      apply Hloss in Hp as [loss ->]. eauto.
  - pose proof (ewm_mean_inr_iff fast close) as Hf.
    pose proof (ewm_mean_inr_iff slow close) as Hs.
    destruct (Series.ewm_mean fast close) as [e|ef]; simpl.
    { split; [intros (H1 & _ & _); apply Hf in H1 as [? ?]; discriminate
             |intros [? ?]; discriminate]. }
    destruct (Series.ewm_mean slow close) as [e|es]; simpl.
    { split; [intros (_ & H1 & _); apply Hs in H1 as [? ?]; discriminate
             |intros [? ?]; discriminate]. }
    pose proof (ewm_mean_inr_iff signal (Series.sub ef es)) as Hl.
    destruct (Series.ewm_mean signal (Series.sub ef es)) as [e|line].
    { split; [intros (_ & _ & H1); apply Hl in H1 as [? ?]; discriminate
             |intros [? ?]; discriminate]. }
    split; [eauto|]. intros _. split_and!; [apply Hf|apply Hs|apply Hl]; eauto.
  - pose proof (rolling_mean_inr_iff period close) as Hm.
    pose proof (rolling_std_inr_iff period close) as Hs.
    destruct (Series.rolling_mean period close) as [e|middle]; simpl.
    { split; [intros H1; apply Hm in H1 as [? ?]; discriminate
             |intros [? ?]; discriminate]. }
    destruct (Series.rolling_std qsqrt period close) as [e|bb_std]; simpl.
    { split; [intros H1; apply Hs in H1 as [? ?]; discriminate
             |intros [? ?]; discriminate]. }
    split; [eauto|]. intros _. apply Hm. eauto.
Qed.

End Lengths.

(** ** When the stages return, and what they return *)

Section IndicatorTheorems.

Variable qsqrt : Qc → fval.

Lemma parameter_error_valid this i :
  parameter_error this i = None ↔ valid_parameters this i.
Proof.
  destruct i as [|period|fast slow signal|period std_dev]; simpl.
  - rewrite <- !window_error_valid.
    destruct (window_error (short_window this)), (window_error (long_window this));
      simpl; split; try discriminate; try tauto; intros [? ?]; discriminate.
  - apply window_error_valid.
  - rewrite <- !span_error_valid.
    destruct (span_error fast), (span_error slow), (span_error signal);
      simpl; split; try discriminate; try tauto; intros (? & ? & ?); discriminate.
  - apply window_error_valid.
Qed.

(** The columns of a calculation are computed unless a parameter is
    refused, and the error is the one of the first refused parameter. *)
Lemma indicator_columns_outcome this i close :
  match parameter_error this i with
  | Some e => indicator_columns qsqrt this i close = inl e
  | None => ∃ assigned, indicator_columns qsqrt this i close = inr assigned
  end.
Proof.
  destruct i as [|period|fast slow signal|period std_dev]; simpl.
  - pose proof (rolling_mean_outcome (short_window this) close) as H1.
    pose proof (rolling_mean_outcome (long_window this) close) as H2.
    destruct (window_error (short_window this)); simpl.
    { rewrite H1. reflexivity. }
    destruct H1 as [s1 ->].
    destruct (window_error (long_window this)); simpl.
    { rewrite H2. reflexivity. }
    destruct H2 as [s2 ->]. simpl. eauto.
  - unfold Strategy.rsi_gain, Strategy.rsi_loss.
    pose proof (rolling_mean_outcome period
               (Series.where_ (Series.diff close)
                  (Series.gt_scalar (Series.diff close) (Fin 0%Qc)) (Fin 0%Qc)))
      as H1.
    pose proof (rolling_mean_outcome period
               (Series.neg (Series.where_ (Series.diff close)
                  (Series.lt_scalar (Series.diff close) (Fin 0%Qc)) (Fin 0%Qc))))
      as H2.
    destruct (window_error period).
    { rewrite H1. reflexivity. }
    destruct H1 as [gain ->], H2 as [loss ->]. simpl. eauto.
  - pose proof (ewm_mean_outcome fast close) as H1.
    pose proof (ewm_mean_outcome slow close) as H2.
    destruct (span_error fast); simpl.
    { rewrite H1. reflexivity. }
    destruct H1 as [ef ->].
    destruct (span_error slow); simpl.
    { rewrite H2. reflexivity. }
    destruct H2 as [es ->]. simpl.
    pose proof (ewm_mean_outcome signal (Series.sub ef es)) as H3.
    destruct (span_error signal); simpl.
    { rewrite H3. reflexivity. }
    destruct H3 as [line ->]. eauto.
  - pose proof (rolling_mean_outcome period close) as H1.
    pose proof (rolling_std_outcome qsqrt period close) as H2.
    destruct (window_error period).
    { rewrite H1. reflexivity. }
    destruct H1 as [middle ->], H2 as [bb_std ->]. simpl. eauto.
Qed.

(** The outcome of an indicator calculation on a table with closes. *)
Lemma run_indicator_outcome w l df close i :
  heap w !! l = Some df →
  cols df !! "Close" = Some close →
  match parameter_error (self w) i with
  | Some e => ∃ w', run_indicator qsqrt i l w = Raise e w'
  | None => ∃ l' w', run_indicator qsqrt i l w = Ok l' w'
  end.
Proof.
  intros Hl Hc.
  pose proof (run_indicator_spec qsqrt w l df close i Hl Hc) as Hspec.
  pose proof (indicator_columns_outcome (self w) i close) as Hout.
  destruct (parameter_error (self w) i) as [e|].
  - rewrite Hout in Hspec. exact Hspec.
  - destruct Hout as [assigned Hout]. rewrite Hout in Hspec. eauto.
Qed.


Lemma generate_signals_spec w l df :
  heap w !! l = Some df →
  match cols df !! "SMA_short", cols df !! "SMA_long" with
  | None, _ => fails_with (Strategy.generate_signals l) w (KeyError "SMA_short")
  | Some _, None => fails_with (Strategy.generate_signals l) w (KeyError "SMA_long")
  | Some s, Some g =>
      let sig := crossover_signal (nrows df) s g in
      let zeros := replicate (nrows df) (Fin 0%Qc) in
      let l' := fresh (dom (heap w)) in
      Strategy.generate_signals l w =
        Ok l'
           (mkWorld (<[l' := with_columns
                               [("Signal", zeros); ("Position", zeros);
                                ("Signal",
                                 zip_with (λ x (m : bool), if m then Fin 1%Qc else x)
                                   zeros (Series.gt s g));
                                ("Signal", sig); ("Position", Series.diff sig)] df]>
                       (heap w))
              (mkStrategy (short_window (self w)) (long_window (self w)) (Some l')
                 (portfolio_value (self w))))
  end.
Proof.
  intros Hl.
  destruct (cols df !! "SMA_short") as [s|] eqn:Hs;
    [destruct (cols df !! "SMA_long") as [g|] eqn:Hg|].
  - apply exec_generate_signals; assumption.
  - unfold fails_with, Strategy.generate_signals. do 4 run_step. run_missing.
    eexists. split; reflexivity.
  - unfold fails_with, Strategy.generate_signals. do 3 run_step. run_missing.
    eexists. split; reflexivity.
Qed.

(** X11.  Whenever an indicator calculation or [generate_signals]
    returns, the table it returns has as many rows as its input, defines
    the columns of the stage, agrees with the input on every other
    column, and has one value per row in every column if the input
    has. *)
Theorem stages_extend_their_input w data df s :
  heap w !! data = Some df →
  match run_stage qsqrt s data w with
  | Ok l' w' =>
      ∃ df', heap w' !! l' = Some df' ∧ extends_table (stage_keys s) df df'
  | Raise _ _ => True
  end.
Proof.
  intros Hl. destruct s as [i|]; simpl.
  - destruct (cols df !! "Close") as [close|] eqn:Hc.
    + pose proof (run_indicator_spec qsqrt w data df close i Hl Hc) as Hspec.
      destruct (indicator_columns qsqrt (self w) i close) as [e|assigned] eqn:Hcols.
      * destruct Hspec as [w'' ->]. exact I.
      * rewrite Hspec.
        eexists. split; [apply lookup_insert_eq|].
        rewrite <- (indicator_columns_keys _ _ _ _ _ Hcols).
        apply extends_with_columns. intros Hwf.
        pose proof (Hwf _ _ Hc) as Hlen. simpl in Hlen. rewrite <- Hlen.
        eapply indicator_columns_lengths, Hcols.
    + destruct (run_indicator_missing_close qsqrt w data df i Hl Hc)
        as (w'' & -> & _). exact I.
  - pose proof (generate_signals_spec w data df Hl) as Hspec.
    destruct (cols df !! "SMA_short") as [s|] eqn:Hs;
      [destruct (cols df !! "SMA_long") as [g|] eqn:Hg|].
    + cbv zeta in Hspec.
      match type of Hspec with context [with_columns ?a df] =>
        pose proof (extends_with_columns a df) as Hext;
        set (table := with_columns a df) in *
      end.
      rewrite Hspec.
      exists table. split; [apply lookup_insert_eq|].
      destruct Hext as (Hn & Hother & Hin & Hwf).
      { intros Hwf.
        pose proof (Hwf _ _ Hs) as Hls. pose proof (Hwf _ _ Hg) as Hlg.
        simpl in Hls, Hlg.
        assert (Hsig : length (crossover_signal (nrows df) s g) = nrows df)
          by (apply length_crossover_signal; assumption).
        repeat constructor; simpl;
          rewrite ?length_diff, ?length_replicate; try assumption; try reflexivity.
        unfold Series.gt. rewrite !length_zip_with, length_replicate. lia. }
      split_and!; [exact Hn| | |exact Hwf].
      * intros key Hk. apply Hother. simpl.
        intros Hk'. apply Hk.
        repeat (apply elem_of_cons in Hk' as [->|Hk']);
          try (apply elem_of_nil in Hk'; contradiction);
          repeat constructor.
      * intros key Hk. apply Hin. simpl.
        repeat (apply elem_of_cons in Hk as [->|Hk]);
          try (apply elem_of_nil in Hk; contradiction);
          repeat constructor.
    + destruct Hspec as (w'' & -> & _). exact I.
    + destruct Hspec as (w'' & -> & _). exact I.
Qed.

Lemma indicator_keys_disjoint i j :
  same_kind i j = false → indicator_keys i ## indicator_keys j.
Proof.
  destruct i, j; simpl; try discriminate; intros _ k Hi Hj;
    repeat (apply elem_of_cons in Hi as [->|Hi]);
    try (apply elem_of_nil in Hi; contradiction);
    repeat (apply elem_of_cons in Hj as [Hj|Hj]; [discriminate|]);
    apply elem_of_nil in Hj; contradiction.
Qed.

Lemma close_not_assigned i : "Close" ∉ indicator_keys i.
Proof.
  destruct i; simpl; intros H;
    repeat (apply elem_of_cons in H as [H|H]; [discriminate|]);
    apply elem_of_nil in H; contradiction.
Qed.

Lemma then_indicator_spec w data df close i j :
  heap w !! data = Some df →
  cols df !! "Close" = Some close →
  match indicator_columns qsqrt (self w) i close,
        indicator_columns qsqrt (self w) j close with
  | inr a, inr b =>
      ∃ h,
        then_indicator qsqrt i j data w =
          Ok (fresh (dom (<[fresh (dom (heap w)) := df]> (heap w))))
             (mkWorld (<[fresh (dom (<[fresh (dom (heap w)) := df]> (heap w))) :=
                          with_columns b (with_columns a df)]> h) (self w))
  | _, _ => ∃ e w', then_indicator qsqrt i j data w = Raise e w'
  end.
Proof.
  intros Hl Hc. unfold then_indicator. rewrite run_bind.
  pose proof (run_indicator_spec qsqrt w data df close i Hl Hc) as Hi.
  destruct (indicator_columns qsqrt (self w) i close) as [e|a] eqn:Ha.
  { destruct Hi as [w' ->]. eauto. }
  rewrite Hi.
  set (l1 := fresh (dom (heap w))).
  set (w1 := mkWorld (<[l1 := with_columns a df]> (heap w)) (self w)).
  assert (Hl1 : heap w1 !! l1 = Some (with_columns a df)) by apply lookup_insert_eq.
  assert (Hc1 : cols (with_columns a df) !! "Close" = Some close).
  { rewrite lookup_with_columns_other; [exact Hc|].
    rewrite (indicator_columns_keys _ _ _ _ _ Ha). apply close_not_assigned. }
  pose proof (run_indicator_spec qsqrt w1 l1 _ close j Hl1 Hc1) as Hj.
  change (self w1) with (self w) in Hj.
  destruct (indicator_columns qsqrt (self w) j close) as [e|b] eqn:Hb.
  { destruct Hj as [w' ->]. eauto. }
  rewrite Hj. eexists.
  replace (dom (heap w1)) with (dom (<[l1 := df]> (heap w)))
    by (unfold w1; simpl; rewrite !dom_insert_L; reflexivity).
  reflexivity.
Qed.

(** X12.  Two indicator calculations of different kinds can be run in
    either order: one after the other on the table the first returned,
    either both orders raise, or both return, under the same reference, a
    table with the same rows and columns. *)
Theorem indicators_commute w data df i j :
  heap w !! data = Some df →
  same_kind i j = false →
  match then_indicator qsqrt i j data w, then_indicator qsqrt j i data w with
  | Ok l1 w1, Ok l2 w2 =>
      l1 = l2 ∧ ∃ table, heap w1 !! l1 = Some table ∧ heap w2 !! l2 = Some table
  | Raise _ _, Raise _ _ => True
  | _, _ => False
  end.
Proof.
  intros Hl Hkind.
  destruct (cols df !! "Close") as [close|] eqn:Hc.
  - pose proof (then_indicator_spec w data df close i j Hl Hc) as Hij.
    pose proof (then_indicator_spec w data df close j i Hl Hc) as Hji.
    destruct (indicator_columns qsqrt (self w) i close) as [e|a] eqn:Ha;
      destruct (indicator_columns qsqrt (self w) j close) as [e'|b] eqn:Hb.
    + destruct Hij as (? & ? & ->), Hji as (? & ? & ->). exact I.
    + destruct Hij as (? & ? & ->), Hji as (? & ? & ->). exact I.
    + destruct Hij as (? & ? & ->), Hji as (? & ? & ->). exact I.
    + destruct Hij as [h1 ->]. destruct Hji as [h2 ->].
      split; [reflexivity|]. eexists. simpl. rewrite !lookup_insert_eq.
      split; [reflexivity|]. f_equal.
      apply with_columns_commute.
      rewrite (indicator_columns_keys _ _ _ _ _ Ha),
        (indicator_columns_keys _ _ _ _ _ Hb).
      apply indicator_keys_disjoint.
      destruct i, j; simpl in *; congruence.
  - unfold then_indicator. rewrite !run_bind.
    destruct (run_indicator_missing_close qsqrt w data df i Hl Hc)
      as (w1 & -> & _).
    destruct (run_indicator_missing_close qsqrt w data df j Hl Hc)
      as (w2 & -> & _).
    exact I.
Qed.

End IndicatorTheorems.


Lemma stages_extend_their_input_witness :
  match run_stage integer_sqrt Signals 1%positive example_averages_world with
  | Ok l' w' =>
      ∃ df', heap w' !! l' = Some df' ∧
             extends_table (stage_keys Signals) example_averages df'
  | Raise _ _ => True
  end.
Proof.
  apply (stages_extend_their_input integer_sqrt example_averages_world 1%positive
           example_averages Signals);
    reflexivity.
Defined.

Lemma indicators_commute_witness :
  match then_indicator integer_sqrt (Rsi 2) (Macd 2 3 2) 1%positive example_world,
        then_indicator integer_sqrt (Macd 2 3 2) (Rsi 2) 1%positive example_world with
  | Ok l1 w1, Ok l2 w2 =>
      l1 = l2 ∧ ∃ table, heap w1 !! l1 = Some table ∧ heap w2 !! l2 = Some table
  | Raise _ _, Raise _ _ => True
  | _, _ => False
  end.
Proof.
  apply (indicators_commute integer_sqrt example_world 1%positive
           (table_of_prices example_prices) (Rsi 2) (Macd 2 3 2));
    [reflexivity | reflexivity].
Defined.

(** ** Configuration values are not validated *)

(** C8 of the specification is one statement over the family of
    indicator calculations, and rests on the account of their outcomes
    above. *)

Section ConfigurationClaim.

Local Open Scope Qc_scope.

Variable qsqrt : Qc → fval.

(** A window of 0 never holds an observation: every bar is undefined. *)
Lemma rolling_mean_zero xs :
  ∃ out, Series.rolling_mean 0 xs = inr out ∧
         length out = length xs ∧
         ∀ t, (t < length xs)%nat → out !! t = Some NaN.
Proof.
  destruct (rolling_mean_ok 0 xs) as (out & Hout & Hlen);
    [split; [lia|reflexivity]|].
  exists out. split; [exact Hout|]. split; [exact Hlen|].
  intros t Ht.
  destruct (lookup_rolling_mean 0 xs t eq_refl Ht) as (out' & Hout' & _ & Hlook).
  change (Z.of_nat 0) with 0%Z in Hout'. rewrite Hout in Hout'.
  injection Hout' as <-. rewrite Hlook. cbv zeta.
  unfold Series.window_start, Series.slice.
  replace (S t - (S t - 0))%nat with 0%nat by lia. reflexivity.
Qed.

Lemma rolling_mean_zero_eq xs :
  Series.rolling_mean 0 xs = inr (replicate (length xs) NaN).
Proof.
  destruct (rolling_mean_zero xs) as (out & -> & Hlen & Hnan). f_equal.
  apply list_eq. intros t. destruct (decide (t < length xs)%nat) as [Ht|Ht].
  - rewrite (Hnan t Ht), lookup_replicate_2 by exact Ht. reflexivity.
  - rewrite lookup_ge_None_2 by lia.
    symmetry. apply lookup_ge_None_2. rewrite length_replicate. lia.
Qed.

Lemma rolling_std_zero_eq xs :
  Series.rolling_std qsqrt 0 xs = inr (replicate (length xs) NaN).
Proof.
  unfold Series.rolling_std. simpl. f_equal.
  apply list_eq. intros t. rewrite list_lookup_imap.
  destruct (decide (t < length xs)%nat) as [Ht|Ht].
  - destruct (lookup_lt_is_Some_2 xs t Ht) as [x ->]. simpl.
    rewrite lookup_replicate_2 by exact Ht. f_equal.
    unfold Series.window_start, Series.slice.
    change (Z.to_nat 0) with 0%nat.
    replace (S t - (S t - 0))%nat with 0%nat by lia. reflexivity.
  - rewrite (lookup_ge_None_2 xs) by lia. simpl.
    symmetry. apply lookup_ge_None_2. rewrite length_replicate. lia.
Qed.

(** The columns computed with a window of 0 are undefined on every
    bar. *)
Lemma zero_window_columns w l df close i key :
  heap w !! l = Some df →
  cols df !! "Close" = Some close →
  parameter_error (self w) i = None →
  (key, 0%Z) ∈ windowed_columns (self w) i →
  result_column (run_indicator qsqrt i l w) key
  = Some (replicate (length close) NaN).
Proof.
  intros Hl Hc Hvalid Hin.
  pose proof (run_indicator_spec qsqrt w l df close i Hl Hc) as Hspec.
  pose proof (indicator_columns_outcome qsqrt (self w) i close) as Hout.
  rewrite Hvalid in Hout. destruct Hout as [assigned Hout].
  rewrite Hout in Hspec. rewrite Hspec. simpl. rewrite lookup_insert_eq. simpl.
  clear Hspec.
  destruct i as [|period|fast slow signal|period std_dev]; simpl in Hin, Hout.
  - destruct (Series.rolling_mean (short_window (self w)) close) as [|s1] eqn:H1;
      [discriminate|].
    destruct (Series.rolling_mean (long_window (self w)) close) as [|s2] eqn:H2;
      [discriminate|].
    simpl in Hout. injection Hout as <-.
    apply elem_of_cons in Hin as [Hin|Hin].
    + injection Hin as -> Hw. rewrite <- Hw, rolling_mean_zero_eq in H1.
      injection H1 as <-. cbn.
      rewrite lookup_insert_ne by discriminate. apply lookup_insert_eq.
    + apply list_elem_of_singleton in Hin. injection Hin as -> Hw.
      rewrite <- Hw, rolling_mean_zero_eq in H2.
      injection H2 as <-. cbn. apply lookup_insert_eq.
  - apply list_elem_of_singleton in Hin. injection Hin as -> <-.
    unfold Strategy.rsi_gain, Strategy.rsi_loss in Hout.
    rewrite !rolling_mean_zero_eq in Hout. simpl in Hout. injection Hout as <-.
    cbn. rewrite lookup_insert_eq. f_equal.
    unfold rsi_column, Series.scalar_sub, Series.scalar_div, Series.scalar_add,
      Series.div, Series.neg, Series.where_, Series.gt_scalar, Series.lt_scalar.
    rewrite !length_fmap, !length_zip_with, !length_fmap, length_diff.
    rewrite Nat.min_id, zip_with_replicate, !fmap_replicate. reflexivity.
  - apply elem_of_nil in Hin. contradiction.
  - assert (Hp : period = 0%Z).
    { repeat (apply elem_of_cons in Hin as [Hin|Hin]; [congruence|]).
      apply elem_of_nil in Hin. contradiction. }
    subst period. rewrite rolling_mean_zero_eq, rolling_std_zero_eq in Hout.
    simpl in Hout. injection Hout as <-.
    unfold Series.add, Series.sub, Series.mul_scalar.
    rewrite !fmap_replicate, !zip_with_replicate.
    change (fadd NaN (fmul NaN (Fin std_dev))) with NaN.
    change (fsub NaN (fmul NaN (Fin std_dev))) with NaN.
    cbn.
    repeat (apply elem_of_cons in Hin as [Hin|Hin];
            [injection Hin as ->;
             repeat first [ rewrite lookup_insert_eq
                          | rewrite lookup_insert_ne by discriminate ];
             reflexivity|]).
    apply elem_of_nil in Hin. contradiction.
Qed.

(** C8, as the program has it.  No configuration value is validated by
    the strategy itself: the constructor stores any windows, and
    [backtest] returns a result set for every initial capital, positive
    or not.  An indicator calculation on a table with closes raises
    exactly when the windowing operation of pandas refuses one of its
    parameters, and with the error of the first refused parameter in
    program order: a [ValueError] for a negative window or period and for
    a span below 1, an [OverflowError] for a window or period of 2^63 or
    more (spans of 2^63 and more are left aside).  Every other value is
    accepted, and a window or period of 0 yields an undefined value on
    every bar of the columns computed with it. *)
Theorem configuration_is_not_validated w data df prices signal i
    (short long : Z) (ic : Qc) :
  heap w !! data = Some df →
  cols df !! "Close" = Some (close_column prices) →
  cols df !! "Signal" = Some signal →
  length signal = length prices →
  (0 < length prices)%nat →
  spans_fit i →
  Strategy.init short long = mkStrategy short long None None ∧
  (∃ res w', Strategy.backtest qsqrt data ic w = Ok res w') ∧
  match parameter_error (self w) i with
  | Some e => ∃ w', run_indicator qsqrt i data w = Raise e w'
  | None => ∃ l' w', run_indicator qsqrt i data w = Ok l' w'
  end ∧
  (parameter_error (self w) i = None ↔ valid_parameters (self w) i) ∧
  (∀ key, (key, 0%Z) ∈ windowed_columns (self w) i →
     parameter_error (self w) i = None →
     result_column (run_indicator qsqrt i data w) key
     = Some (replicate (length prices) NaN)).
Proof.
  intros Hl Hc Hs Hlen Hn _.
  split; [reflexivity|]. split.
  { remember (close_column prices) as close eqn:Eclose.
    assert (Hclen : length close = length prices)
      by (subst close; apply length_fmap).
    rewrite <- Hclen in Hlen, Hn.
    assert (Hpv : length (portfolio_path ic signal close) = length close)
      by (rewrite length_portfolio_path; apply length_strategy_returns, Hlen).
    destruct (lookup_lt_is_Some_2 (portfolio_path ic signal close)
                (Nat.pred (length (portfolio_path ic signal close))))
      as [final Hfinal]; [lia|].
    rewrite <- last_lookup in Hfinal.
    destruct (run_backtest qsqrt w data df _ _ ic final Hl Hc Hs Hfinal)
      as (res & w' & _ & Hrun & _).
    eauto. }
  split; [apply (run_indicator_outcome qsqrt w data df _ i Hl Hc)|].
  split; [apply parameter_error_valid|].
  intros key Hin Hvalid.
  rewrite <- (length_fmap Fin prices).
  apply (zero_window_columns w data df _ i key Hl Hc Hvalid Hin).
Qed.

End ConfigurationClaim.

Lemma configuration_is_not_validated_witness :
  Strategy.init 0 (-5) = mkStrategy 0 (-5) None None ∧
  (∃ res w',
     Strategy.backtest integer_sqrt 1%positive (of_Z (-1000)) example_signals_world
     = Ok res w') ∧
  (∃ res w',
     Strategy.backtest integer_sqrt 1%positive 0%Qc example_signals_world
     = Ok res w') ∧
  result_column
    (run_indicator integer_sqrt MovingAverages 1%positive (signals_world_with 0 0))
    "SMA_short" = Some (replicate 5 NaN) ∧
  result_column
    (run_indicator integer_sqrt MovingAverages 1%positive (signals_world_with 2 0))
    "SMA_long" = Some (replicate 5 NaN) ∧
  result_column
    (run_indicator integer_sqrt (Rsi 0) 1%positive example_signals_world)
    "RSI" = Some (replicate 5 NaN) ∧
  result_column
    (run_indicator integer_sqrt (BollingerBands 0 2) 1%positive example_signals_world)
    "BB_upper" = Some (replicate 5 NaN) ∧
  (∃ l' w',
     run_indicator integer_sqrt (Macd 12 26 9) 1%positive example_signals_world
     = Ok l' w') ∧
  (∃ w',
     run_indicator integer_sqrt MovingAverages 1%positive (signals_world_with (-1) 3)
     = Raise (ValueError "window must be an integer 0 or greater") w') ∧
  (∃ w',
     run_indicator integer_sqrt MovingAverages 1%positive (signals_world_with 2 (-3))
     = Raise (ValueError "window must be an integer 0 or greater") w') ∧
  (∃ w',
     run_indicator integer_sqrt MovingAverages 1%positive
       (signals_world_with 2 Series.int64_limit)
     = Raise OverflowError w') ∧
  (∃ w',
     run_indicator integer_sqrt (Rsi (-1)) 1%positive example_signals_world
     = Raise (ValueError "window must be an integer 0 or greater") w') ∧
  (∃ w',
     run_indicator integer_sqrt (Rsi Series.int64_limit) 1%positive
       example_signals_world
     = Raise OverflowError w') ∧
  (∃ w',
     run_indicator integer_sqrt (Macd 0 26 9) 1%positive example_signals_world
     = Raise (ValueError "span must satisfy: span >= 1") w') ∧
  (∃ w',
     run_indicator integer_sqrt (Macd 12 0 9) 1%positive example_signals_world
     = Raise (ValueError "span must satisfy: span >= 1") w') ∧
  (∃ w',
     run_indicator integer_sqrt (Macd 12 26 0) 1%positive example_signals_world
     = Raise (ValueError "span must satisfy: span >= 1") w') ∧
  (∃ w',
     run_indicator integer_sqrt (BollingerBands (-1) 2) 1%positive
       example_signals_world
     = Raise (ValueError "window must be an integer 0 or greater") w') ∧
  (∃ w',
     run_indicator integer_sqrt (BollingerBands Series.int64_limit 2) 1%positive
       example_signals_world
     = Raise OverflowError w').
Proof.
  pose proof (λ w i ic,
              configuration_is_not_validated integer_sqrt w 1%positive
                example_signals example_prices
                [Fin 0; Fin 0; Fin 1; Fin 1; Fin 1]%Qc i 0 (-5) ic) as H.
  split_and!.
  - apply (H example_signals_world MovingAverages 0%Qc);
      [reflexivity|reflexivity|reflexivity|reflexivity|simpl; lia|exact I].
  - apply (H example_signals_world MovingAverages (of_Z (-1000)));
      [reflexivity|reflexivity|reflexivity|reflexivity|simpl; lia|exact I].
  - apply (H example_signals_world MovingAverages 0%Qc);
      [reflexivity|reflexivity|reflexivity|reflexivity|simpl; lia|exact I].
  - apply (H (signals_world_with 0 0) MovingAverages 0%Qc);
      [reflexivity|reflexivity|reflexivity|reflexivity|simpl; lia|exact I
      |by_evaluation|reflexivity].
  - apply (H (signals_world_with 2 0) MovingAverages 0%Qc);
      [reflexivity|reflexivity|reflexivity|reflexivity|simpl; lia|exact I
      |by_evaluation|reflexivity].
  - apply (H example_signals_world (Rsi 0) 0%Qc);
      [reflexivity|reflexivity|reflexivity|reflexivity|simpl; lia|exact I
      |by_evaluation|reflexivity].
  - apply (H example_signals_world (BollingerBands 0 2) 0%Qc);
      [reflexivity|reflexivity|reflexivity|reflexivity|simpl; lia|exact I
      |by_evaluation|reflexivity].
  - apply (H example_signals_world (Macd 12 26 9) 0%Qc);
      [reflexivity|reflexivity|reflexivity|reflexivity|simpl; lia|repeat split].
  - apply (H (signals_world_with (-1) 3) MovingAverages 0%Qc);
      [reflexivity|reflexivity|reflexivity|reflexivity|simpl; lia|exact I].
  - apply (H (signals_world_with 2 (-3)) MovingAverages 0%Qc);
      [reflexivity|reflexivity|reflexivity|reflexivity|simpl; lia|exact I].
  - apply (H (signals_world_with 2 Series.int64_limit) MovingAverages 0%Qc);
      [reflexivity|reflexivity|reflexivity|reflexivity|simpl; lia|exact I].
  - apply (H example_signals_world (Rsi (-1)) 0%Qc);
      [reflexivity|reflexivity|reflexivity|reflexivity|simpl; lia|exact I].
  - apply (H example_signals_world (Rsi Series.int64_limit) 0%Qc);
      [reflexivity|reflexivity|reflexivity|reflexivity|simpl; lia|exact I].
  - apply (H example_signals_world (Macd 0 26 9) 0%Qc);
      [reflexivity|reflexivity|reflexivity|reflexivity|simpl; lia|repeat split].
  - apply (H example_signals_world (Macd 12 0 9) 0%Qc);
      [reflexivity|reflexivity|reflexivity|reflexivity|simpl; lia|repeat split].
  - apply (H example_signals_world (Macd 12 26 0) 0%Qc);
      [reflexivity|reflexivity|reflexivity|reflexivity|simpl; lia|repeat split].
  - apply (H example_signals_world (BollingerBands (-1) 2) 0%Qc);
      [reflexivity|reflexivity|reflexivity|reflexivity|simpl; lia|exact I].
  - apply (H example_signals_world (BollingerBands Series.int64_limit 2) 0%Qc);
      [reflexivity|reflexivity|reflexivity|reflexivity|simpl; lia|exact I].
Defined.

(** C8 as stated fails: with windows 0 and 0 the strategy is built and its
    moving averages are computed, every bar undefined; and with an initial
    capital of 0, or of -1000, [backtest] returns a result set. *)
Lemma invalid_configuration_is_accepted :
  Strategy.init 0 0 = mkStrategy 0 0 None None ∧
  result_column
    (Strategy.calculate_moving_averages 1%positive (world_of_prices 0 0 example_prices))
    "SMA_short" = Some [NaN; NaN; NaN; NaN; NaN] ∧
  (∃ res w',
     Strategy.backtest integer_sqrt 1%positive 0%Qc example_signals_world = Ok res w' ∧
     total_return res = NaN ∧
     final_portfolio_value res = Fin 0%Qc) ∧
  (∃ res w',
     Strategy.backtest integer_sqrt 1%positive (of_Z (-1000)) example_signals_world
       = Ok res w' ∧
     total_return res = Fin (ratio 6 101) ∧
     final_portfolio_value res = Fin (ratio (-107000) 101)).
Proof.
  split; [reflexivity|]. split; [by_evaluation|]. split.
  - eexists _, _. split; [vm_compute; reflexivity|]. split; by_evaluation.
  - eexists _, _. split; [vm_compute; reflexivity|]. split; by_evaluation.
Qed.

(** ** The outcome of [backtest], case by case *)

Section BacktestSpec.

Variable qsqrt : Qc → fval.

Lemma run_iloc_last_empty (xs : column) w :
  last xs = None → lift (Series.iloc_last xs) w = Raise out_of_bounds w.
Proof. intros H. unfold Series.iloc_last. rewrite H. reflexivity. Qed.

Lemma backtest_spec w l df ic :
  heap w !! l = Some df →
  match cols df !! "Close", cols df !! "Signal" with
  | None, _ => fails_with (Strategy.backtest qsqrt l ic) w (KeyError "Close")
  | Some _, None => fails_with (Strategy.backtest qsqrt l ic) w (KeyError "Signal")
  | Some close, Some signal =>
      let pv := portfolio_path ic signal close in
      match last pv with
      | None =>
          ∃ w', Strategy.backtest qsqrt l ic w = Raise out_of_bounds w' ∧
                portfolio_value (self w') = Some pv
      | Some pv_last =>
          ∃ w', Strategy.backtest qsqrt l ic w
                = Ok (backtest_results qsqrt ic signal close pv_last) w' ∧
                portfolio_value (self w') = Some pv
      end
  end.
Proof.
  intros Hl.
  destruct (cols df !! "Close") as [close|] eqn:Hc;
    [destruct (cols df !! "Signal") as [signal|] eqn:Hs|].
  - cbv zeta. destruct (last (portfolio_path ic signal close)) as [pv_last|] eqn:Hlast.
    + destruct (exec_backtest qsqrt w l df close signal ic pv_last Hl Hc Hs Hlast)
        as [table Hrun].
      eexists. split; [exact Hrun|reflexivity].
    + unfold Strategy.backtest. do 14 run_step.
      rewrite run_bind.
      change (Series.scalar_mul (Fin ic)
                (Series.cumprod
                   (Series.scalar_add (Fin 1%Qc)
                      (Series.mul (Series.shift1 signal) (Series.pct_change close)))))
        with (portfolio_path ic signal close).
      rewrite (run_iloc_last_empty _ _ Hlast).
      eexists. split; reflexivity.
  - unfold fails_with, Strategy.backtest. do 4 run_step. run_missing.
    eexists. split; reflexivity.
  - unfold fails_with, Strategy.backtest. do 2 run_step. run_missing.
    eexists. split; reflexivity.
Qed.

(** X13.  [backtest] reads the columns [Close] and [Signal] and nothing
    else: on two tables with the same [Close] and the same [Signal], in
    any two stores and with any two strategy objects, it raises the same
    error or returns the same result set and caches the same portfolio
    path. *)
Theorem backtest_reads_only_close_and_signal w1 w2 d1 d2 df1 df2 ic :
  heap w1 !! d1 = Some df1 →
  heap w2 !! d2 = Some df2 →
  cols df1 !! "Close" = cols df2 !! "Close" →
  cols df1 !! "Signal" = cols df2 !! "Signal" →
  match Strategy.backtest qsqrt d1 ic w1, Strategy.backtest qsqrt d2 ic w2 with
  | Ok res1 w1', Ok res2 w2' =>
      res1 = res2 ∧ portfolio_value (self w1') = portfolio_value (self w2')
  | Raise e1 _, Raise e2 _ => e1 = e2
  | _, _ => False
  end.
Proof.
  intros H1 H2 Hc Hs.
  pose proof (backtest_spec w1 d1 df1 ic H1) as S1.
  pose proof (backtest_spec w2 d2 df2 ic H2) as S2.
  rewrite <- Hc, <- Hs in S2.
  destruct (cols df1 !! "Close") as [close|].
  2: { destruct S1 as (? & -> & _), S2 as (? & -> & _). reflexivity. }
  destruct (cols df1 !! "Signal") as [signal|].
  2: { destruct S1 as (? & -> & _), S2 as (? & -> & _). reflexivity. }
  cbv zeta in S1, S2.
  destruct (last (portfolio_path ic signal close)) as [pv_last|].
  - destruct S1 as (? & -> & Hpv1), S2 as (? & -> & Hpv2).
    split; [reflexivity|congruence].
  - destruct S1 as (? & -> & _), S2 as (? & -> & _). reflexivity.
Qed.

End BacktestSpec.

(** X14.  [generate_signals] applied to the table it returned returns a
    second new table with the same rows and columns; the first table
    stays in the store unchanged, and the cache then refers to the
    second. *)
Theorem generate_signals_is_idempotent w data df sma_short sma_long :
  heap w !! data = Some df →
  cols df !! "SMA_short" = Some sma_short →
  cols df !! "SMA_long" = Some sma_long →
  ∃ l1 w1 l2 w2 table,
    Strategy.generate_signals data w = Ok l1 w1 ∧
    Strategy.generate_signals l1 w1 = Ok l2 w2 ∧
    l1 ≠ l2 ∧
    heap w1 !! l1 = Some table ∧
    heap w2 !! l1 = Some table ∧
    heap w2 !! l2 = Some table ∧
    signals (self w2) = Some l2.
Proof.
  intros Hl Hs Hg.
  destruct (generate_signals_returns w data df sma_short sma_long Hl Hs Hg)
    as (table & Hrun1 & Hn & Hsig & Hpos & Hother).
  set (l1 := fresh (dom (heap w))) in *.
  set (w1 := mkWorld _ _) in Hrun1.
  assert (Hl1 : heap w1 !! l1 = Some table) by apply lookup_insert_eq.
  destruct (generate_signals_returns w1 l1 table sma_short sma_long Hl1)
    as (table2 & Hrun2 & Hn2 & Hsig2 & Hpos2 & Hother2).
  { rewrite Hother by discriminate. exact Hs. }
  { rewrite Hother by discriminate. exact Hg. }
  set (l2 := fresh (dom (heap w1))) in *.
  set (w2 := mkWorld _ _) in Hrun2.
  assert (Hne : l1 ≠ l2).
  { intros Heq. pose proof (is_fresh (dom (heap w1))) as Hfresh.
    fold l2 in Hfresh. rewrite <- Heq in Hfresh.
    apply Hfresh. apply elem_of_dom. eauto. }
  assert (Heq : table2 = table).
  { destruct table as [n c], table2 as [n2 c2]. simpl in *. f_equal; [lia|].
    apply map_eq. intros key.
    destruct (decide (key = "Signal")) as [->|H1]; [congruence|].
    destruct (decide (key = "Position")) as [->|H2]; [congruence|].
    apply Hother2; assumption. }
  exists l1, w1, l2, w2, table. split_and!; try assumption; try reflexivity.
  - unfold w2. simpl. rewrite lookup_insert_ne by (intros E; apply Hne; symmetry; exact E).
    exact Hl1.
  - unfold w2. simpl. rewrite lookup_insert_eq, Heq. reflexivity.
Qed.

Lemma backtest_reads_only_close_and_signal_witness :
  match Strategy.backtest integer_sqrt 1%positive (of_Z 1000) example_signals_world,
        Strategy.backtest integer_sqrt 1%positive (of_Z 1000)
          (world_of_table example_positions) with
  | Ok res1 w1', Ok res2 w2' =>
      res1 = res2 ∧ portfolio_value (self w1') = portfolio_value (self w2')
  | Raise e1 _, Raise e2 _ => e1 = e2
  | _, _ => False
  end.
Proof.
  apply (backtest_reads_only_close_and_signal integer_sqrt example_signals_world
           (world_of_table example_positions) 1%positive 1%positive
           example_signals example_positions (of_Z 1000));
    reflexivity.
Defined.

Lemma generate_signals_is_idempotent_witness :
  ∃ l1 w1 l2 w2 table,
    Strategy.generate_signals 1%positive example_averages_world = Ok l1 w1 ∧
    Strategy.generate_signals l1 w1 = Ok l2 w2 ∧
    l1 ≠ l2 ∧
    heap w1 !! l1 = Some table ∧
    heap w2 !! l1 = Some table ∧
    heap w2 !! l2 = Some table ∧
    signals (self w2) = Some l2.
Proof.
  apply (generate_signals_is_idempotent example_averages_world 1%positive
           example_averages
           [NaN; Fin (of_Z 101); Fin (ratio 203 2); Fin (of_Z 103); Fin (of_Z 106)]
           [NaN; NaN; Fin (of_Z 101); Fin (ratio 308 3); Fin (ratio 313 3)]);
    reflexivity.
Defined.

(** ** Bollinger bands *)

Section Bollinger.

Local Open Scope Qc_scope.

Variable qsqrt : Qc → fval.


Lemma length_close_column prices : length (close_column prices) = length prices.
Proof. apply length_fmap. Qed.






End Bollinger.



(** ** A backtest whose strategy returns are all zero *)

Section Flat.

Local Open Scope Qc_scope.

Variable qsqrt : Qc → fval.

Lemma of_nat_nonzero n : (0 < n)%nat → of_nat n ≠ 0.
Proof. intros H. apply not_eq_sym, Qclt_not_eq, of_nat_pos, H. Qed.













End Flat.

(** ** Edge cases of [backtest] *)

Section BacktestEdges.

Local Open Scope Qc_scope.

Variable qsqrt : Qc → fval.




Lemma observations_short x :
  (length (Series.observations [NaN; x]) ≤ 1)%nat.
Proof.
  unfold Series.observations.
  rewrite filter_cons_False by (simpl; discriminate).
  destruct (notnan x) eqn:Hx.
  - rewrite filter_cons_True by exact Hx. simpl. lia.
  - rewrite filter_cons_False by (rewrite Hx; discriminate). simpl. lia.
Qed.

Lemma std_of_few_observations xs :
  (length (Series.observations xs) ≤ 1)%nat → Series.std qsqrt xs = NaN.
Proof.
  intros H. unfold Series.std, Series.var.
  rewrite bool_decide_eq_true_2 by exact H. reflexivity.
Qed.

(** X17.  A backtest of one or two bars has at most one strategy return,
    hence no sample deviation: the annual volatility is undefined and the
    Sharpe ratio is 0, whatever the closes and signals are.  With a single
    bar every other figure of the result set is undefined too. *)
Theorem short_history_has_no_sharpe_ratio w data df close signal ic :
  heap w !! data = Some df →
  cols df !! "Close" = Some close →
  cols df !! "Signal" = Some signal →
  length signal = length close →
  (1 ≤ length close ≤ 2)%nat →
  ∃ res w',
    Strategy.backtest qsqrt data ic w = Ok res w' ∧
    annual_volatility res = NaN ∧
    sharpe_ratio res = Fin 0 ∧
    (length close = 1%nat →
     total_return res = NaN ∧ annual_return res = NaN ∧
     max_drawdown res = NaN ∧ final_portfolio_value res = NaN ∧
     portfolio_value (self w') = Some [NaN]).
Proof.
  intros Hl Hc Hs Hlen Hn.
  assert (Hplen : length (portfolio_path ic signal close) = length close).
  { rewrite length_portfolio_path. apply length_strategy_returns, Hlen. }
  destruct (last_is_Some (portfolio_path ic signal close)) as [final Hlast];
    [lia|].
  destruct (exec_backtest qsqrt w data df close signal ic final Hl Hc Hs Hlast)
    as [table Hrun].
  eexists _, _. split; [exact Hrun|].
  assert (Hstd : Series.std qsqrt (strategy_returns signal close) = NaN).
  { apply std_of_few_observations.
    clear Hplen Hlast Hrun.
    destruct close as [|c0 [|c1 [|? ?]]], signal as [|s0 [|s1 [|? ?]]];
      simpl in Hlen, Hn; try lia.
    - assert (Hsr : strategy_returns [s0] [c0] = [NaN]) by reflexivity.
      rewrite Hsr. unfold Series.observations.
      rewrite filter_cons_False by (simpl; discriminate). simpl. lia.
    - assert (Hsr : ∃ x, strategy_returns [s0; s1] [c0; c1] = [NaN; x])
        by (eexists; reflexivity).
      destruct Hsr as [x ->]. apply observations_short. }
  unfold backtest_results. cbn [annual_volatility sharpe_ratio total_return
    annual_return max_drawdown final_portfolio_value].
  rewrite Hstd. split; [reflexivity|]. split; [reflexivity|].
  intros H1.
  destruct close as [|c0 [|? ?]], signal as [|s0 [|? ?]];
    simpl in Hlen, H1; try lia.
  assert (Hsr : strategy_returns [s0] [c0] = [NaN]) by reflexivity.
  assert (Hpath : portfolio_path ic [s0] [c0] = [NaN]) by reflexivity.
  rewrite Hpath in Hlast. injection Hlast as <-.
  rewrite Hsr, Hpath. split_and!; reflexivity.
Qed.

Lemma Qc_nonzero_cases q : q ≠ 0 → 0 < q ∨ q < 0.
Proof.
  intros Hq. destruct (Qclt_le_dec 0 q) as [H|H]; [left; exact H|right].
  destruct (Qcle_lt_or_eq _ _ H) as [H'|H']; [exact H'|contradiction].
Qed.

Lemma Qclt_asym p q : p < q → ¬ q < p.
Proof. intros H H'. eapply Qclt_irreflexive, Qclt_trans; eassumption. Qed.

Lemma signed_inf_pos q : 0 < q → signed_inf q = PInf.
Proof. intros H. unfold signed_inf. rewrite bool_decide_eq_true_2 by exact H. reflexivity. Qed.

Lemma signed_inf_neg q : q < 0 → signed_inf q = NInf.
Proof.
  intros H. unfold signed_inf.
  rewrite bool_decide_eq_false_2 by (apply Qclt_asym, H).
  rewrite bool_decide_eq_true_2 by exact H. reflexivity.
Qed.

Lemma Qcopp_pos q : q < 0 → 0 < - q.
Proof. intros H. apply Qclt_minus_iff in H. replace (- q) with (0 + - q) by ring. exact H. Qed.

Lemma Qcopp_neg q : 0 < q → - q < 0.
Proof.
  intros H. apply Qclt_minus_iff. replace (0 + - - q) with q by ring. exact H.
Qed.

Lemma total_return_of_growth ic g :
  ic ≠ 0 →
  fdiv (fsub (fmul (Fin ic) g) (Fin ic)) (Fin ic) = fsub g (Fin 1).
Proof.
  intros Hic. destruct g as [| | |g]; [reflexivity| | |].
  - cbn [fmul].
    destruct (Qc_nonzero_cases ic Hic) as [Hpos|Hneg].
    + rewrite (signed_inf_pos ic Hpos). simpl.
      rewrite bool_decide_eq_false_2 by (apply Qclt_asym, Hpos). reflexivity.
    + rewrite (signed_inf_neg ic Hneg). simpl.
      rewrite bool_decide_eq_true_2 by exact Hneg. reflexivity.
  - cbn [fmul].
    destruct (Qc_nonzero_cases ic Hic) as [Hpos|Hneg].
    + rewrite (signed_inf_neg (- ic) (Qcopp_neg ic Hpos)). simpl.
      rewrite bool_decide_eq_false_2 by (apply Qclt_asym, Hpos). reflexivity.
    + rewrite (signed_inf_pos (- ic) (Qcopp_pos ic Hneg)). simpl.
      rewrite bool_decide_eq_true_2 by exact Hneg. reflexivity.
  - simpl. unfold fdiv. rewrite bool_decide_eq_false_2 by exact Hic.
    f_equal. field. exact Hic.
Qed.

(** X18.  For every initial capital other than 0, the final portfolio
    value is the initial capital times the last cumulative return, and
    the total return is that last cumulative return minus 1: it does not
    depend on the initial capital, also when the cumulative return is
    infinite or undefined. *)
Theorem total_return_is_growth_minus_one w data df close signal ic :
  heap w !! data = Some df →
  cols df !! "Close" = Some close →
  cols df !! "Signal" = Some signal →
  length signal = length close →
  (0 < length close)%nat →
  ic ≠ 0 →
  ∃ res w' growth,
    Strategy.backtest qsqrt data ic w = Ok res w' ∧
    last (cumulative_returns signal close) = Some growth ∧
    final_portfolio_value res = fmul (Fin ic) growth ∧
    total_return res = fsub growth (Fin 1).
Proof.
  intros Hl Hc Hs Hlen Hn Hic.
  assert (Hclen : length (cumulative_returns signal close) = length close).
  { unfold cumulative_returns, Series.cumprod, Series.scalar_add.
    rewrite length_cumprod_from, length_fmap.
    apply length_strategy_returns, Hlen. }
  destruct (last_is_Some (cumulative_returns signal close)) as [growth Hg]; [lia|].
  assert (Hlast : last (portfolio_path ic signal close)
                  = Some (fmul (Fin ic) growth)).
  { change (portfolio_path ic signal close)
      with (fmul (Fin ic) <$> cumulative_returns signal close).
    rewrite fmap_last, Hg. reflexivity. }
  destruct (exec_backtest qsqrt w data df close signal ic _ Hl Hc Hs Hlast)
    as [table Hrun].
  eexists _, _, growth. split; [exact Hrun|]. split; [exact Hg|].
  split; [reflexivity|]. apply total_return_of_growth, Hic.
Qed.

End BacktestEdges.


Lemma short_history_has_no_sharpe_ratio_witness :
  ∃ res w',
    Strategy.backtest integer_sqrt 1%positive (of_Z 1000) short_doubling_world
      = Ok res w' ∧
    annual_volatility res = NaN ∧
    sharpe_ratio res = Fin 0%Qc ∧
    (length (close_column [of_Z 1; of_Z 2]) = 1%nat →
     total_return res = NaN ∧ annual_return res = NaN ∧
     max_drawdown res = NaN ∧ final_portfolio_value res = NaN ∧
     portfolio_value (self w') = Some [NaN]).
Proof.
  apply (short_history_has_no_sharpe_ratio integer_sqrt short_doubling_world
           1%positive (table_of_signals [of_Z 1; of_Z 2] [of_Z (-1); of_Z (-1)])
           (close_column [of_Z 1; of_Z 2]) (close_column [of_Z (-1); of_Z (-1)])
           (of_Z 1000));
    [reflexivity | reflexivity | reflexivity | reflexivity | simpl; lia].
Defined.

Lemma total_return_is_growth_minus_one_witness :
  ∃ res w' growth,
    Strategy.backtest integer_sqrt 1%positive (of_Z 1000) example_signals_world
      = Ok res w' ∧
    last (cumulative_returns [Fin 0; Fin 0; Fin 1; Fin 1; Fin 1]%Qc
            (close_column example_prices)) = Some growth ∧
    final_portfolio_value res = fmul (Fin (of_Z 1000)) growth ∧
    total_return res = fsub growth (Fin 1%Qc).
Proof.
  apply (total_return_is_growth_minus_one integer_sqrt example_signals_world
           1%positive example_signals (close_column example_prices)
           [Fin 0; Fin 0; Fin 1; Fin 1; Fin 1]%Qc (of_Z 1000));
    [reflexivity | reflexivity | reflexivity | reflexivity | simpl; lia
    | by_evaluation].
Defined.

(** ** Indicators of a price that does not move *)

Section FlatPrices.

Local Open Scope Qc_scope.

Lemma ewm_loop_constant beta c wt nobs k :
  (1 ≤ nobs)%nat →
  Series.ewm_loop beta (Fin c, wt, nobs) (replicate k (Fin c)) = replicate k (Fin c).
Proof.
  revert wt nobs. induction k as [|k IH]; intros wt nobs Hn; [reflexivity|].
  cbn [replicate Series.ewm_loop Series.ewm_step notnan].
  rewrite bool_decide_eq_false_2 by (intros H; apply H; reflexivity).
  unfold Series.ewm_output. cbn [fst snd].
  rewrite bool_decide_eq_true_2 by lia.
  f_equal. apply IH. lia.
Qed.

Lemma prep_values_replicate k c :
  Series.prep_values (replicate k (Fin c)) = replicate k (Fin c).
Proof. unfold Series.prep_values. rewrite fmap_replicate. reflexivity. Qed.

Lemma ewm_mean_constant span c n :
  (1 ≤ span)%Z →
  Series.ewm_mean span (replicate n (Fin c)) = inr (replicate n (Fin c)).
Proof.
  intros Hs. unfold Series.ewm_mean.
  destruct (Z.ltb_spec span 1) as [|_]; [lia|].
  rewrite prep_values_replicate.
  destruct n as [|n]; [reflexivity|].
  cbn [replicate notnan]. unfold Series.ewm_output at 1. cbn [fst snd].
  rewrite bool_decide_eq_true_2 by lia.
  rewrite ewm_loop_constant by lia. reflexivity.
Qed.

Lemma sub_replicate n a b :
  Series.sub (replicate n (Fin a)) (replicate n (Fin b)) = replicate n (Fin (a - b)).
Proof. unfold Series.sub. rewrite zip_with_replicate. reflexivity. Qed.

(** X19.  On closes that are all equal and spans of at least 1, both
    EMAs equal the close on every bar, and [MACD], [Signal_line] and
    [MACD_hist] are 0 on every bar. *)
Theorem macd_of_flat_prices_is_zero w data df n c fast slow signal :
  heap w !! data = Some df →
  cols df !! "Close" = Some (replicate n (Fin c)) →
  (1 ≤ fast)%Z → (1 ≤ slow)%Z → (1 ≤ signal)%Z →
  let o := Strategy.calculate_macd data fast slow signal w in
  result_column o "EMA_fast" = Some (replicate n (Fin c)) ∧
  result_column o "EMA_slow" = Some (replicate n (Fin c)) ∧
  result_column o "MACD" = Some (replicate n (Fin 0)) ∧
  result_column o "Signal_line" = Some (replicate n (Fin 0)) ∧
  result_column o "MACD_hist" = Some (replicate n (Fin 0)).
Proof.
  intros Hl Hc Hf Hs Hg. cbv zeta.
  assert (Hmacd : Series.sub (replicate n (Fin c)) (replicate n (Fin c))
                  = replicate n (Fin 0)).
  { rewrite sub_replicate. do 2 f_equal. ring. }
  assert (Hhist : Series.sub (replicate n (Fin 0)) (replicate n (Fin 0))
                  = replicate n (Fin 0)).
  { rewrite sub_replicate. do 2 f_equal. }
  destruct (run_calculate_macd w data df _ fast slow signal
              (replicate n (Fin c)) (replicate n (Fin c)) (replicate n (Fin 0)) Hl Hc)
    as (l' & w' & Hrun & H1 & H2 & H3 & H4 & H5).
  - apply ewm_mean_constant, Hf.
  - apply ewm_mean_constant, Hs.
  - rewrite Hmacd. apply ewm_mean_constant, Hg.
  - rewrite Hrun. rewrite Hmacd in H3, H5. rewrite Hhist in H5. auto.
Qed.

Lemma diff_replicate n c :
  Series.diff (replicate (S n) (Fin c)) = NaN :: replicate n (Fin 0).
Proof.
  apply list_eq. intros [|t].
  - rewrite lookup_diff_0 by discriminate. reflexivity.
  - change ((NaN :: replicate n (Fin 0)) !! S t) with (replicate n (Fin 0) !! t).
    destruct (decide (t < n)%nat) as [Ht|Ht].
    + rewrite (lookup_diff_S _ t (Fin c) (Fin c))
        by (apply lookup_replicate_2; lia).
      rewrite lookup_replicate_2 by exact Ht. simpl. do 2 f_equal. ring.
    + rewrite lookup_ge_None_2 by (rewrite length_diff, length_replicate; lia).
      symmetry. apply lookup_ge_None_2. rewrite length_replicate. lia.
Qed.

Lemma gains_of_flat_prices n :
  Series.where_ (NaN :: replicate n (Fin 0))
    (Series.gt_scalar (NaN :: replicate n (Fin 0)) (Fin 0)) (Fin 0)
  = replicate (S n) (Fin 0).
Proof.
  unfold Series.where_, Series.gt_scalar.
  rewrite fmap_cons, fmap_replicate. cbn [zip_with replicate]. f_equal.
  rewrite zip_with_replicate. reflexivity.
Qed.

Lemma losses_of_flat_prices n :
  Series.neg (Series.where_ (NaN :: replicate n (Fin 0))
    (Series.lt_scalar (NaN :: replicate n (Fin 0)) (Fin 0)) (Fin 0))
  = replicate (S n) (Fin 0).
Proof.
  unfold Series.where_, Series.lt_scalar, Series.neg.
  rewrite fmap_cons, fmap_replicate. cbn [zip_with replicate].
  rewrite zip_with_replicate, fmap_cons, fmap_replicate.
  assert (H0 : fneg (Fin 0) = Fin 0) by (simpl; f_equal; ring).
  change (flt NaN (Fin 0)) with false. cbv iota.
  destruct (flt (Fin 0) (Fin 0)); rewrite H0; reflexivity.
Qed.

Lemma sum_fin_zeros xs : Forall (λ v, v = Fin 0) xs → sum_fin xs = 0.
Proof.
  induction 1 as [|x xs -> _ IH]; [reflexivity|]. simpl. rewrite IH. ring.
Qed.

Lemma rolling_mean_of_zeros period n out t v :
  Series.rolling_mean period (replicate n (Fin 0)) = inr out →
  out !! t = Some v →
  v = NaN ∨ v = Fin 0.
Proof.
  intros Hout Hv.
  assert (Hp : valid_window period)
    by (apply (proj2 (rolling_mean_inr_iff period (replicate n (Fin 0)))); eauto).
  destruct Hp as [Hp Hfit].
  assert (Ht : (t < n)%nat).
  { apply lookup_lt_Some in Hv. apply length_rolling_mean in Hout.
    rewrite length_replicate in Hout. lia. }
  destruct (lookup_rolling_mean (Z.to_nat period) (replicate n (Fin 0)) t)
    as (out' & Hout' & _ & Hlook); [lia|rewrite length_replicate; exact Ht|].
  rewrite Z2Nat.id in Hout' by exact Hp. rewrite Hout in Hout'.
  injection Hout' as <-. rewrite Hlook in Hv. injection Hv as <-.
  cbv zeta. rewrite prep_values_replicate.
  rewrite sum_fin_zeros
    by (unfold Series.slice; apply Forall_take, Forall_drop, Forall_replicate;
        reflexivity).
  unfold Series.calc_mean. cbn [fst snd].
  case_bool_decide; [right|left; reflexivity].
  f_equal. unfold Qcdiv. ring.
Qed.

(** X20.  On closes that are all equal the [RSI] is undefined on every
    bar, for every period from 0 to 2^63 - 1: there is neither a gain nor
    a loss, and the ratio of the two averages is 0/0. *)
Theorem flat_prices_have_no_rsi w data df n c period :
  heap w !! data = Some df →
  cols df !! "Close" = Some (replicate n (Fin c)) →
  (0 ≤ period < Series.int64_limit)%Z →
  result_column (Strategy.calculate_rsi data period w) "RSI" = Some (replicate n NaN).
Proof.
  intros Hl Hc Hp.
  destruct (rolling_mean_ok period
              (Series.where_ (Series.diff (replicate n (Fin c)))
                 (Series.gt_scalar (Series.diff (replicate n (Fin c))) (Fin 0)) (Fin 0))
              Hp) as (gain & Hg & Hglen).
  destruct (rolling_mean_ok period
              (Series.neg
                 (Series.where_ (Series.diff (replicate n (Fin c)))
                    (Series.lt_scalar (Series.diff (replicate n (Fin c))) (Fin 0))
                    (Fin 0)))
              Hp) as (loss & Hs & Hslen).
  destruct (run_calculate_rsi w data df _ period gain loss Hl Hc Hg Hs)
    as (l' & w' & Hrun & Hrsi).
  rewrite Hrun, Hrsi. f_equal.
  destruct n as [|n].
  { simpl in Hglen. destruct gain; [reflexivity|discriminate]. }
  rewrite diff_replicate in Hg, Hs, Hglen, Hslen.
  rewrite gains_of_flat_prices in Hg, Hglen.
  rewrite losses_of_flat_prices in Hs, Hslen.
  rewrite length_replicate in Hglen, Hslen.
  apply list_eq. intros t. rewrite lookup_zip_with.
  destruct (decide (t < S n)%nat) as [Ht|Ht].
  - rewrite lookup_replicate_2 by exact Ht.
    destruct (lookup_lt_is_Some_2 gain t) as [g Hgt]; [lia|].
    destruct (lookup_lt_is_Some_2 loss t) as [l Hlt]; [lia|].
    rewrite Hgt, Hlt. simpl. f_equal.
    destruct (rolling_mean_of_zeros _ _ _ _ _ Hg Hgt) as [-> | ->];
      [apply rsi_value_nan_l|].
    destruct (rolling_mean_of_zeros _ _ _ _ _ Hs Hlt) as [-> | ->];
      [apply rsi_value_nan_r|].
    reflexivity.
  - rewrite (lookup_ge_None_2 gain) by lia.
    transitivity (@None fval); [reflexivity|].
    symmetry. apply lookup_ge_None_2. rewrite length_replicate. lia.
Qed.

End FlatPrices.

Lemma macd_of_flat_prices_is_zero_witness :
  let o := Strategy.calculate_macd 1%positive 12 26 9 flat_world in
  result_column o "EMA_fast" = Some (replicate 4 (Fin (of_Z 50))) ∧
  result_column o "EMA_slow" = Some (replicate 4 (Fin (of_Z 50))) ∧
  result_column o "MACD" = Some (replicate 4 (Fin 0%Qc)) ∧
  result_column o "Signal_line" = Some (replicate 4 (Fin 0%Qc)) ∧
  result_column o "MACD_hist" = Some (replicate 4 (Fin 0%Qc)).
Proof.
  apply (macd_of_flat_prices_is_zero flat_world 1%positive
           (table_of_prices flat_prices) 4 (of_Z 50) 12 26 9);
    [reflexivity | reflexivity | lia | lia | lia].
Defined.

Lemma flat_prices_have_no_rsi_witness :
  result_column (Strategy.calculate_rsi 1%positive 2 flat_world) "RSI"
  = Some (replicate 4 NaN).
Proof.
  apply (flat_prices_have_no_rsi flat_world 1%positive
           (table_of_prices flat_prices) 4 (of_Z 50) 2);
    [reflexivity | reflexivity | split; [lia|reflexivity]].
Defined.

(** ** The stages one after the other *)

Section Pipeline.

Local Open Scope Qc_scope.

Variable qsqrt : Qc → fval.

Lemma signals_pipeline_returns w data df close s1 s2 :
  heap w !! data = Some df →
  cols df !! "Close" = Some close →
  Series.rolling_mean (short_window (self w)) close = inr s1 →
  Series.rolling_mean (long_window (self w)) close = inr s2 →
  ∃ l1 t1 l2 table,
    signals_pipeline data w =
      Ok l2 (mkWorld (<[l2 := table]> (<[l1 := t1]> (heap w)))
               (mkStrategy (short_window (self w)) (long_window (self w)) (Some l2)
                  (portfolio_value (self w)))) ∧
    heap w !! l1 = None ∧
    (<[l1 := t1]> (heap w)) !! l2 = None ∧
    nrows table = nrows df ∧
    cols table !! "Close" = Some close ∧
    cols table !! "Signal" = Some (crossover_signal (nrows df) s1 s2) ∧
    cols table !! "Position"
      = Some (Series.diff (crossover_signal (nrows df) s1 s2)) ∧
    cols table !! "SMA_short" = Some s1 ∧
    cols table !! "SMA_long" = Some s2.
Proof.
  intros Hl Hc H1 H2. unfold signals_pipeline. rewrite run_bind.
  rewrite (exec_calculate_moving_averages w data df close s1 s2 Hl Hc H1 H2).
  set (l1 := fresh (dom (heap w))).
  set (t1 := with_columns [("SMA_short", s1); ("SMA_long", s2)] df).
  set (w1 := mkWorld (<[l1 := t1]> (heap w)) (self w)).
  assert (Hl1 : heap w1 !! l1 = Some t1) by apply lookup_insert_eq.
  destruct (generate_signals_returns w1 l1 t1 s1 s2 Hl1)
    as (table & Hrun & Hn & Hsig & Hpos & Hother).
  { unfold t1. cbn. rewrite lookup_insert_ne by discriminate. apply lookup_insert_eq. }
  { unfold t1. cbn. apply lookup_insert_eq. }
  exists l1, t1, (fresh (dom (heap w1))), table.
  split; [exact Hrun|].
  split; [apply not_elem_of_dom, is_fresh|].
  split; [apply (not_elem_of_dom (D := gset loc)), is_fresh|].
  split; [exact Hn|].
  split.
  { rewrite Hother by discriminate. unfold t1. cbn.
    rewrite !lookup_insert_ne by discriminate. exact Hc. }
  split; [exact Hsig|]. split; [exact Hpos|].
  split; rewrite Hother by discriminate; unfold t1; cbn.
  - rewrite lookup_insert_ne by discriminate. apply lookup_insert_eq.
  - apply lookup_insert_eq.
Qed.

Lemma signal_of_means x y :
  signal_value (Fin x) (Fin y) = if bool_decide (y < x) then Fin 1 else Fin (- (1)).
Proof. rewrite signal_value_defined by reflexivity. reflexivity. Qed.

Lemma Fin_0_ne_1 : Fin 0 ≠ Fin 1.
Proof. by_evaluation. Qed.

Lemma Fin_m1_ne_1 : Fin (- (1)) ≠ Fin 1.
Proof. by_evaluation. Qed.

Lemma crossover_of_trailing_means prices sw lw s1 s2 t :
  is_trailing_mean prices sw s1 →
  is_trailing_mean prices lw s2 →
  (t < length prices)%nat →
  crossover_signal (length prices) s1 s2 !! t = Some
    (if bool_decide (t < sw `max` lw - 1)%nat then Fin 0
     else if bool_decide (arithmetic_mean (trailing_window prices lw t)
                          < arithmetic_mean (trailing_window prices sw t))
          then Fin 1 else Fin (- (1))).
Proof.
  intros [Hlen1 Hm1] [Hlen2 Hm2] Ht.
  rewrite (lookup_crossover_signal _ _ _ t _ _ Ht (Hm1 t Ht) (Hm2 t Ht)).
  f_equal.
  destruct (decide (t < sw - 1)%nat) as [Ha|Ha].
  - rewrite (bool_decide_eq_true_2 (t < sw - 1)%nat) by exact Ha.
    rewrite (bool_decide_eq_true_2 (t < sw `max` lw - 1)%nat) by lia.
    apply signal_value_undefined. left. reflexivity.
  - rewrite (bool_decide_eq_false_2 (t < sw - 1)%nat) by exact Ha.
    destruct (decide (t < lw - 1)%nat) as [Hb|Hb].
    + rewrite (bool_decide_eq_true_2 (t < lw - 1)%nat) by exact Hb.
      rewrite (bool_decide_eq_true_2 (t < sw `max` lw - 1)%nat) by lia.
      apply signal_value_undefined. right. reflexivity.
    + rewrite (bool_decide_eq_false_2 (t < lw - 1)%nat) by exact Hb.
      rewrite (bool_decide_eq_false_2 (t < sw `max` lw - 1)%nat) by lia.
      apply signal_of_means.
Qed.

Lemma crossover_of_short_history prices sw lw s1 s2 :
  is_trailing_mean prices sw s1 →
  is_trailing_mean prices lw s2 →
  (length prices < sw `max` lw)%nat →
  crossover_signal (length prices) s1 s2 = replicate (length prices) (Fin 0).
Proof.
  intros H1 H2 Hshort. apply list_eq. intros t.
  destruct (decide (t < length prices)%nat) as [Ht|Ht].
  - rewrite (crossover_of_trailing_means prices sw lw s1 s2 t H1 H2 Ht).
    rewrite lookup_replicate_2 by exact Ht.
    rewrite bool_decide_eq_true_2 by lia. reflexivity.
  - rewrite lookup_ge_None_2
      by (rewrite length_crossover_signal; [lia|apply H1|apply H2]).
    symmetry. apply lookup_ge_None_2. rewrite length_replicate. lia.
Qed.

(** X21.  For every price series and windows from 1 to 2^63 - 1, the
    moving averages followed by [generate_signals] return a table that
    holds both averages and the signal.  On every bar the signal is
    decided by the two averages the first stage stored: +1 where the
    short one is above the long one, 0 where one of them is undefined, -1
    elsewhere.  It is 0 on the bars before both averages are defined,
    that is before bar [max short long - 1].  With equal windows it is
    never +1, and on a series shorter than the longer window it is 0 on
    every bar. *)
Theorem pipeline_signal_follows_the_windows w data df prices :
  heap w !! data = Some df →
  cols df !! "Close" = Some (close_column prices) →
  nrows df = length prices →
  (1 ≤ short_window (self w) < Series.int64_limit)%Z →
  (1 ≤ long_window (self w) < Series.int64_limit)%Z →
  let sw := Z.to_nat (short_window (self w)) in
  let lw := Z.to_nat (long_window (self w)) in
  ∃ sma_short sma_long sig,
    result_column (signals_pipeline data w) "SMA_short" = Some sma_short ∧
    result_column (signals_pipeline data w) "SMA_long" = Some sma_long ∧
    result_column (signals_pipeline data w) "Signal" = Some sig ∧
    length sig = length prices ∧
    (∀ t a b, sma_short !! t = Some a → sma_long !! t = Some b →
       sig !! t = Some (signal_value a b)) ∧
    (∀ t, (t < length prices)%nat → (t < sw `max` lw - 1)%nat →
       sma_short !! t = Some NaN ∨ sma_long !! t = Some NaN) ∧
    (∀ t, (t < length prices)%nat → (t < sw `max` lw - 1)%nat →
       sig !! t = Some (Fin 0)) ∧
    (sw = lw → ∀ t, sig !! t ≠ Some (Fin 1)) ∧
    ((length prices < sw `max` lw)%nat → sig = replicate (length prices) (Fin 0)).
Proof.
  intros Hl Hc Hn Hs Hg sw lw.
  destruct (rolling_mean_close sw prices) as (s1 & H1 & Hlen1 & Hm1);
    [unfold sw; lia|unfold sw; lia|].
  destruct (rolling_mean_close lw prices) as (s2 & H2 & Hlen2 & Hm2);
    [unfold lw; lia|unfold lw; lia|].
  unfold sw in H1. unfold lw in H2. rewrite Z2Nat.id in H1, H2 by lia.
  destruct (signals_pipeline_returns w data df _ s1 s2 Hl Hc H1 H2)
    as (l1 & t1 & l2 & table & Hrun & _ & _ & _ & _ & Hsig & _ & Hsma1 & Hsma2).
  rewrite Hn in Hsig.
  pose proof (conj Hlen1 Hm1 : is_trailing_mean prices sw s1) as Ht1.
  pose proof (conj Hlen2 Hm2 : is_trailing_mean prices lw s2) as Ht2.
  exists s1, s2, (crossover_signal (length prices) s1 s2).
  rewrite Hrun. simpl. rewrite lookup_insert_eq.
  split; [exact Hsma1|]. split; [exact Hsma2|]. split; [exact Hsig|].
  split; [apply length_crossover_signal; assumption|].
  split.
  { intros t a b Ha Hb. apply lookup_crossover_signal; [|exact Ha|exact Hb].
    apply lookup_lt_Some in Ha. lia. }
  split.
  { intros t Ht Hlead. rewrite (Hm1 t Ht), (Hm2 t Ht).
    destruct (decide (t < sw - 1)%nat) as [Ha|Ha].
    - left. rewrite bool_decide_eq_true_2 by exact Ha. reflexivity.
    - right. rewrite bool_decide_eq_true_2 by lia. reflexivity. }
  split.
  { intros t Ht Hlead.
    rewrite (crossover_of_trailing_means prices sw lw s1 s2 t Ht1 Ht2 Ht).
    rewrite bool_decide_eq_true_2 by exact Hlead. reflexivity. }
  split.
  - intros Heq t Ht.
    assert (Hlt : (t < length prices)%nat).
    { apply lookup_lt_Some in Ht.
      rewrite length_crossover_signal in Ht by assumption. exact Ht. }
    rewrite (crossover_of_trailing_means prices sw lw s1 s2 t Ht1 Ht2 Hlt) in Ht.
    injection Ht as Ht. revert Ht.
    rewrite Heq. case_bool_decide; [apply Fin_0_ne_1|].
    rewrite bool_decide_eq_false_2 by apply Qclt_irreflexive.
    apply Fin_m1_ne_1.
  - intros Hshort. apply (crossover_of_short_history prices sw lw); assumption.
Qed.

End Pipeline.

Lemma pipeline_signal_follows_the_windows_witness :
  let sw := Z.to_nat (short_window (self example_world)) in
  let lw := Z.to_nat (long_window (self example_world)) in
  ∃ sma_short sma_long sig,
    result_column (signals_pipeline 1%positive example_world) "SMA_short"
      = Some sma_short ∧
    result_column (signals_pipeline 1%positive example_world) "SMA_long"
      = Some sma_long ∧
    result_column (signals_pipeline 1%positive example_world) "Signal" = Some sig ∧
    length sig = length example_prices ∧
    (∀ t a b, sma_short !! t = Some a → sma_long !! t = Some b →
       sig !! t = Some (signal_value a b)) ∧
    (∀ t, (t < length example_prices)%nat → (t < sw `max` lw - 1)%nat →
       sma_short !! t = Some NaN ∨ sma_long !! t = Some NaN) ∧
    (∀ t, (t < length example_prices)%nat → (t < sw `max` lw - 1)%nat →
       sig !! t = Some (Fin 0%Qc)) ∧
    (sw = lw → ∀ t, sig !! t ≠ Some (Fin 1%Qc)) ∧
    ((length example_prices < sw `max` lw)%nat →
     sig = replicate (length example_prices) (Fin 0%Qc)).
Proof.
  apply (pipeline_signal_follows_the_windows example_world 1%positive
           (table_of_prices example_prices) example_prices);
    [reflexivity | reflexivity | reflexivity
    | split; [simpl; lia|reflexivity] | split; [simpl; lia|reflexivity]].
Defined.

(** ** The whole pipeline *)

Section FullPipeline.

Local Open Scope Qc_scope.

Variable qsqrt : Qc → fval.

Lemma metrics_after_backtest w pv final :
  portfolio_value (self w) = Some pv →
  last pv = Some final →
  Strategy.get_performance_metrics w = Ok (pv, final) w.
Proof.
  intros Hpv Hlast. unfold Strategy.get_performance_metrics.
  rewrite run_bind. unfold get_self. rewrite Hpv.
  rewrite run_bind. erewrite run_iloc_last by exact Hlast. reflexivity.
Qed.

(** X22.  On every price series with at least one bar and windows from
    0 to 2^63 - 1, the moving averages, the signal generation and the
    backtest run one after the other without raising.  Afterwards the input table
    is unchanged, the strategy caches a table with [Signal] and
    [Position] and a portfolio path with one value per bar, and
    [get_performance_metrics] returns that path with the final portfolio
    value of the result set. *)
Theorem full_pipeline_returns w data df prices ic :
  heap w !! data = Some df →
  cols df !! "Close" = Some (close_column prices) →
  nrows df = length prices →
  (0 ≤ short_window (self w) < Series.int64_limit)%Z →
  (0 ≤ long_window (self w) < Series.int64_limit)%Z →
  (0 < length prices)%nat →
  ∃ res w' l' table pv,
    full_pipeline qsqrt data ic w = Ok res w' ∧
    heap w' !! data = Some df ∧
    signals (self w') = Some l' ∧
    heap w' !! l' = Some table ∧
    is_Some (cols table !! "Signal") ∧
    is_Some (cols table !! "Position") ∧
    portfolio_value (self w') = Some pv ∧
    length pv = length prices ∧
    Strategy.get_performance_metrics w' = Ok (pv, final_portfolio_value res) w'.
Proof.
  intros Hl Hc Hn Hs Hg Hpos.
  destruct (rolling_mean_ok (short_window (self w)) (close_column prices) Hs)
    as (s1 & H1 & Hlen1).
  destruct (rolling_mean_ok (long_window (self w)) (close_column prices) Hg)
    as (s2 & H2 & Hlen2).
  rewrite length_close_column in Hlen1, Hlen2.
  destruct (signals_pipeline_returns w data df _ s1 s2 Hl Hc H1 H2)
    as (l1 & t1 & l2 & table & Hrun & Hl1 & Hl2 & _ & Hclose & Hsig & Hposn & _).
  rewrite Hn in Hsig.
  set (sig := crossover_signal (length prices) s1 s2) in *.
  assert (Hsiglen : length sig = length (close_column prices)).
  { rewrite length_close_column. apply length_crossover_signal; assumption. }
  assert (Hplen : length (portfolio_path ic sig (close_column prices))
                  = length prices).
  { rewrite length_portfolio_path, length_strategy_returns by exact Hsiglen.
    apply length_close_column. }
  destruct (last_is_Some (portfolio_path ic sig (close_column prices)))
    as [final Hlast]; [lia|].
  set (w2 := mkWorld (<[l2 := table]> (<[l1 := t1]> (heap w))) _) in Hrun.
  assert (Hw2 : heap w2 !! l2 = Some table) by apply lookup_insert_eq.
  destruct (exec_backtest qsqrt w2 l2 table _ sig ic final Hw2 Hclose Hsig Hlast)
    as [table3 Hbt].
  set (l3 := fresh (dom (heap w2))) in Hbt.
  assert (Hl3 : heap w2 !! l3 = None) by apply not_elem_of_dom, is_fresh.
  assert (Hdata : heap w2 !! data = Some df).
  { unfold w2. simpl.
    rewrite lookup_insert_ne by (intros ->; rewrite lookup_insert_ne in Hl2;
      [congruence|intros ->; congruence]).
    rewrite lookup_insert_ne by (intros ->; congruence). exact Hl. }
  eexists _, _, l2, table, _. split.
  { unfold full_pipeline. rewrite run_bind, Hrun. exact Hbt. }
  simpl. split_and!.
  - rewrite lookup_insert_ne by (intros E; rewrite E in Hl3; congruence).
    exact Hdata.
  - reflexivity.
  - rewrite lookup_insert_ne by (intros E; rewrite E in Hl3; congruence).
    exact Hw2.
  - eauto.
  - eauto.
  - reflexivity.
  - exact Hplen.
  - apply metrics_after_backtest; [reflexivity|exact Hlast].
Qed.


End FullPipeline.

Lemma full_pipeline_returns_witness :
  ∃ res w' l' table pv,
    full_pipeline integer_sqrt 1%positive (of_Z 1000) example_world = Ok res w' ∧
    heap w' !! 1%positive = Some (table_of_prices example_prices) ∧
    signals (self w') = Some l' ∧
    heap w' !! l' = Some table ∧
    is_Some (cols table !! "Signal") ∧
    is_Some (cols table !! "Position") ∧
    portfolio_value (self w') = Some pv ∧
    length pv = length example_prices ∧
    Strategy.get_performance_metrics w' = Ok (pv, final_portfolio_value res) w'.
Proof.
  apply (full_pipeline_returns integer_sqrt example_world 1%positive
           (table_of_prices example_prices) example_prices (of_Z 1000));
    [reflexivity | reflexivity | reflexivity
    | split; [simpl; lia|reflexivity] | split; [simpl; lia|reflexivity]
    | simpl; lia].
Defined.


(** ** The RSI of a price series *)

Section RsiClosedForm.

Local Open Scope Qc_scope.

















Lemma length_trailing_window (xs : list Qc) w t :
  (1 ≤ w)%nat → (t < length xs)%nat → (0 < length (trailing_window xs w t))%nat.
Proof.
  intros Hw Ht. unfold trailing_window. rewrite length_take, length_drop. lia.
Qed.









End RsiClosedForm.



(** ** The annual return *)

Section AnnualReturn.

Local Open Scope Qc_scope.

Variable qsqrt : Qc → fval.

Lemma length_finite_strategy_returns signal prices :
  length signal = length prices →
  length (finite_strategy_returns signal prices) = (length prices - 1)%nat.
Proof.
  intros H. unfold finite_strategy_returns.
  rewrite !length_zip_with, length_drop. lia.
Qed.

Lemma lookup_finite_strategy_returns signal prices t s c0 c1 :
  signal !! t = Some s → prices !! t = Some c0 → prices !! S t = Some c1 →
  finite_strategy_returns signal prices !! t = Some (s * ((c1 - c0) / c0)).
Proof.
  intros Hs H0 H1. unfold finite_strategy_returns.
  rewrite !lookup_zip_with, Hs, H0, lookup_drop. simpl. rewrite H1. reflexivity.
Qed.

Lemma strategy_returns_of_prices signal prices :
  length signal = length prices →
  (1 ≤ length prices)%nat →
  Forall (λ p, p ≠ 0) prices →
  strategy_returns (close_column signal) (close_column prices)
  = NaN :: close_column (finite_strategy_returns signal prices).
Proof.
  intros Hlen Hn Hnz. apply list_eq. intros [|t].
  - rewrite lookup_strategy_returns_0; [reflexivity| |];
      intros H; apply (f_equal length) in H;
      rewrite length_close_column in H; simpl in H; lia.
  - change ((NaN :: close_column (finite_strategy_returns signal prices)) !! S t)
      with (close_column (finite_strategy_returns signal prices) !! t).
    destruct (decide (S t < length prices)%nat) as [Ht|Ht].
    + destruct (lookup_lt_is_Some_2 signal t) as [s Hs]; [lia|].
      destruct (lookup_lt_is_Some_2 prices t) as [c0 H0]; [lia|].
      destruct (lookup_lt_is_Some_2 prices (S t)) as [c1 H1]; [lia|].
      assert (Hc0 : c0 ≠ 0) by (rewrite Forall_lookup in Hnz; exact (Hnz t c0 H0)).
      rewrite (lookup_strategy_returns_S _ _ t (Fin s)
                 (fdiv (fsub (Fin c1) (Fin c0)) (Fin c0))).
      * unfold close_column at 1. rewrite list_lookup_fmap.
        rewrite (lookup_finite_strategy_returns signal prices t s c0 c1 Hs H0 H1).
        simpl. unfold fdiv. rewrite bool_decide_eq_false_2 by exact Hc0.
        reflexivity.
      * unfold close_column. rewrite list_lookup_fmap, Hs. reflexivity.
      * rewrite length_close_column. lia.
      * apply lookup_pct_change_S; assumption.
    + rewrite lookup_ge_None_2
        by (rewrite length_strategy_returns, length_close_column
              by (rewrite !length_close_column; exact Hlen); lia).
      symmetry. apply lookup_ge_None_2.
      rewrite length_close_column, length_finite_strategy_returns by exact Hlen.
      lia.
Qed.

Lemma foldl_fadd_close a qs :
  foldl fadd (Fin a) (close_column qs) = Fin (a + qsum qs).
Proof.
  revert a. induction qs as [|q qs IH]; intros a; simpl.
  - f_equal. ring.
  - rewrite IH. f_equal. ring.
Qed.

Lemma mean_of_defined_returns qs :
  (0 < length qs)%nat →
  Series.mean (NaN :: close_column qs) = Fin (arithmetic_mean qs).
Proof.
  intros Hn. unfold Series.mean, Series.sum_obs.
  assert (Hobs : Series.observations (NaN :: close_column qs) = close_column qs).
  { unfold Series.observations.
    rewrite filter_cons_False by (simpl; discriminate).
    apply observations_close. }
  rewrite Hobs, foldl_fadd_close, length_close_column.
  unfold fdiv. rewrite bool_decide_eq_false_2 by (apply of_nat_nonzero, Hn).
  unfold arithmetic_mean. f_equal. f_equal. ring.
Qed.

(** X26.  On a price series of at least two bars, none of them 0, with
    finite signals, [annual_return] is 252 times the arithmetic mean of
    the strategy returns of bars 1 to n - 1, each the signal of the
    previous bar times the relative change of the close: the undefined
    return of bar 0 is skipped, so the mean divides by n - 1. *)
Theorem annual_return_is_mean_of_defined_returns w data df prices signal ic :
  heap w !! data = Some df →
  cols df !! "Close" = Some (close_column prices) →
  cols df !! "Signal" = Some (close_column signal) →
  length signal = length prices →
  (2 ≤ length prices)%nat →
  Forall (λ p, p ≠ 0) prices →
  ∃ res w' returns,
    Strategy.backtest qsqrt data ic w = Ok res w' ∧
    length returns = (length prices - 1)%nat ∧
    (∀ t s c0 c1, signal !! t = Some s → prices !! t = Some c0 →
       prices !! S t = Some c1 →
       returns !! t = Some (s * ((c1 - c0) / c0))) ∧
    annual_return res = Fin (arithmetic_mean returns * of_Z 252).
Proof.
  intros Hl Hc Hs Hlen Hn Hnz.
  assert (Hplen : length (portfolio_path ic (close_column signal) (close_column prices))
                  = length prices).
  { rewrite length_portfolio_path, length_strategy_returns, length_close_column;
      [reflexivity|]. rewrite !length_close_column. exact Hlen. }
  destruct (last_is_Some (portfolio_path ic (close_column signal) (close_column prices)))
    as [final Hlast]; [lia|].
  destruct (exec_backtest qsqrt w data df _ _ ic final Hl Hc Hs Hlast)
    as [table Hrun].
  exists (backtest_results qsqrt ic (close_column signal) (close_column prices) final).
  eexists. exists (finite_strategy_returns signal prices).
  split; [exact Hrun|].
  split; [apply length_finite_strategy_returns, Hlen|].
  split; [intros t s c0 c1; apply lookup_finite_strategy_returns|].
  unfold backtest_results. cbn [annual_return].
  rewrite (strategy_returns_of_prices signal prices Hlen) by (lia || assumption).
  rewrite mean_of_defined_returns
    by (rewrite length_finite_strategy_returns by exact Hlen; lia).
  reflexivity.
Qed.

End AnnualReturn.

Lemma annual_return_is_mean_of_defined_returns_witness :
  ∃ res w' returns,
    Strategy.backtest integer_sqrt 1%positive (of_Z 1000) example_signals_world
      = Ok res w' ∧
    length returns = (length example_prices - 1)%nat ∧
    (∀ t s c0 c1, [0; 0; 1; 1; 1]%Qc !! t = Some s → example_prices !! t = Some c0 →
       example_prices !! S t = Some c1 →
       returns !! t = Some (s * ((c1 - c0) / c0))%Qc) ∧
    annual_return res = Fin (arithmetic_mean returns * of_Z 252)%Qc.
Proof.
  apply (annual_return_is_mean_of_defined_returns integer_sqrt example_signals_world
           1%positive example_signals example_prices [0; 0; 1; 1; 1]%Qc (of_Z 1000));
    [reflexivity | reflexivity | reflexivity | reflexivity | simpl; lia | by_evaluation].
Defined.
